(** * Verification of the incremental backup engine (backup_script.py)

    A shallow embedding of [find_latest_backup] and [run_backup] over an
    explicit model of the file system, of the console and of the operating
    system's failures, followed by the properties of the backup engine. *)

From Stdlib Require Import Ascii String.
From stdpp Require Import base option list gmap strings sorting.

Local Open Scope string_scope.
Local Open Scope list_scope.
Local Open Scope nat_scope.

(** ** Paths

    A path is the list of its components, from the root of the file system:
    [os.path.join] appends components, [os.path.dirname] drops the last one
    and [os.path.relpath] drops the components of the start directory. *)

Abbreviation path := (list string).

Definition dirname (p : path) : path := take (length p - 1) p.

Definition basename (p : path) : string := default "" (last p).

Definition relpath (p start : path) : path := drop (length start) p.

(** The text of a path as the messages show it: components separated by
    [os.sep]; an absolute path starts with the separator. *)
Definition sep : string := "/".

Definition render_rel (p : path) : string := String.concat sep p.

Definition render_abs (p : path) : string := sep +:+ String.concat sep p.

(** ** Exceptions

    The classes the script distinguishes in its [except] clauses.  Every
    class but [NonOSError] is a subclass of [OSError]; all of them are
    subclasses of [Exception]. *)

Inductive exn_class :=
  | PermissionError
  | FileNotFoundError
  | FileExistsError
  | NotADirectoryError
  | IsADirectoryError
  | SameFileError
  | OtherOSError
  | NonOSError.

Record exn := Exn { exn_cls : exn_class; exn_text : string }.

Global Instance exn_class_eq_dec : EqDecision exn_class.
Proof. solve_decision. Defined.

Global Instance exn_eq_dec : EqDecision exn.
Proof. solve_decision. Defined.

Definition is_OSError (e : exn) : bool :=
  match exn_cls e with NonOSError => false | _ => true end.

Definition is_FileExistsError (e : exn) : bool :=
  match exn_cls e with FileExistsError => true | _ => false end.

Definition is_SameFileError (e : exn) : bool :=
  match exn_cls e with SameFileError => true | _ => false end.

Definition is_PermissionError (e : exn) : bool :=
  match exn_cls e with PermissionError => true | _ => false end.

(** ** The file system *)

Inductive node :=
  | Dir
  | File (data : string).

Global Instance node_eq_dec : EqDecision node.
Proof. solve_decision. Defined.

Abbreviation filesystem := (gmap (list string) node).

(** The root directory always exists. *)
Definition fs_node (fs : filesystem) (p : path) : option node :=
  match p with
  | [] => Some Dir
  | _ => fs !! p
  end.

Definition isdir (fs : filesystem) (p : path) : bool :=
  match fs_node fs p with Some Dir => true | _ => false end.

Definition path_exists (fs : filesystem) (p : path) : bool :=
  match fs_node fs p with Some _ => true | None => false end.

(** The size [os.stat] reports: the length of a regular file, one block for
    a directory. *)
Definition st_size (n : node) : nat :=
  match n with
  | Dir => 4096
  | File data => String.length data
  end.

(** [child_of p k] is the name of [k] inside [p] when [k] is an entry of
    the directory [p]. *)
Definition child_of (p k : path) : option string :=
  if decide (take (length p) k = p) then
    match drop (length p) k with
    | [name] => Some name
    | _ => None
    end
  else None.

Definition entries (fs : filesystem) (p : path) : list string :=
  omap (λ kv, child_of p kv.1) (map_to_list fs).

(** Every entry but the root has a directory as parent. *)
Definition fs_wf (fs : filesystem) : Prop :=
  ∀ p name, is_Some (fs !! (p ++ [name])) → isdir fs p = true.

(** ** Failures of the operating system

    Each call into the operating system may fail for reasons the file system
    model does not show (permissions, a full or failing disk).  A fault plan
    names the calls that fail and the exception each one raises. *)

Inductive syscall :=
  | SysListdir (p : path)
  | SysScandir (p : path)
  | SysMkdir (p : path)
  | SysStat (p : path)
  | SysCopy (src dst : path)
  | SysOpen (p : path)
  | SysWrite (p : path) (n : nat).

Global Instance syscall_eq_dec : EqDecision syscall.
Proof. solve_decision. Defined.

Definition faults : Type := syscall → option exn.

Definition no_faults : faults := λ _, None.

(** The exceptions the file system model raises by itself carry the text
    the operating system gives them. *)
Definition strerror (c : exn_class) : string :=
  match c with
  | PermissionError => "[Errno 13] Permission denied"
  | FileNotFoundError => "[Errno 2] No such file or directory"
  | FileExistsError => "[Errno 17] File exists"
  | NotADirectoryError => "[Errno 20] Not a directory"
  | IsADirectoryError => "[Errno 21] Is a directory"
  | SameFileError => "source and destination are the same file"
  | OtherOSError => "[Errno 5] Input/output error"
  | NonOSError => "error"
  end.

Definition os_error (c : exn_class) (p : path) : exn :=
  Exn c (strerror c +:+ ": '" +:+ render_abs p +:+ "'").

(** ** The console

    Every [print] of the script is an event; [is_stderr] tells the stream.
    The comment next to each event is the text printed. *)

Inductive event :=
  | ErrSourceInvalid (source_dir : path)
      (* Error: Source path '{source_dir}' is not a valid directory. *)
  | ErrDestinationInvalid (destination_dir : path)
      (* Error: Destination path '{destination_dir}' is not a valid directory. *)
  | PrintDryRunBanner
      (* *** DRY RUN MODE: No files will be copied. *** *)
  | PrintStarting (full_backup : bool) (source_dir : path)
      (* Starting {FULL|INCREMENTAL} backup from '{source_dir}'... *)
  | ErrCreateDestination (backup_path : path) (e : exn)
      (* Error: Failed to create destination directory '{backup_path}': {e} *)
  | ErrFindLatest (e : exn)
      (* Error: Could not find latest backup folder: {e} *)
  | PrintComparing (latest_backup_dir : path)
      (*   > Comparing to latest backup at: '{latest_backup_dir}' *)
  | PrintNoPrevious
      (*   > No previous backups found. Performing a full backup instead. *)
  | PrintSkipping (relative_path : path)
      (*   > Skipping identical file: '{relative_path}' *)
  | PrintUpdated (relative_path : path)
      (*   > Found updated file: '{relative_path}' *)
  | ErrSizeCheck (relative_path : path) (e : exn)
      (* Error checking file size for '{relative_path}': {e}. Copying anyway. *)
  | PrintCopied (relative_path : path)
      (*   > Copied '{relative_path}' *)
  | ErrSameFile (relative_path : path)
      (*   > Warning: File '{relative_path}' is already in destination. *)
  | ErrPermission (relative_path : path)
      (*   > Error: Permission denied for '{relative_path}'. Skipping. *)
  | ErrUnexpected (relative_path : path) (e : exn)
      (*   > Unexpected error copying '{relative_path}': {e} *)
  | PrintWouldCopy (relative_path : path)
      (*   > (Dry Run) Would copy '{relative_path}' *)
  | PrintLogSaved (log_file_path : path)
      (* Backup log saved to '{log_file_path}' *)
  | ErrLogWrite (e : exn)
      (* Error: Could not write backup log file: {e} *)
  | PrintSummary (total_files files_to_copy files_skipped : nat) (dry_run : bool).
      (* --- Backup Summary --- and its three counters *)

Definition is_stderr (ev : event) : bool :=
  match ev with
  | ErrSourceInvalid _ | ErrDestinationInvalid _ | ErrCreateDestination _ _
  | ErrFindLatest _ | ErrSizeCheck _ _ | ErrSameFile _ | ErrPermission _
  | ErrUnexpected _ _ | ErrLogWrite _ => true
  | _ => false
  end.

(** ** The action log

    The entries the script appends to [log_messages], and their text. *)

Inductive log_message :=
  | LogCreated (backup_path : path)
  | LogIncremental (latest_backup_dir : path)
  | LogNoPrevious
  | LogSkippedIdentical (relative_path : path)
  | LogUpdated (relative_path : path)
  | LogCopied (relative_path : path)
  | LogSameFile (relative_path : path)
  | LogPermission (relative_path : path)
  | LogUnexpected (relative_path : path) (e : exn)
  | LogWouldCopy (relative_path : path).

Definition quoted (s : string) : string := "'" +:+ s +:+ "'".

Definition render_log_message (m : log_message) : string :=
  match m with
  | LogCreated p => "Created new backup directory: " +:+ quoted (render_abs p)
  | LogIncremental p =>
      "Performing incremental backup against: " +:+ quoted (render_abs p)
  | LogNoPrevious => "No previous backups found. Performing a full backup."
  | LogSkippedIdentical r => "Skipped identical file: " +:+ quoted (render_rel r)
  | LogUpdated r => "Found updated file: " +:+ quoted (render_rel r)
  | LogCopied r => "Copied: " +:+ quoted (render_rel r)
  | LogSameFile r =>
      "Warning: Skipped " +:+ quoted (render_rel r)
        +:+ " because it already exists in the destination."
  | LogPermission r => "Permission denied. Skipped: " +:+ quoted (render_rel r)
  | LogUnexpected r e =>
      "Unexpected error. Skipped: " +:+ quoted (render_rel r)
        +:+ " due to error: " +:+ exn_text e
  | LogWouldCopy r => "(Dry Run) Would copy: " +:+ quoted (render_rel r)
  end.

(** ** Computations

    A computation transforms the file system, prints events and either
    returns a value, raises an exception or runs out of fuel (only the walk
    of the source tree takes fuel). *)

Inductive result (A : Type) :=
  | Ok (a : A)
  | Raise (e : exn)
  | OutOfFuel.
Arguments Ok {A} a.
Arguments Raise {A} e.
Arguments OutOfFuel {A}.

Definition M (A : Type) : Type :=
  filesystem → filesystem * list event * result A.

Definition ret {A} (a : A) : M A := λ fs, (fs, [], Ok a).

Definition bind {A B} (m : M A) (k : A → M B) : M B := λ fs,
  match m fs with
  | (fs1, o1, Ok a) => let '(fs2, o2, r) := k a fs1 in (fs2, o1 ++ o2, r)
  | (fs1, o1, Raise e) => (fs1, o1, Raise e)
  | (fs1, o1, OutOfFuel) => (fs1, o1, OutOfFuel)
  end.

Notation "x <- m ;; k" := (bind m (λ x, k))
  (at level 100, m at next level, right associativity).
Notation "m ;;; k" := (bind m (λ _, k))
  (at level 100, right associativity).

Definition raise {A} (e : exn) : M A := λ fs, (fs, [], Raise e).

Definition print (ev : event) : M unit := λ fs, (fs, [ev], Ok tt).

(** [try: m except catches: h]: the effects of [m] up to the exception
    stay. *)
Definition try_except {A} (m : M A) (catches : exn → bool) (h : exn → M A)
    : M A := λ fs,
  match m fs with
  | (fs1, o1, Raise e) =>
      if catches e then let '(fs2, o2, r) := h e fs1 in (fs2, o1 ++ o2, r)
      else (fs1, o1, Raise e)
  | other => other
  end.

Definition any_Exception (e : exn) : bool := true.

(** ** Operations of [os], [os.path] and [shutil] *)

Definition os_path_isdir (p : path) : M bool := λ fs, (fs, [], Ok (isdir fs p)).

Definition os_path_exists (p : path) : M bool :=
  λ fs, (fs, [], Ok (path_exists fs p)).

Definition os_listdir (F : faults) (p : path) : M (list string) := λ fs,
  match F (SysListdir p) with
  | Some e => (fs, [], Raise e)
  | None =>
      match fs_node fs p with
      | Some Dir => (fs, [], Ok (entries fs p))
      | Some (File _) => (fs, [], Raise (os_error NotADirectoryError p))
      | None => (fs, [], Raise (os_error FileNotFoundError p))
      end
  end.

(** [os.scandir]: the entries with their [is_dir()]. *)
Definition os_scandir (F : faults) (p : path) : M (list (string * bool)) :=
  λ fs,
  match F (SysScandir p) with
  | Some e => (fs, [], Raise e)
  | None =>
      match fs_node fs p with
      | Some Dir =>
          (fs, [], Ok (map (λ name, (name, isdir fs (p ++ [name]))) (entries fs p)))
      | Some (File _) => (fs, [], Raise (os_error NotADirectoryError p))
      | None => (fs, [], Raise (os_error FileNotFoundError p))
      end
  end.

Definition os_mkdir (F : faults) (p : path) : M unit := λ fs,
  match F (SysMkdir p) with
  | Some e => (fs, [], Raise e)
  | None =>
      if path_exists fs p then (fs, [], Raise (os_error FileExistsError p))
      else
        match fs_node fs (dirname p) with
        | Some Dir => (<[p := Dir]> fs, [], Ok tt)
        | Some (File _) => (fs, [], Raise (os_error NotADirectoryError p))
        | None => (fs, [], Raise (os_error FileNotFoundError p))
        end
  end.

(** [os.makedirs(name, exist_ok=True)]: the missing ancestors first (a
    [FileExistsError] there is passed over), then [mkdir] of the path itself,
    whose [OSError] is dropped when the path is a directory.  [n] is the
    number of leading components of [name] the call is about. *)
Fixpoint makedirs_upto (F : faults) (name : path) (n : nat) : M unit :=
  (match n with
   | 0 => ret tt
   | S n' =>
       head_exists <- os_path_exists (take n' name) ;;
       if head_exists : bool then ret tt
       else try_except (makedirs_upto F name n') is_FileExistsError (λ _, ret tt)
   end) ;;;
  try_except (os_mkdir F (take n name)) is_OSError
    (λ e, d <- os_path_isdir (take n name) ;;
          if d : bool then ret tt else raise e).

Definition os_makedirs (F : faults) (name : path) : M unit :=
  makedirs_upto F name (length name).

Definition os_path_getsize (F : faults) (p : path) : M nat := λ fs,
  match F (SysStat p) with
  | Some e => (fs, [], Raise e)
  | None =>
      match fs_node fs p with
      | Some n => (fs, [], Ok (st_size n))
      | None => (fs, [], Raise (os_error FileNotFoundError p))
      end
  end.

(** [shutil.copy2(src, dst)]: into [dst] when it is a directory; the same
    file is refused; the source is opened for reading, then the destination
    for writing, and the content copied. *)
Definition shutil_copy2 (F : faults) (src dst : path) : M unit := λ fs,
  match F (SysCopy src dst) with
  | Some e => (fs, [], Raise e)
  | None =>
      let dst' := if isdir fs dst then dst ++ [basename src] else dst in
      if bool_decide (src = dst') && path_exists fs src then
        (fs, [], Raise (os_error SameFileError src))
      else
        match fs_node fs src with
        | None => (fs, [], Raise (os_error FileNotFoundError src))
        | Some Dir => (fs, [], Raise (os_error IsADirectoryError src))
        | Some (File data) =>
            match fs_node fs dst' with
            | Some Dir => (fs, [], Raise (os_error IsADirectoryError dst'))
            | _ =>
                match fs_node fs (dirname dst') with
                | Some Dir => (<[dst' := File data]> fs, [], Ok tt)
                | Some (File _) =>
                    (fs, [], Raise (os_error NotADirectoryError dst'))
                | None => (fs, [], Raise (os_error FileNotFoundError dst'))
                end
            end
        end
  end.

(** [open(p, 'w')] creates or truncates the file. *)
Definition open_w (F : faults) (p : path) : M unit := λ fs,
  match F (SysOpen p) with
  | Some e => (fs, [], Raise e)
  | None =>
      match fs_node fs p with
      | Some Dir => (fs, [], Raise (os_error IsADirectoryError p))
      | _ =>
          match fs_node fs (dirname p) with
          | Some Dir => (<[p := File ""]> fs, [], Ok tt)
          | Some (File _) => (fs, [], Raise (os_error NotADirectoryError p))
          | None => (fs, [], Raise (os_error FileNotFoundError p))
          end
      end
  end.

(** The [n]-th [write] to the file opened at [p] appends [text]. *)
Definition file_write (F : faults) (p : path) (n : nat) (text : string)
    : M unit := λ fs,
  match F (SysWrite p n) with
  | Some e => (fs, [], Raise e)
  | None =>
      match fs !! p with
      | Some (File data) => (<[p := File (data +:+ text)]> fs, [], Ok tt)
      | _ => (fs, [], Raise (os_error OtherOSError p))
      end
  end.

Fixpoint write_all (F : faults) (p : path) (n : nat) (texts : list string)
    : M unit :=
  match texts with
  | [] => ret tt
  | text :: rest => file_write F p n text ;;; write_all F p (S n) rest
  end.

(** ** Timestamps

    [datetime.now().strftime('%Y-%m-%d_%H-%M-%S')] and
    [datetime.strptime(entry, '%Y-%m-%d_%H-%M-%S')]. *)

Record datetime := DateTime {
  year : nat; month : nat; day : nat;
  hour : nat; minute : nat; second : nat
}.

Definition is_leap (y : nat) : bool :=
  (y mod 4 =? 0) && (negb (y mod 100 =? 0) || (y mod 400 =? 0)).

Definition days_in_month (y m : nat) : nat :=
  match m with
  | 2 => if is_leap y then 29 else 28
  | 4 | 6 | 9 | 11 => 30
  | _ => 31
  end.

(** The values a [datetime] object can hold: years 1 to 9999, and so on. *)
Definition valid_datetime (d : datetime) : bool :=
  (1 <=? year d) && (year d <? 10 * 1000)
  && (1 <=? month d) && (month d <=? 12)
  && (1 <=? day d) && (day d <=? days_in_month (year d) (month d))
  && (hour d <? 24) && (minute d <? 60) && (second d <? 60).

Definition digit_char (n : nat) : ascii := ascii_of_nat (48 + n).

Definition pad2 (n : nat) : string :=
  String (digit_char (n / 10)) (String (digit_char (n mod 10)) "").

Definition pad4 (n : nat) : string :=
  String (digit_char (n / 1000))
    (String (digit_char (n / 100 mod 10))
       (String (digit_char (n / 10 mod 10))
          (String (digit_char (n mod 10)) ""))).

(** Zero-padded fields; the year has four digits from the year 1000 on. *)
Definition strftime (d : datetime) : string :=
  pad4 (year d) +:+ "-" +:+ pad2 (month d) +:+ "-" +:+ pad2 (day d) +:+ "_"
    +:+ pad2 (hour d) +:+ "-" +:+ pad2 (minute d) +:+ "-" +:+ pad2 (second d).

(** The names of the file system are the UTF-8 encodings of the [str]
    names Python works with.  [strptime] matches its regular expression on
    code points: there [\d] is any decimal digit of Unicode (the category
    Nd), a class such as [0-5] or a literal digit an ASCII digit only, and
    [int] gives every decimal digit its value.

    [utf8_head s] is the code point the text [s] starts with, and the rest
    of the text; a byte sequence that encodes no code point gives [None]
    (Python reads such bytes as lone surrogates, which are no digits). *)
Definition continuation_byte (c : ascii) : option N :=
  let b := N_of_ascii c in
  if ((128 <=? b) && (b <? 192))%N then Some (b - 128)%N else None.

Definition utf8_head (s : string) : option (N * string) :=
  match s with
  | EmptyString => None
  | String c0 s1 =>
      let b0 := N_of_ascii c0 in
      if (b0 <? 128)%N then Some (b0, s1)
      else if ((194 <=? b0) && (b0 <? 224))%N then
        match s1 with
        | String c1 s2 =>
            x1 ← continuation_byte c1;
            Some (((b0 - 192) * 64 + x1)%N, s2)
        | _ => None
        end
      else if ((224 <=? b0) && (b0 <? 240))%N then
        match s1 with
        | String c1 (String c2 s3) =>
            x1 ← continuation_byte c1; x2 ← continuation_byte c2;
            let cp := ((b0 - 224) * 4096 + x1 * 64 + x2)%N in
            if ((2048 <=? cp) && negb ((55296 <=? cp) && (cp <? 57344)))%N
            then Some (cp, s3) else None
        | _ => None
        end
      else if ((240 <=? b0) && (b0 <? 245))%N then
        match s1 with
        | String c1 (String c2 (String c3 s4)) =>
            x1 ← continuation_byte c1; x2 ← continuation_byte c2;
            x3 ← continuation_byte c3;
            let cp := ((b0 - 240) * 262144 + x1 * 4096 + x2 * 64 + x3)%N in
            if ((65536 <=? cp) && (cp <? 1114112))%N then Some (cp, s4)
            else None
        | _ => None
        end
      else None
  end.

(** The digits zero of the decimal digits of Unicode 14.0.0, the version of
    CPython 3.11: each is followed by its digits one to nine. *)
Definition decimal_zeros : list N :=
  [ 0x30; 0x660; 0x6f0; 0x7c0; 0x966; 0x9e6; 0xa66; 0xae6; 0xb66; 0xbe6;
    0xc66; 0xce6; 0xd66; 0xde6; 0xe50; 0xed0; 0xf20; 0x1040; 0x1090; 0x17e0;
    0x1810; 0x1946; 0x19d0; 0x1a80; 0x1a90; 0x1b50; 0x1bb0; 0x1c40; 0x1c50;
    0xa620; 0xa8d0; 0xa900; 0xa9d0; 0xa9f0; 0xaa50; 0xabf0; 0xff10; 0x104a0;
    0x10d30; 0x11066; 0x110f0; 0x11136; 0x111d0; 0x112f0; 0x11450; 0x114d0;
    0x11650; 0x116c0; 0x11730; 0x118e0; 0x11950; 0x11c50; 0x11d50; 0x11da0;
    0x16a60; 0x16ac0; 0x16b50; 0x1d7ce; 0x1d7d8; 0x1d7e2; 0x1d7ec; 0x1d7f6;
    0x1e140; 0x1e2f0; 0x1e950; 0x1fbf0 ]%N.

(** The value [int] gives a decimal digit. *)
Definition decimal_value (cp : N) : option nat :=
  zero ← List.find (λ zero, ((zero <=? cp) && (cp <? zero + 10))%N)
           decimal_zeros;
  Some (N.to_nat (cp - zero)).

(** A digit as the regular expression sees it: its value, and whether it is
    one of the ASCII digits. *)
Record digit := Digit { digit_value : nat; digit_ascii : bool }.

(** The digit a text starts with, and the rest of the text. *)
Definition digit_head (s : string) : option (digit * string) :=
  '(cp, rest) ← utf8_head s;
  v ← decimal_value cp;
  Some (Digit v (cp <? 128)%N, rest).

(** An ASCII digit from [lo] to [hi], as in the class [lo-hi]. *)
Definition in_class (lo hi : nat) (d : digit) : bool :=
  digit_ascii d && (lo <=? digit_value d) && (digit_value d <=? hi).

(** The text before the first [c] and the text after it. *)
Fixpoint split_on (c : ascii) (s : string) : option (string * string) :=
  match s with
  | EmptyString => None
  | String a s' =>
      if Ascii.eqb a c then Some (EmptyString, s')
      else '(t, r) ← split_on c s'; Some (String a t, r)
  end.

Definition one_digit (s : string) : option digit :=
  '(d, rest) ← digit_head s;
  match rest with
  | EmptyString => Some d
  | _ => None
  end.

Definition two_digits (s : string) : option (digit * digit) :=
  '(x, rest) ← digit_head s;
  '(y, rest') ← digit_head rest;
  match rest' with
  | EmptyString => Some (x, y)
  | _ => None
  end.

(** The directives of [strptime], each with its regular expression; a field
    may come without its leading zero.  %Y: \d\d\d\d. *)
Definition parse_Y (s : string) : option nat :=
  '(x, r1) ← digit_head s; '(y, r2) ← digit_head r1;
  '(z, r3) ← digit_head r2; '(w, r4) ← digit_head r3;
  match r4 with
  | EmptyString =>
      Some (1000 * digit_value x + 100 * digit_value y + 10 * digit_value z
            + digit_value w)
  | _ => None
  end.

(** %m: 1[0-2]|0[1-9]|[1-9]. *)
Definition parse_m (s : string) : option nat :=
  match two_digits s with
  | Some (x, y) =>
      if in_class 1 1 x && in_class 0 2 y then Some (10 + digit_value y)
      else if in_class 0 0 x && in_class 1 9 y then Some (digit_value y)
      else None
  | None =>
      x ← one_digit s; if in_class 1 9 x then Some (digit_value x) else None
  end.

(** %d: 3[0-1]|[1-2]\d|0[1-9]|[1-9]| [1-9]. *)
Definition parse_d (s : string) : option nat :=
  match two_digits s with
  | Some (x, y) =>
      if in_class 3 3 x && in_class 0 1 y then Some (30 + digit_value y)
      else if in_class 1 2 x then Some (10 * digit_value x + digit_value y)
      else if in_class 0 0 x && in_class 1 9 y then Some (digit_value y)
      else None
  | None =>
      match s with
      | String " " rest =>
          y ← one_digit rest;
          if in_class 1 9 y then Some (digit_value y) else None
      | _ =>
          x ← one_digit s;
          if in_class 1 9 x then Some (digit_value x) else None
      end
  end.

(** %H: 2[0-3]|[0-1]\d|\d. *)
Definition parse_H (s : string) : option nat :=
  match two_digits s with
  | Some (x, y) =>
      if in_class 2 2 x && in_class 0 3 y then Some (20 + digit_value y)
      else if in_class 0 1 x then Some (10 * digit_value x + digit_value y)
      else None
  | None => x ← one_digit s; Some (digit_value x)
  end.

(** %M: [0-5]\d|\d. *)
Definition parse_M (s : string) : option nat :=
  match two_digits s with
  | Some (x, y) =>
      if in_class 0 5 x then Some (10 * digit_value x + digit_value y)
      else None
  | None => x ← one_digit s; Some (digit_value x)
  end.

(** %S: 6[0-1]|[0-5]\d|\d. *)
Definition parse_S (s : string) : option nat :=
  match two_digits s with
  | Some (x, y) =>
      if in_class 6 6 x && in_class 0 1 y then Some (60 + digit_value y)
      else if in_class 0 5 x then Some (10 * digit_value x + digit_value y)
      else None
  | None => x ← one_digit s; Some (digit_value x)
  end.

(** [None] stands for the [ValueError] of a text that does not match the
    format, has text left over or names no date and time. *)
Definition strptime (s : string) : option datetime :=
  '(tY, r1) ← split_on "-" s;
  '(tm, r2) ← split_on "-" r1;
  '(td, r3) ← split_on "_" r2;
  '(tH, r4) ← split_on "-" r3;
  '(tM, tS) ← split_on "-" r4;
  y ← parse_Y tY; m ← parse_m tm; d ← parse_d td;
  hh ← parse_H tH; mm ← parse_M tM; ss ← parse_S tS;
  let dt := DateTime y m d hh mm ss in
  if valid_datetime dt then Some dt else None.

(** ** [find_latest_backup] *)

(** The loop over the listing: directories whose name parses are kept, in
    the order of the listing. *)
Fixpoint collect_backup_folders (destination_dir : path)
    (listing backup_folders : list string) : M (list string) :=
  match listing with
  | [] => ret backup_folders
  | entry :: rest =>
      d <- os_path_isdir (destination_dir ++ [entry]) ;;
      if d : bool then
        match strptime entry with
        | Some _ =>
            collect_backup_folders destination_dir rest (backup_folders ++ [entry])
        | None => collect_backup_folders destination_dir rest backup_folders
        end
      else collect_backup_folders destination_dir rest backup_folders
  end.

(** [sort(reverse=True)] on strings. *)
Definition sort_reverse (l : list string) : list string :=
  merge_sort (flip String.le) l.

Definition find_latest_backup (F : faults) (destination_dir : path)
    : M (option path) :=
  try_except
    (listing <- os_listdir F destination_dir ;;
     backup_folders <- collect_backup_folders destination_dir listing [] ;;
     ret (match sort_reverse backup_folders with
          | newest :: _ => Some (destination_dir ++ [newest])
          | [] => None
          end))
    any_Exception
    (λ e, print (ErrFindLatest e) ;;; ret None).

(** ** [run_backup] *)

Record locals := Locals {
  log_messages : list log_message;
  files_to_copy : nat;
  files_skipped : nat;
  total_files : nat
}.

Definition log_append (m : log_message) (l : locals) : locals :=
  Locals (log_messages l ++ [m]) (files_to_copy l) (files_skipped l)
    (total_files l).

Definition incr_to_copy (l : locals) : locals :=
  Locals (log_messages l) (files_to_copy l + 1) (files_skipped l)
    (total_files l).

Definition incr_skipped (l : locals) : locals :=
  Locals (log_messages l) (files_to_copy l) (files_skipped l + 1)
    (total_files l).

Definition incr_total (l : locals) : locals :=
  Locals (log_messages l) (files_to_copy l) (files_skipped l)
    (total_files l + 1).

Inductive decision := SKIP | COPY.

(** The comparison with the latest backup: [SKIP] is the [continue] of the
    loop, [COPY] falls through to the copy. *)
Definition check_incremental (F : faults) (full_backup : bool)
    (latest_backup_dir : option path) (source_file relative_path : path)
    (l : locals) : M (decision * locals) :=
  match negb full_backup, latest_backup_dir with
  | true, Some latest =>
      let latest_backup_file := latest ++ relative_path in
      found <- os_path_exists latest_backup_file ;;
      if found : bool then
        try_except
          (size_source <- os_path_getsize F source_file ;;
           size_latest <- os_path_getsize F latest_backup_file ;;
           if size_source =? size_latest then
             print (PrintSkipping relative_path) ;;;
             ret (SKIP,
                  incr_skipped (log_append (LogSkippedIdentical relative_path) l))
           else
             print (PrintUpdated relative_path) ;;;
             ret (COPY, log_append (LogUpdated relative_path) l))
          is_OSError
          (λ e, print (ErrSizeCheck relative_path e) ;;; ret (COPY, l))
      else ret (COPY, l)
  | _, _ => ret (COPY, l)
  end.

(** The subdirectories, then the copy or its simulation. *)
Definition copy_file (F : faults) (dry_run : bool)
    (source_file destination_file relative_path : path) (l : locals)
    : M locals :=
  os_makedirs F (dirname destination_file) ;;;
  if negb dry_run then
    try_except
      (shutil_copy2 F source_file destination_file ;;;
       print (PrintCopied relative_path) ;;;
       ret (incr_to_copy (log_append (LogCopied relative_path) l)))
      any_Exception
      (λ e,
         if is_SameFileError e then
           print (ErrSameFile relative_path) ;;;
           ret (incr_skipped (log_append (LogSameFile relative_path) l))
         else if is_PermissionError e then
           print (ErrPermission relative_path) ;;;
           ret (incr_skipped (log_append (LogPermission relative_path) l))
         else
           print (ErrUnexpected relative_path e) ;;;
           ret (incr_skipped (log_append (LogUnexpected relative_path e) l)))
  else
    print (PrintWouldCopy relative_path) ;;;
    ret (incr_to_copy (log_append (LogWouldCopy relative_path) l)).

(** The body of the loop over the files of one directory. *)
Definition process_file (F : faults) (source_dir backup_path : path)
    (full_backup : bool) (latest_backup_dir : option path) (dry_run : bool)
    (root : path) (filename : string) (l : locals) : M locals :=
  let l := incr_total l in
  let source_file := root ++ [filename] in
  let relative_path := relpath source_file source_dir in
  let destination_file := backup_path ++ relative_path in
  dl <- check_incremental F full_backup latest_backup_dir source_file
          relative_path l ;;
  match dl with
  | (SKIP, l) => ret l
  | (COPY, l) => copy_file F dry_run source_file destination_file relative_path l
  end.

Fixpoint for_files (body : string → locals → M locals) (files : list string)
    (l : locals) : M locals :=
  match files with
  | [] => ret l
  | filename :: rest => l' <- body filename l ;; for_files body rest l'
  end.

Definition scan_dirs (scanned : list (string * bool)) : list string :=
  (filter (λ e, e.2 = true) scanned).*1.

Definition scan_nondirs (scanned : list (string * bool)) : list string :=
  (filter (λ e, e.2 = false) scanned).*1.

(** [for root, _, files in os.walk(source_dir)]: top-down; a directory is
    listed when the walk reaches it, after the loop body has run on the
    directories before it, and a directory that cannot be listed is passed
    over.  [stack] holds the directories still to visit, each step of the
    walk takes one unit of [fuel]. *)
Fixpoint os_walk (F : faults) (fuel : nat) (stack : list path)
    (body : path → list string → locals → M locals) (l : locals)
    {struct fuel} : M locals :=
  match stack with
  | [] => ret l
  | top :: stack' =>
      match fuel with
      | 0 => λ fs, (fs, [], OutOfFuel)
      | S fuel' =>
          scanned <- try_except
                       (es <- os_scandir F top ;; ret (Some es))
                       is_OSError (λ _, ret None) ;;
          match scanned with
          | None => os_walk F fuel' stack' body l
          | Some es =>
              l' <- body top (scan_nondirs es) l ;;
              os_walk F fuel' (map (λ d, top ++ [d]) (scan_dirs es) ++ stack')
                body l'
          end
      end
  end.

Definition nl : string := String (ascii_of_nat 10) EmptyString.

Definition log_header (timestamp : string) (source_dir destination_dir : path)
    (full_backup dry_run : bool) : list string :=
  [ "Backup Log: " +:+ timestamp +:+ nl;
    "Source: " +:+ render_abs source_dir +:+ nl;
    "Destination: " +:+ render_abs destination_dir +:+ nl;
    "Backup Type: " +:+ (if full_backup then "Full" else "Incremental") +:+ nl;
    "Dry Run: " +:+ (if dry_run then "Yes" else "No") +:+ nl +:+ nl;
    "--- Actions ---" +:+ nl ].

Definition log_lines (messages : list log_message) : list string :=
  map (λ m, render_log_message m +:+ nl) messages.

(** The block that writes the log file. *)
Definition write_log (F : faults) (log_file_path : path) (timestamp : string)
    (source_dir destination_dir : path) (full_backup dry_run : bool)
    (messages : list log_message) : M unit :=
  try_except
    (open_w F log_file_path ;;;
     write_all F log_file_path 0
       (log_header timestamp source_dir destination_dir full_backup dry_run
          ++ log_lines messages) ;;;
     print (PrintLogSaved log_file_path))
    any_Exception
    (λ e, print (ErrLogWrite e)).

(** The baseline of an incremental run. *)
Definition resolve_baseline (F : faults) (destination_dir : path)
    (full_backup : bool) (l : locals) : M (option path * locals) :=
  if negb full_backup then
    latest_backup_dir <- find_latest_backup F destination_dir ;;
    match latest_backup_dir with
    | Some latest =>
        print (PrintComparing latest) ;;;
        ret (Some latest, log_append (LogIncremental latest) l)
    | None =>
        print PrintNoPrevious ;;;
        ret (None, log_append LogNoPrevious l)
    end
  else ret (None, l).

(** The loop over the source tree. *)
Definition traverse (F : faults) (fuel : nat) (source_dir backup_path : path)
    (full_backup : bool) (latest_backup_dir : option path) (dry_run : bool)
    (l : locals) : M locals :=
  os_walk F fuel [source_dir]
    (λ root files,
       for_files
         (process_file F source_dir backup_path full_backup latest_backup_dir
            dry_run root)
         files)
    l.

Definition run_backup (F : faults) (fuel : nat) (now : datetime)
    (source_dir destination_dir : path) (full_backup dry_run : bool)
    : M unit :=
  source_ok <- os_path_isdir source_dir ;;
  if negb source_ok then print (ErrSourceInvalid source_dir)
  else
    destination_ok <- os_path_isdir destination_dir ;;
    if negb destination_ok then print (ErrDestinationInvalid destination_dir)
    else
      let timestamp := strftime now in
      let backup_path := destination_dir ++ [timestamp] in
      let log_file_path := backup_path ++ ["backup_log.txt"] in
      (if dry_run then print PrintDryRunBanner else ret tt) ;;;
      print (PrintStarting full_backup source_dir) ;;;
      created <- try_except
                   (os_makedirs F backup_path ;;;
                    ret (Some (Locals [LogCreated backup_path] 0 0 0)))
                   is_OSError
                   (λ e, print (ErrCreateDestination backup_path e) ;;;
                         ret None) ;;
      match created with
      | None => ret tt
      | Some l =>
          bl <- resolve_baseline F destination_dir full_backup l ;;
          l <- traverse F fuel source_dir backup_path full_backup bl.1
                 dry_run bl.2 ;;
          write_log F log_file_path timestamp source_dir destination_dir
            full_backup dry_run (log_messages l) ;;;
          print (PrintSummary (total_files l) (files_to_copy l)
                   (files_skipped l) dry_run)
      end.

(** ** Notions and examples of the statements *)

(** [fs'] is [fs] with more directories, all of them among the first [n]
    leading parts of [name]. *)
Definition grows_by_dirs (name : path) (n : nat) (fs fs' : filesystem)
    : Prop :=
  fs ⊆ fs'
  ∧ ∀ p, is_Some (fs' !! p) →
         is_Some (fs !! p)
         ∨ (fs' !! p = Some Dir ∧ ∃ k, k ≤ n ∧ p = take k name).

(** The path [shutil.copy2] writes to. *)
Definition copy2_target (fs : filesystem) (src dst : path) : path :=
  if isdir fs dst then dst ++ [basename src] else dst.

(** The entries [find_latest_backup] keeps: directories whose name
    [strptime] accepts. *)
Definition is_backup_folder (fs : filesystem) (destination_dir : path)
    (entry : string) : bool :=
  isdir fs (destination_dir ++ [entry]) && bool_decide (is_Some (strptime entry)).

Definition backup_folders_of (fs : filesystem) (destination_dir : path)
    (listing : list string) : list string :=
  filter (λ entry, is_backup_folder fs destination_dir entry = true) listing.






(** The events printed while the files are processed. *)
Definition is_file_event (ev : event) : bool :=
  match ev with
  | PrintSkipping _ | PrintUpdated _ | ErrSizeCheck _ _ | PrintCopied _
  | ErrSameFile _ | ErrPermission _ | ErrUnexpected _ _ | PrintWouldCopy _ =>
      true
  | _ => false
  end.

(** What the loop prints and records for a file whose copy raised [e]. *)
Definition copy_failure_report (e : exn) (relative_path : path)
    : event * log_message :=
  if is_SameFileError e then
    (ErrSameFile relative_path, LogSameFile relative_path)
  else if is_PermissionError e then
    (ErrPermission relative_path, LogPermission relative_path)
  else (ErrUnexpected relative_path e, LogUnexpected relative_path e).

(** The listing [os.walk] works on when it reaches [top]. *)
Definition scan (fs : filesystem) (top : path) : list (string * bool) :=
  map (λ name, (name, isdir fs (top ++ [name]))) (entries fs top).

Definition banner (dry_run : bool) : list event :=
  if dry_run then [PrintDryRunBanner] else [].

Definition balanced (l : locals) : Prop :=
  total_files l = files_to_copy l + files_skipped l.

Definition map_result {A B} (g : A → B)
    (x : filesystem * list event * result A)
    : filesystem * list event * result B :=
  match x with
  | (fs, o, Ok a) => (fs, o, Ok (g a))
  | (fs, o, Raise e) => (fs, o, Raise e)
  | (fs, o, OutOfFuel) => (fs, o, OutOfFuel)
  end.

(** [g] touches the log only, and the part of the log it touches is not the
    end where the loop appends. *)
Definition with_log_prefix (pre : list log_message) (l : locals) : locals :=
  Locals (pre ++ log_messages l) (files_to_copy l) (files_skipped l)
    (total_files l).

(** The events of the files among the events of a run, in their order. *)
Definition file_events (o : list event) : list event :=
  filter (λ ev, is_file_event ev = true) o.

(** The entry of the log that goes with a line of the console: the script
    appends the one where it prints the other. *)
Definition log_of_event (ev : event) : option log_message :=
  match ev with
  | PrintComparing latest => Some (LogIncremental latest)
  | PrintNoPrevious => Some LogNoPrevious
  | PrintSkipping r => Some (LogSkippedIdentical r)
  | PrintUpdated r => Some (LogUpdated r)
  | PrintCopied r => Some (LogCopied r)
  | ErrSameFile r => Some (LogSameFile r)
  | ErrPermission r => Some (LogPermission r)
  | ErrUnexpected r e => Some (LogUnexpected r e)
  | PrintWouldCopy r => Some (LogWouldCopy r)
  | _ => None
  end.

Definition log_of_events (out : list event) : list log_message :=
  omap log_of_event out.

(** The log grew by the entries that go with [o]. *)
Definition logs (l : locals) (o : list event) (l' : locals) : Prop :=
  log_messages l' = log_messages l ++ log_of_events o.

Definition keeps_dirs (fs fs' : filesystem) : Prop :=
  ∀ p, isdir fs p = true → isdir fs' p = true.

(** Ten files, one of which cannot be copied. *)
Definition ten_files_now : datetime := DateTime 2024 3 1 12 0 0.

Definition ten_names : list string :=
  ["f0"; "f1"; "f2"; "f3"; "f4"; "f5"; "f6"; "f7"; "f8"; "f9"].

Definition ten_files : filesystem :=
  list_to_map
    ([ (["src"], Dir); (["dst"], Dir) ]
       ++ map (λ name, (["src"; name], File ("data of " +:+ name))) ten_names).

Definition f3_denied : exn :=
  Exn PermissionError
    "[Errno 13] Permission denied: '/dst/2024-03-01_12-00-00/f3'".

Definition ten_files_faults : faults := λ call,
  if decide (call = SysCopy ["src"; "f3"] ["dst"; "2024-03-01_12-00-00"; "f3"])
  then Some f3_denied else None.

(** A source tree with two subdirectories. *)
Definition tree_example : filesystem :=
  list_to_map
    [ (["src"], Dir); (["dst"], Dir);
      (["src"; "top.txt"], File "t");
      (["src"; "docs"], Dir); (["src"; "docs"; "a.txt"], File "aaa");
      (["src"; "pics"], Dir); (["src"; "pics"; "b.png"], File "bbbb") ].

Definition tree_snapshot : path := ["dst"; "2024-03-01_12-00-00"].

(** The disk is full when the first subdirectory of the snapshot is made. *)
Definition disk_full : exn :=
  Exn OtherOSError
    "[Errno 28] No space left on device: '/dst/2024-03-01_12-00-00/docs'".

Definition docs_mkdir_fails : faults := λ call,
  if decide (call = SysMkdir (tree_snapshot ++ ["docs"])) then Some disk_full
  else None.

Fixpoint no_char (c : ascii) (s : string) : bool :=
  match s with
  | EmptyString => true
  | String a s' => negb (Ascii.eqb a c) && no_char c s'
  end.

(** A clock reading: a date and time from the year 1000 on. *)
Definition clock_reading (d : datetime) : bool :=
  valid_datetime d && (1000 <=? year d).

(** No directory of the stack is inside another one. *)
Definition incomparable (p q : path) : Prop :=
  ¬ p `prefix_of` q ∧ ¬ q `prefix_of` p.

Fixpoint antichain (stack : list path) : Prop :=
  match stack with
  | [] => True
  | q :: rest => (∀ q', q' ∈ rest → incomparable q q') ∧ antichain rest
  end.

(** While the walk goes on, nothing under the snapshot mirrors a path at or
    below a directory still to visit. *)
Definition walk_inv (source_dir backup_path : path) (stack : list path)
    (fs : filesystem) : Prop :=
  (∀ q, q ∈ stack → source_dir `prefix_of` q)
  ∧ antichain stack
  ∧ ∀ s, s ≠ [] → is_Some (fs !! (backup_path ++ s)) →
         ∀ q, q ∈ stack → ¬ q `prefix_of` source_dir ++ s.

(** While the files of [top] are processed: what is under the snapshot
    either was there when [top] was reached or mirrors a file of [top]
    already processed, or a directory above it. *)
Definition files_inv (source_dir backup_path top : path) (stack : list path)
    (nondirs rest : list string) (fs : filesystem) : Prop :=
  ∃ done,
    nondirs = done ++ rest
    ∧ ∀ s, s ≠ [] → is_Some (fs !! (backup_path ++ s)) →
           (∀ q, q ∈ top :: stack → ¬ q `prefix_of` source_dir ++ s)
           ∨ (∃ f, f ∈ done ∧ source_dir ++ s `prefix_of` top ++ [f]).

Definition not_skipping (ev : event) : Prop :=
  ∀ relative_path, ev ≠ PrintSkipping relative_path.







(** [fs'] has no regular file that [fs] has not, with the same content. *)
Definition keeps_files (fs fs' : filesystem) : Prop :=
  ∀ p data, fs' !! p = Some (File data) → fs !! p = Some (File data).

Definition fs_wf_b (fs : filesystem) : bool :=
  forallb
    (λ kv : path * node,
       match kv.1 with [] => true | _ => isdir fs (dirname kv.1) end)
    (map_to_list fs).

Definition older_snapshots_b (fs : filesystem) (destination_dir : path)
    (timestamp : string) : bool :=
  forallb
    (λ entry,
       implb (is_backup_folder fs destination_dir entry)
         (String.ltb entry timestamp))
    (entries fs destination_dir).

Definition no_snapshots_b (fs : filesystem) (destination_dir : path) : bool :=
  forallb (λ entry, negb (is_backup_folder fs destination_dir entry))
    (entries fs destination_dir).

Definition notes_snapshot : path := ["dst"; "2024-01-01_00-00-00"].

Definition notes_example : filesystem :=
  list_to_map
    [ (["src"], Dir);
      (["src"; "notes.txt"], File "hello");
      (["src"; "todo.txt"], File "a longer text");
      (["src"; "new.txt"], File "n");
      (["dst"], Dir);
      (notes_snapshot, Dir);
      (notes_snapshot ++ ["notes.txt"], File "HELLO");
      (notes_snapshot ++ ["todo.txt"], File "short") ].

Definition stat_fails : exn := Exn OtherOSError "[Errno 5] Input/output error".

Definition notes_unreadable : faults := λ call,
  if decide (call = SysStat ["src"; "notes.txt"]) then Some stat_fails
  else None.

Definition first_file : locals := Locals [] 0 0 1.

Definition ten_files_snapshot : filesystem :=
  <[["dst"; "2024-03-01_12-00-00"] := Dir]> ten_files.

Definition listing_denied : exn :=
  Exn PermissionError "[Errno 13] Permission denied: '/dst'".

Definition unlistable : faults := λ call,
  if decide (call = SysListdir ["dst"]) then Some listing_denied else None.

(** One entry more, or one regular file rewritten, under [backup_path]:
    every write of a run is such a step. *)
Definition adds_under (backup_path : path) (fs fs' : filesystem) : Prop :=
  ∃ q n,
    backup_path `prefix_of` q ∧ q ≠ []
    ∧ isdir fs (dirname q) = true
    ∧ (n = Dir ∨ isdir fs q = false)
    ∧ fs' = <[q := n]> fs.

(** What [os.mkdir] does when it succeeds. *)
Definition mkdir_step (fs fs' : filesystem) (p : path) : Prop :=
  path_exists fs p = false ∧ isdir fs (dirname p) = true
  ∧ fs' = <[p := Dir]> fs.

Definition makes_prefixes (name : path) : relation filesystem :=
  rtc (λ fs fs', ∃ k, mkdir_step fs fs' (take k name)).

(** A step of [os.makedirs name] between [base] and [name]. *)
Definition mkdir_under (base name : path) (fs fs' : filesystem) : Prop :=
  ∃ q, base `prefix_of` q ∧ q `prefix_of` name ∧ mkdir_step fs fs' q
       ∧ fs_wf fs ∧ isdir fs base = true.

(** The changes a run may make to the file system: nothing outside
    [backup_path], no directory replaced, no entry removed. *)
Definition extends_under (backup_path : path) (fs fs' : filesystem) : Prop :=
  (∀ p, ¬ backup_path `prefix_of` p → fs' !! p = fs !! p)
  ∧ (∀ p, fs !! p = Some Dir → fs' !! p = Some Dir)
  ∧ (∀ p, is_Some (fs !! p) → is_Some (fs' !! p)).

(** The lines that tell that a file was copied, or would be. *)
Definition is_copy_event (ev : event) : bool :=
  match ev with
  | PrintCopied _ | PrintWouldCopy _ => true
  | _ => false
  end.

(** The lines that tell that a file was left out. *)
Definition is_skip_event (ev : event) : bool :=
  match ev with
  | PrintSkipping _ | ErrSameFile _ | ErrPermission _ | ErrUnexpected _ _ =>
      true
  | _ => false
  end.

Definition count_events (P : event → bool) (out : list event) : nat :=
  length (filter (λ ev, P ev = true) out).

(** The counters moved by what [o] tells. *)
Definition tallies (l : locals) (o : list event) (l' : locals) : Prop :=
  files_to_copy l' = files_to_copy l + count_events is_copy_event o
  ∧ files_skipped l' = files_skipped l + count_events is_skip_event o.

(** What [parser.parse_args()] returns. *)
Record namespace := Namespace {
  arg_source_dir : path;
  arg_destination_dir : path;
  arg_full : bool;
  arg_incremental : bool;
  arg_dry_run : bool
}.

(** The mode the main block works out from the flags. *)
Definition is_full_backup (args : namespace) : bool :=
  let is_full_backup := arg_full args in
  if arg_incremental args && negb (arg_full args) then false
  else if negb (arg_incremental args) && negb (arg_full args) then false
  else is_full_backup.

(** The main block, after the arguments are parsed. *)
Definition main (F : faults) (fuel : nat) (now : datetime) (args : namespace)
    : M unit :=
  run_backup F fuel now (arg_source_dir args) (arg_destination_dir args)
    (is_full_backup args) (arg_dry_run args).

(** The line [get_file_hash] prints on the error stream. *)
Inductive hash_event :=
  | ErrHash (filepath : path) (e : exn).
      (* Error: Could not read file to generate hash for '{filepath}': {e} *)

(** The first [n] bytes of [s], fewer when [s] is shorter, and the rest. *)
Fixpoint read_upto (n : nat) (s : string) : string * string :=
  match n, s with
  | S n', String c s' =>
      let '(buf, rest) := read_upto n' s' in (String c buf, rest)
  | _, _ => ("", s)
  end.

(** [f.read(size)] on a file opened with ['rb']: the next [size] bytes, fewer
    at the end of the file; all that is left when [size] is negative. *)
Definition file_read (size : Z) (rest : string) : string * string :=
  if (size <? 0)%Z then (rest, "") else read_upto (Z.to_nat size) rest.

(** The loop [while len(buf) > 0].  [fed] is what [hasher.update] was given
    so far, [rest] what is left to read, [k] the number of calls of
    [f.read] so far; [R] names the calls of [f.read] that fail.  Each turn
    of the loop takes one unit of [fuel]. *)
Fixpoint hash_blocks (R : nat → option exn) (block_size : Z) (fuel k : nat)
    (buf rest fed : string) : result string :=
  if String.length buf =? 0 then Ok fed
  else
    match fuel with
    | 0 => OutOfFuel
    | S fuel' =>
        match R k with
        | Some e => Raise e
        | None =>
            let '(buf', rest') := file_read block_size rest in
            hash_blocks R block_size fuel' (S k) buf' rest' (fed +:+ buf)
        end
    end.

(** [get_file_hash(filepath, block_size)].  [md5_hexdigest data] is the
    digest [hashlib.md5] gives for the bytes [data], however they were cut
    into calls of [update].  The result is the printed lines and the value
    returned: [Some] digest, or [None]. *)
Definition get_file_hash (md5_hexdigest : string → string) (F : faults)
    (R : nat → option exn) (fuel : nat) (filepath : path) (block_size : Z)
    (fs : filesystem) : list hash_event * result (option string) :=
  let attempt :=
    match F (SysOpen filepath) with
    | Some e => Raise e
    | None =>
        match fs_node fs filepath with
        | None => Raise (os_error FileNotFoundError filepath)
        | Some Dir => Raise (os_error IsADirectoryError filepath)
        | Some (File data) =>
            match R 0 with
            | Some e => Raise e
            | None =>
                let '(buf, rest) := file_read block_size data in
                hash_blocks R block_size fuel 1 buf rest ""
            end
        end
    end in
  match attempt with
  | Ok fed => ([], Ok (Some (md5_hexdigest fed)))
  | Raise e => ([ErrHash filepath e], Ok None)
  | OutOfFuel => ([], OutOfFuel)
  end.

(** The default [block_size]. *)
Definition default_block_size : Z := 65536.

(** The directories the walk can meet: [source_dir] and the directories of
    the file system. *)
Definition directories (fs : filesystem) (source_dir : path) : gset path :=
  {[ source_dir ]} ∪ dom (filter (λ kv : path * node, kv.2 = Dir) fs).

(** Outside [backup_path] the file system is what it was. *)
Definition same_outside (fs0 : filesystem) (backup_path : path)
    (fs : filesystem) : Prop :=
  ∀ p, ¬ backup_path `prefix_of` p → fs !! p = fs0 !! p.

(** What lies in the snapshot lies in the source, at the same place. *)
Definition mirrors (fs0 : filesystem) (source_dir backup_path : path)
    (fs : filesystem) : Prop :=
  ∀ rel n, rel ≠ [] → fs !! (backup_path ++ rel) = Some n →
           fs0 !! (source_dir ++ rel) = Some n.

(** The events that tell that a file was copied. *)
Definition copied_event (ev : event) : Prop := ∃ rel, ev = PrintCopied rel.

(** The state of the file system while the files are copied. *)
Definition copying (fs0 : filesystem) (source_dir backup_path : path)
    (fs : filesystem) : Prop :=
  fs_wf fs ∧ isdir fs backup_path = true
  ∧ same_outside fs0 backup_path fs
  ∧ mirrors fs0 source_dir backup_path fs.

(** A source that holds a file with the name of the log. *)
Definition log_name_example : filesystem :=
  list_to_map
    [ (["src"], Dir); (["dst"], Dir);
      (["src"; "backup_log.txt"], File "the log of another tool");
      (["src"; "notes.txt"], File "hello") ].

Definition read_only : exn :=
  Exn OtherOSError
    "[Errno 30] Read-only file system: '/dst/2024-03-01_12-00-00'".

Definition destination_read_only : faults := λ call,
  if decide (call = SysMkdir ["dst"; "2024-03-01_12-00-00"])
  then Some read_only else None.

Definition source_denied : exn :=
  Exn PermissionError "[Errno 13] Permission denied: '/src'".

Definition source_unreadable : faults := λ call,
  if decide (call = SysScandir ["src"]) then Some source_denied else None.

(** A stand-in for the digest, to run [get_file_hash] on an example. *)
Definition length_digest (data : string) : string :=
  pad4 (String.length data).

Definition never_fails : nat → option exn := λ _, None.

Definition third_read_fails : nat → option exn := λ k,
  if k =? 2 then Some stat_fails else None.






(** * Properties *)

(** ** Computations *)

Lemma bind_inv {A B} (m : M A) (k : A → M B) fs fs' o r :
  bind m k fs = (fs', o, r) →
  (∃ fs1 o1 a o2,
      m fs = (fs1, o1, Ok a) ∧ k a fs1 = (fs', o2, r) ∧ o = o1 ++ o2)
  ∨ (∃ e, m fs = (fs', o, Raise e) ∧ r = Raise e)
  ∨ (m fs = (fs', o, OutOfFuel) ∧ r = OutOfFuel).
Proof.
  unfold bind. destruct (m fs) as [[fs1 o1] [a|e|]]; intros H.
  - left. destruct (k a fs1) as [[fs2 o2] r2] eqn:Hk. simplify_eq.
    by eexists _, _, _, _.
  - right; left. simplify_eq. by eexists.
  - right; right. by simplify_eq.
Qed.

Lemma bind_ok {A B} (m : M A) (k : A → M B) fs fs1 o1 a :
  m fs = (fs1, o1, Ok a) →
  bind m k fs = let '(fs2, o2, r) := k a fs1 in (fs2, o1 ++ o2, r).
Proof. unfold bind. by intros ->. Qed.

Lemma bind_pure {A B} (m : M A) (k : A → M B) fs a :
  m fs = (fs, [], Ok a) → bind m k fs = k a fs.
Proof. unfold bind. intros ->. by destruct (k a fs) as [[fs2 o2] r]. Qed.

Lemma bind_raise {A B} (m : M A) (k : A → M B) fs fs1 o1 e :
  m fs = (fs1, o1, Raise e) → bind m k fs = (fs1, o1, Raise e).
Proof. unfold bind. by intros ->. Qed.

Lemma try_except_inv {A} (m : M A) catches h fs fs' o r :
  try_except m catches h fs = (fs', o, r) →
  (m fs = (fs', o, r) ∧ ∀ e, r = Raise e → catches e = false)
  ∨ (∃ fs1 o1 e o2,
        m fs = (fs1, o1, Raise e) ∧ catches e = true
        ∧ h e fs1 = (fs', o2, r) ∧ o = o1 ++ o2).
Proof.
  unfold try_except. destruct (m fs) as [[fs1 o1] [a|e|]]; intros H.
  - left. by simplify_eq.
  - destruct (catches e) eqn:Hc.
    + right. destruct (h e fs1) as [[fs2 o2] r2] eqn:Hh. simplify_eq.
      by eexists _, _, _, _.
    + left. simplify_eq. split; [done|]. by intros ? [= <-].
  - left. by simplify_eq.
Qed.

(** ** Paths and directory listings *)

Lemma child_of_Some p k name : child_of p k = Some name ↔ k = p ++ [name].
Proof.
  unfold child_of. split.
  - case_decide as Hp; [|done].
    destruct (drop (length p) k) as [|n [|]] eqn:Hd; intros [= ->].
    by rewrite <- (take_drop (length p) k), Hp, Hd.
  - intros ->. rewrite take_app_length, decide_True by done.
    by rewrite drop_app_length.
Qed.

Lemma elem_of_entries fs p name :
  name ∈ entries fs p ↔ is_Some (fs !! (p ++ [name])).
Proof.
  unfold entries. rewrite list_elem_of_omap. split.
  - intros ([k n] & Hin & Hc). apply child_of_Some in Hc. simpl in Hc.
    subst. apply elem_of_map_to_list in Hin. by eexists.
  - intros [n Hn]. exists (p ++ [name], n). split.
    + by apply elem_of_map_to_list.
    + by apply child_of_Some.
Qed.

Lemma NoDup_entries fs p : NoDup (entries fs p).
Proof.
  unfold entries.
  assert (Hnd : NoDup (map_to_list fs).*1) by apply NoDup_fst_map_to_list.
  induction (map_to_list fs) as [|[k n] l IH]; simpl; [constructor|].
  apply NoDup_cons in Hnd as [Hk Hnd]. simpl in *.
  destruct (child_of p k) as [name|] eqn:Hc; [|by apply IH].
  apply NoDup_cons. split; [|by apply IH].
  apply child_of_Some in Hc. subst k.
  rewrite list_elem_of_omap. intros ([k' n'] & Hin & Hc').
  apply child_of_Some in Hc'. simpl in Hc'. subst k'.
  apply Hk. apply list_elem_of_fmap. by exists (p ++ [name], n').
Qed.

Lemma dirname_snoc p name : dirname (p ++ [name]) = p.
Proof.
  unfold dirname. rewrite length_app. simpl.
  replace (length p + 1 - 1) with (length p) by lia.
  by rewrite take_app_length.
Qed.

Lemma relpath_app start r : relpath (start ++ r) start = r.
Proof. unfold relpath. by rewrite drop_app_length. Qed.

(** ** Operations of the file system *)

Lemma fs_node_weaken (fs fs' : filesystem) p n :
  fs ⊆ fs' → fs_node fs p = Some n → fs_node fs' p = Some n.
Proof.
  intros Hsub. destruct p; simpl; [done|].
  intros Hn. by eapply lookup_weaken.
Qed.

Lemma isdir_weaken (fs fs' : filesystem) p :
  fs ⊆ fs' → isdir fs p = true → isdir fs' p = true.
Proof.
  intros Hsub. unfold isdir.
  destruct (fs_node fs p) as [[|]|] eqn:Hn; try done.
  by rewrite (fs_node_weaken _ _ _ _ Hsub Hn).
Qed.

Lemma path_exists_weaken (fs fs' : filesystem) p :
  fs ⊆ fs' → path_exists fs p = true → path_exists fs' p = true.
Proof.
  intros Hsub. unfold path_exists.
  destruct (fs_node fs p) as [n|] eqn:Hn; [|done].
  by rewrite (fs_node_weaken _ _ _ _ Hsub Hn).
Qed.

Lemma isdir_lookup (fs : filesystem) p :
  p ≠ [] → isdir fs p = true ↔ fs !! p = Some Dir.
Proof.
  intros Hp. unfold isdir, fs_node. destruct p; [done|].
  destruct (fs !! (s :: p)) as [[|]|]; naive_solver.
Qed.

Lemma path_exists_lookup (fs : filesystem) p :
  p ≠ [] → path_exists fs p = true ↔ is_Some (fs !! p).
Proof.
  intros Hp. unfold path_exists, fs_node. destruct p; [done|].
  destruct (fs !! (s :: p)) as [n|].
  - split; [by eexists | done].
  - split; [done | by intros [? ?]].
Qed.

Lemma path_exists_false_lookup (fs : filesystem) p :
  path_exists fs p = false → fs !! p = None.
Proof.
  unfold path_exists, fs_node. destruct p; [done|].
  by destruct (fs !! (s :: p)).
Qed.

Lemma isdir_exists (fs : filesystem) p :
  isdir fs p = true → path_exists fs p = true.
Proof. unfold isdir, path_exists. by destruct (fs_node fs p) as [[|]|]. Qed.

Lemma os_mkdir_spec F p fs fs' o r :
  os_mkdir F p fs = (fs', o, r) →
  o = [] ∧ r ≠ OutOfFuel
  ∧ ((∃ e, r = Raise e ∧ fs' = fs)
     ∨ (r = Ok tt ∧ fs !! p = None ∧ p ≠ [] ∧ fs' = <[p := Dir]> fs)).
Proof.
  unfold os_mkdir. intros H.
  destruct (F (SysMkdir p)) as [e|]; [simplify_eq; naive_solver|].
  destruct (path_exists fs p) eqn:Hex; [simplify_eq; naive_solver|].
  destruct (fs_node fs (dirname p)) as [[|]|]; simplify_eq;
    try naive_solver.
  split; [done|]. split; [done|]. right.
  split; [done|]. split; [by apply path_exists_false_lookup|].
  split; [|done]. by intros ->.
Qed.

Lemma grows_by_dirs_refl (name : path) (n : nat) (fs : filesystem) : grows_by_dirs name n fs fs.
Proof. split; [done|]. intros p Hp. by left. Qed.

Lemma grows_by_dirs_trans (name : path) (n1 n2 n : nat)
    (fs1 fs2 fs3 : filesystem) :
  n1 ≤ n → n2 ≤ n →
  grows_by_dirs name n1 fs1 fs2 → grows_by_dirs name n2 fs2 fs3 →
  grows_by_dirs name n fs1 fs3.
Proof.
  intros Hn1 Hn2 [Hs1 Hg1] [Hs2 Hg2]. split; [by etrans|].
  intros p Hp. destruct (Hg2 p Hp) as [Hp2|[Hd (k & Hk & ->)]].
  - destruct (Hg1 p Hp2) as [?|[Hd (k & Hk & ->)]]; [by left|].
    right. split; [by eapply lookup_weaken|]. exists k. split; [lia|done].
  - right. split; [done|]. exists k. split; [lia|done].
Qed.

Lemma grows_by_dirs_insert (name : path) (n : nat) (fs : filesystem) :
  fs !! take n name = None →
  grows_by_dirs name n fs (<[take n name := Dir]> fs).
Proof.
  intros Hnone. split; [by apply insert_subseteq|].
  intros p Hp. destruct (decide (p = take n name)) as [->|Hneq].
  - right. rewrite lookup_insert_eq. split; [done|]. by exists n.
  - left. by rewrite lookup_insert_ne in Hp.
Qed.

Lemma mkdir_exist_ok_spec F p fs fs' o r :
  try_except (os_mkdir F p) is_OSError
    (λ e, d <- os_path_isdir p ;; if d : bool then ret tt else raise e) fs
  = (fs', o, r) →
  o = [] ∧ r ≠ OutOfFuel
  ∧ (fs' = fs ∨ (fs !! p = None ∧ fs' = <[p := Dir]> fs))
  ∧ (r = Ok tt → isdir fs' p = true).
Proof.
  intros H.
  apply try_except_inv in H
    as [[H Hc] | (fs1 & o1 & e & o2 & H & Hc & Hh & ->)].
  - apply os_mkdir_spec in H
      as (-> & Hr & [(e & -> & ->) | (-> & Hnone & Hne & ->)]).
    + repeat split; try done. by left.
    + repeat split; try done; [by right|].
      intros _. apply isdir_lookup; [done|]. by rewrite lookup_insert_eq.
  - apply os_mkdir_spec in H
      as (-> & Hr & [(e' & [= <-] & ->) | (? & _)]); [|done].
    unfold bind, os_path_isdir in Hh.
    destruct (isdir fs p) eqn:Hd; unfold ret, raise in Hh;
      simplify_eq; repeat split; try done; by left.
Qed.

(** [os.makedirs] prints nothing, keeps every entry, adds directories only,
    all of them leading parts of the path, and leaves the path a directory
    when it returns. *)
Lemma makedirs_upto_spec F name n fs fs' o r :
  makedirs_upto F name n fs = (fs', o, r) →
  o = [] ∧ r ≠ OutOfFuel ∧ grows_by_dirs name n fs fs'
  ∧ (r = Ok tt → isdir fs' (take n name) = true).
Proof.
  revert fs fs' o r. induction n as [|n IH]; intros fs fs' o r H.
  - simpl in H. unfold bind at 1 in H. simpl in H.
    destruct (try_except _ _ _ fs) as [[fs2 o2] r2] eqn:Hm.
    apply mkdir_exist_ok_spec in Hm as (-> & Hr2 & Hfs & Hdir).
    assert (fs' = fs2 ∧ o = [] ∧ r = r2) as (-> & -> & ->) by (by simplify_eq).
    destruct Hfs as [->|[Hnone ->]];
      (split; [done|]); (split; [done|]); (split; [|done]).
    + apply grows_by_dirs_refl.
    + by apply (grows_by_dirs_insert name 0).
  - simpl in H.
    assert (Hhead : ∀ fs1 o1 (r1 : result ()),
      (head_exists <- os_path_exists (take n name) ;;
       if head_exists : bool then ret tt
       else try_except (makedirs_upto F name n) is_FileExistsError
              (λ _, ret tt)) fs = (fs1, o1, r1) →
      o1 = [] ∧ r1 ≠ OutOfFuel ∧ grows_by_dirs name n fs fs1).
    { intros fs1 o1 r1 Hh. unfold bind, os_path_exists in Hh.
      destruct (path_exists fs (take n name)).
      - unfold ret in Hh. simplify_eq. repeat split; try done.
        apply grows_by_dirs_refl.
      - destruct (try_except _ _ _ fs) as [[fs3 o3] r3] eqn:Ht.
        assert (fs3 = fs1 ∧ o3 = o1 ∧ r3 = r1) as (-> & -> & ->).
        { simpl in Hh. by simplify_eq. }
        apply try_except_inv in Ht
          as [[Ht _] | (fs4 & o4 & e & o5 & Ht & _ & Hx & ->)].
        + by apply IH in Ht as (-> & ? & ? & _).
        + apply IH in Ht as (-> & ? & ? & _). unfold ret in Hx.
          by simplify_eq. }
    apply bind_inv in H
      as [(fs1 & o1 & [] & o2 & Hm1 & Hm2 & ->) | [(e & Hm1 & ->) | [Hm1 ->]]].
    + apply Hhead in Hm1 as (-> & _ & Hg1).
      apply mkdir_exist_ok_spec in Hm2 as (-> & Hr & Hfs & Hdir).
      (split; [done|]); (split; [done|]); (split; [|done]).
      destruct Hfs as [->|[Hnone ->]].
      * apply (grows_by_dirs_trans name n (S n) (S n) fs fs1 fs1);
          [lia|lia|done|apply grows_by_dirs_refl].
      * apply (grows_by_dirs_trans name n (S n) (S n) fs fs1 _);
          [lia|lia|done|by apply (grows_by_dirs_insert name (S n))].
    + apply Hhead in Hm1 as (-> & _ & Hg1).
      (split; [done|]); (split; [done|]); (split; [|done]).
      apply (grows_by_dirs_trans name n (S n) (S n) fs fs' fs');
        [lia|lia|done|apply grows_by_dirs_refl].
    + by apply Hhead in Hm1 as (_ & ? & _).
Qed.

Lemma os_makedirs_spec F name fs fs' o r :
  os_makedirs F name fs = (fs', o, r) →
  o = [] ∧ r ≠ OutOfFuel ∧ grows_by_dirs name (length name) fs fs'
  ∧ (r = Ok tt → isdir fs' name = true).
Proof.
  unfold os_makedirs. intros H.
  apply makedirs_upto_spec in H as (? & ? & ? & Hd).
  by rewrite firstn_all in Hd.
Qed.

Lemma os_path_getsize_spec F p fs fs' o r :
  os_path_getsize F p fs = (fs', o, r) → fs' = fs ∧ o = [] ∧ r ≠ OutOfFuel.
Proof.
  unfold os_path_getsize. intros H.
  destruct (F (SysStat p)); [by simplify_eq|].
  destruct (fs_node fs p); by simplify_eq.
Qed.

Lemma shutil_copy2_spec F src dst fs fs' o r :
  shutil_copy2 F src dst fs = (fs', o, r) →
  o = [] ∧ r ≠ OutOfFuel
  ∧ ((∃ e, r = Raise e ∧ fs' = fs)
     ∨ (∃ data, r = Ok tt ∧ fs_node fs src = Some (File data)
                ∧ isdir fs (copy2_target fs src dst) = false
                ∧ fs' = <[copy2_target fs src dst := File data]> fs)).
Proof.
  unfold shutil_copy2. fold (copy2_target fs src dst). intros H.
  destruct (F (SysCopy src dst)) as [e|]; [simplify_eq; naive_solver|].
  destruct (bool_decide _ && _); [simplify_eq; naive_solver|].
  destruct (fs_node fs src) as [[|data]|] eqn:Hsrc;
    [simplify_eq; naive_solver| |simplify_eq; naive_solver].
  destruct (fs_node fs (copy2_target fs src dst)) as [[|data']|] eqn:Hdst;
    [simplify_eq; naive_solver| |];
    (destruct (fs_node fs (dirname (copy2_target fs src dst))) as [[|]|];
     [|simplify_eq; naive_solver|simplify_eq; naive_solver]);
    simplify_eq; (split; [done|]); (split; [done|]); right; exists data;
    unfold isdir; by rewrite Hdst.
Qed.

Lemma open_w_spec F p fs fs' o r :
  open_w F p fs = (fs', o, r) →
  o = [] ∧ r ≠ OutOfFuel
  ∧ ((∃ e, r = Raise e ∧ fs' = fs)
     ∨ (r = Ok tt ∧ fs' = <[p := File ""]> fs)).
Proof.
  unfold open_w. intros H.
  destruct (F (SysOpen p)) as [e|]; [simplify_eq; naive_solver|].
  destruct (fs_node fs p) as [[|data]|];
    [simplify_eq; naive_solver| |];
    (destruct (fs_node fs (dirname p)) as [[|]|]; simplify_eq; naive_solver).
Qed.

Lemma string_app_nil_r (s : string) : s +:+ "" = s.
Proof.
  induction s as [|c s IH]; [done|].
  change (String c (s +:+ "") = String c s). by f_equal.
Qed.

Lemma string_app_assoc (s1 s2 s3 : string) :
  (s1 +:+ s2) +:+ s3 = s1 +:+ (s2 +:+ s3).
Proof.
  induction s1 as [|c s1 IH]; [done|].
  change (String c ((s1 +:+ s2) +:+ s3) = String c (s1 +:+ (s2 +:+ s3))).
  by f_equal.
Qed.

Lemma string_concat_cons (s : string) (l : list string) :
  String.concat "" (s :: l) = s +:+ String.concat "" l.
Proof.
  destruct l; [|reflexivity].
  change (String.concat "" [s]) with s. change (String.concat "" []) with "".
  by rewrite string_app_nil_r.
Qed.

(** The writes append to the file, in order, up to the first failure. *)
Lemma write_all_spec F p texts n fs data fs' o r :
  fs !! p = Some (File data) →
  write_all F p n texts fs = (fs', o, r) →
  o = [] ∧ r ≠ OutOfFuel
  ∧ (∀ q, q ≠ p → fs' !! q = fs !! q)
  ∧ (r = Ok tt → fs' !! p = Some (File (data +:+ String.concat "" texts)))
  ∧ (∀ e, r = Raise e →
          ∃ k, k < length texts ∧ F (SysWrite p (n + k)) = Some e
               ∧ fs' !! p
                 = Some (File (data +:+ String.concat "" (take k texts)))).
Proof.
  revert n fs data fs' o r.
  induction texts as [|text texts IH]; intros n fs data fs' o r Hp H.
  - simpl in H. unfold ret in H. simplify_eq.
    repeat split; try done. intros _.
    change (String.concat "" []) with "". by rewrite string_app_nil_r.
  - simpl in H. unfold bind at 1, file_write at 1 in H.
    destruct (F (SysWrite p n)) as [e|] eqn:HF.
    + simplify_eq. repeat split; try done.
      intros e' [= <-]. exists 0. rewrite Nat.add_0_r.
      change (String.concat "" (take 0 (text :: texts))) with "".
      rewrite string_app_nil_r. simpl. split; [lia|done].
    + rewrite Hp in H.
      destruct (write_all F p (S n) texts _) as [[fs2 o2] r2] eqn:Hw.
      apply (IH _ _ (data +:+ text)) in Hw
        as (-> & Hr & Hframe & Hok & Hraise);
        [|by rewrite lookup_insert_eq].
      simplify_eq. repeat split; try done.
      * intros q Hq. rewrite Hframe by done. by rewrite lookup_insert_ne.
      * intros Hr'. rewrite (Hok Hr').
        by rewrite string_concat_cons, string_app_assoc.
      * intros e Hr'. destruct (Hraise e Hr') as (k & Hk & HFk & Hl).
        exists (S k). rewrite firstn_cons.
        replace (n + S k) with (S n + k) by lia.
        split; [simpl; lia|]. split; [done|]. rewrite Hl.
        by rewrite string_concat_cons, string_app_assoc.
Qed.

(** Closed forms of the operations, for file systems given in full. *)
Lemma os_makedirs_fresh (F : faults) (parent : path) (leaf : string)
    (fs : filesystem) :
  F (SysMkdir (parent ++ [leaf])) = None →
  isdir fs parent = true →
  fs !! (parent ++ [leaf]) = None →
  os_makedirs F (parent ++ [leaf]) fs
  = (<[parent ++ [leaf] := Dir]> fs, [], Ok tt).
Proof.
  intros HF Hparent Hnew. unfold os_makedirs.
  rewrite length_app. simpl length.
  replace (length parent + 1) with (S (length parent)) by lia.
  cbn [makedirs_upto].
  rewrite take_app_length, (take_ge (parent ++ [leaf]))
    by (rewrite length_app; simpl; lia).
  assert (path_exists fs (parent ++ [leaf]) = false) as Hfresh.
  { unfold path_exists, fs_node. destruct (parent ++ [leaf]) eqn:Hp.
    - by apply app_eq_nil in Hp as [_ ?].
    - by rewrite Hnew. }
  unfold bind, os_path_exists, try_except, os_mkdir.
  rewrite (isdir_exists _ _ Hparent). cbn [ret].
  rewrite HF, Hfresh, dirname_snoc. unfold isdir in Hparent.
  by destruct (fs_node fs parent) as [[|]|].
Qed.

Lemma os_makedirs_existing (F : faults) (parent : path) (leaf : string)
    (fs : filesystem) :
  (∀ e, F (SysMkdir (parent ++ [leaf])) = Some e → is_OSError e = true) →
  path_exists fs parent = true →
  isdir fs (parent ++ [leaf]) = true →
  os_makedirs F (parent ++ [leaf]) fs = (fs, [], Ok tt).
Proof.
  intros HF Hparent Hdir. unfold os_makedirs.
  rewrite length_app. simpl length.
  replace (length parent + 1) with (S (length parent)) by lia.
  cbn [makedirs_upto].
  rewrite take_app_length, (take_ge (parent ++ [leaf]))
    by (rewrite length_app; simpl; lia).
  unfold bind, os_path_exists, try_except, os_mkdir, os_path_isdir.
  rewrite Hparent. cbn [ret].
  destruct (F (SysMkdir (parent ++ [leaf]))) as [e|] eqn:He.
  - rewrite (HF e eq_refl). by rewrite Hdir.
  - rewrite (isdir_exists _ _ Hdir). simpl. by rewrite Hdir.
Qed.

Lemma os_path_getsize_ok (F : faults) (p : path) (fs : filesystem) n :
  F (SysStat p) = None → fs_node fs p = Some n →
  os_path_getsize F p fs = (fs, [], Ok (st_size n)).
Proof. intros HF Hn. unfold os_path_getsize. by rewrite HF, Hn. Qed.

Lemma os_path_getsize_fault (F : faults) (p : path) (fs : filesystem) e :
  F (SysStat p) = Some e → os_path_getsize F p fs = (fs, [], Raise e).
Proof. intros HF. unfold os_path_getsize. by rewrite HF. Qed.

Lemma shutil_copy2_fault (F : faults) (src dst : path) (fs : filesystem) e :
  F (SysCopy src dst) = Some e → shutil_copy2 F src dst fs = (fs, [], Raise e).
Proof. intros HF. unfold shutil_copy2. by rewrite HF. Qed.

(** ** Validation of the paths *)

Lemma run_backup_rejects F fuel now source_dir destination_dir full_backup
    dry_run fs :
  isdir fs source_dir = false ∨ isdir fs destination_dir = false →
  run_backup F fuel now source_dir destination_dir full_backup dry_run fs
  = (fs,
     [if isdir fs source_dir then ErrDestinationInvalid destination_dir
      else ErrSourceInvalid source_dir],
     Ok tt).
Proof.
  intros Hbad. unfold run_backup, bind at 1, os_path_isdir at 1.
  destruct (isdir fs source_dir) eqn:Hs; simpl; [|done].
  destruct Hbad as [?|Hd]; [done|].
  unfold bind at 1, os_path_isdir at 1. by rewrite Hd.
Qed.

(** C9.  When the source path or the destination path is missing or is not
    a directory, [run_backup] prints one diagnostic on the error stream and
    returns: the file system is the one it started from, so that no snapshot
    directory is created, no file is copied and no log is written. *)
Theorem run_backup_invalid_paths F fuel now source_dir destination_dir
    full_backup dry_run fs :
  isdir fs source_dir = false ∨ isdir fs destination_dir = false →
  ∃ diagnostic,
    run_backup F fuel now source_dir destination_dir full_backup dry_run fs
    = (fs, [diagnostic], Ok tt)
    ∧ is_stderr diagnostic = true
    ∧ (diagnostic = ErrSourceInvalid source_dir
       ∨ diagnostic = ErrDestinationInvalid destination_dir).
Proof.
  intros Hbad. eexists. split; [by apply run_backup_rejects|].
  destruct (isdir fs source_dir); auto.
Qed.

(** ** The copy or skip decision *)

Lemma process_file_decided F source_dir backup_path full_backup
    latest_backup_dir dry_run root filename l fs fs1 o1 d l1 :
  check_incremental F full_backup latest_backup_dir (root ++ [filename])
    (relpath (root ++ [filename]) source_dir) (incr_total l) fs
  = (fs1, o1, Ok (d, l1)) →
  process_file F source_dir backup_path full_backup latest_backup_dir dry_run
    root filename l fs
  = match d with
    | SKIP => (fs1, o1, Ok l1)
    | COPY =>
        let '(fs2, o2, r) :=
          copy_file F dry_run (root ++ [filename])
            (backup_path ++ relpath (root ++ [filename]) source_dir)
            (relpath (root ++ [filename]) source_dir) l1 fs1 in
        (fs2, o1 ++ o2, r)
    end.
Proof.
  intros Hc. unfold process_file. rewrite (bind_ok _ _ _ _ _ _ Hc).
  destruct d; [|done]. unfold ret. by rewrite app_nil_r.
Qed.

(** C1.  The decision for one file.  In full mode, or without a baseline,
    the file is copied.  With a baseline: a file absent from it is copied; a
    file present with the same size is skipped; a file present with another
    size is copied; when reading a size raises an I/O error the file is
    copied and the error is printed on the error stream.  A skipped file
    leaves the loop body at once, a copied one goes on to [copy_file]. *)
Theorem check_incremental_decision F full_backup latest_backup_dir
    source_file relative_path l fs :
  (full_backup = true ∨ latest_backup_dir = None →
   check_incremental F full_backup latest_backup_dir source_file
     relative_path l fs = (fs, [], Ok (COPY, l)))
  ∧ (∀ latest,
       full_backup = false → latest_backup_dir = Some latest →
       (path_exists fs (latest ++ relative_path) = false →
        check_incremental F full_backup latest_backup_dir source_file
          relative_path l fs = (fs, [], Ok (COPY, l)))
       ∧ (path_exists fs (latest ++ relative_path) = true →
          ∀ size_source size_latest,
            os_path_getsize F source_file fs = (fs, [], Ok size_source) →
            os_path_getsize F (latest ++ relative_path) fs
            = (fs, [], Ok size_latest) →
            (size_source = size_latest →
             check_incremental F full_backup latest_backup_dir source_file
               relative_path l fs
             = (fs, [PrintSkipping relative_path],
                Ok (SKIP,
                    incr_skipped
                      (log_append (LogSkippedIdentical relative_path) l))))
            ∧ (size_source ≠ size_latest →
               check_incremental F full_backup latest_backup_dir source_file
                 relative_path l fs
               = (fs, [PrintUpdated relative_path],
                  Ok (COPY, log_append (LogUpdated relative_path) l))))
       ∧ (path_exists fs (latest ++ relative_path) = true →
          ∀ e, is_OSError e = true →
            os_path_getsize F source_file fs = (fs, [], Raise e)
            ∨ (∃ size_source,
                  os_path_getsize F source_file fs = (fs, [], Ok size_source)
                  ∧ os_path_getsize F (latest ++ relative_path) fs
                    = (fs, [], Raise e)) →
            check_incremental F full_backup latest_backup_dir source_file
              relative_path l fs
            = (fs, [ErrSizeCheck relative_path e], Ok (COPY, l))
            ∧ is_stderr (ErrSizeCheck relative_path e) = true))
  ∧ (∀ source_dir backup_path dry_run root filename fs1 o1 l1,
       source_file = root ++ [filename] →
       relative_path = relpath source_file source_dir →
       (check_incremental F full_backup latest_backup_dir source_file
          relative_path (incr_total l) fs = (fs1, o1, Ok (SKIP, l1)) →
        process_file F source_dir backup_path full_backup latest_backup_dir
          dry_run root filename l fs = (fs1, o1, Ok l1))
       ∧ (check_incremental F full_backup latest_backup_dir source_file
            relative_path (incr_total l) fs = (fs1, o1, Ok (COPY, l1)) →
          process_file F source_dir backup_path full_backup latest_backup_dir
            dry_run root filename l fs
          = let '(fs2, o2, r) :=
              copy_file F dry_run source_file (backup_path ++ relative_path)
                relative_path l1 fs1 in
            (fs2, o1 ++ o2, r))).
Proof.
  split; [|split].
  - unfold check_incremental. intros [->| ->]; [done|].
    by destruct (negb full_backup).
  - intros latest -> ->. unfold check_incremental.
    change (negb false) with true. cbv iota.
    rewrite (bind_pure (os_path_exists _) _ fs _ eq_refl). split; [|split].
    + by intros ->.
    + intros -> s1 s2 H1 H2. unfold try_except.
      rewrite (bind_pure _ _ _ _ H1), (bind_pure _ _ _ _ H2).
      split.
      * intros <-. by rewrite Nat.eqb_refl.
      * intros Hne. apply Nat.eqb_neq in Hne. by rewrite Hne.
    + intros -> e He Hfail. split; [|done]. unfold try_except.
      destruct Hfail as [H1|(s1 & H1 & H2)].
      * rewrite (bind_raise _ _ _ _ _ _ H1). by rewrite He.
      * rewrite (bind_pure _ _ _ _ H1), (bind_raise _ _ _ _ _ _ H2).
        by rewrite He.
  - intros source_dir backup_path dry_run root filename fs1 o1 l1 -> ->.
    split; intros Hc;
      by rewrite (process_file_decided _ _ _ _ _ _ _ _ _ _ _ _ _ _ Hc).
Qed.

(** ** Discovery of the latest backup *)

Lemma collect_backup_folders_filter destination_dir listing acc fs :
  collect_backup_folders destination_dir listing acc fs
  = (fs, [], Ok (acc ++ backup_folders_of fs destination_dir listing)).
Proof.
  revert acc. unfold backup_folders_of.
  induction listing as [|entry rest IH]; intros acc; simpl.
  - unfold ret. by rewrite app_nil_r.
  - rewrite (bind_pure (os_path_isdir _) _ fs _ eq_refl).
    rewrite filter_cons.
    destruct (isdir fs (destination_dir ++ [entry])) eqn:Hdir.
    + destruct (strptime entry) as [d|] eqn:Hp.
      * rewrite IH, decide_True; [by rewrite <- app_assoc|].
        unfold is_backup_folder. rewrite Hdir, Hp. done.
      * rewrite IH, decide_False; [done|].
        unfold is_backup_folder. rewrite Hdir, Hp. done.
    + rewrite IH, decide_False; [done|].
      unfold is_backup_folder. by rewrite Hdir.
Qed.

Local Instance string_ge_trans : Transitive (flip String.le).
Proof.
  intros x y z Hxy Hyz. unfold flip in *.
  exact (PreOrder_Transitive (R:=String.le) z y x Hyz Hxy).
Qed.

Local Instance string_ge_total : Total (flip String.le).
Proof.
  intros x y. unfold flip.
  destruct (String.le_total x y) as [H|H]; [by right|by left].
Qed.

Lemma sort_reverse_nil : sort_reverse [] = [].
Proof. done. Qed.

(** The first element of the list sorted in reverse is its maximum. *)
Lemma sort_reverse_head l newest :
  newest ∈ l → (∀ x, x ∈ l → String.le x newest) →
  ∃ rest, sort_reverse l = newest :: rest.
Proof.
  intros Hin Hmax. unfold sort_reverse.
  pose proof (merge_sort_Permutation (flip String.le) l) as Hperm.
  pose proof (StronglySorted_merge_sort (flip String.le) l) as Hsorted.
  destruct (merge_sort (flip String.le) l) as [|h t].
  - apply Permutation_nil_l in Hperm. subst l. by apply elem_of_nil in Hin.
  - exists t. f_equal. apply StronglySorted_cons in Hsorted as [Hh _].
    assert (Hhl : h ∈ l) by (rewrite <- Hperm; left).
    rewrite <- Hperm in Hin. apply elem_of_cons in Hin as [->|Hin]; [done|].
    rewrite Forall_forall in Hh. apply (anti_symm String.le).
    + by apply Hmax.
    + apply (Hh newest Hin).
Qed.

Lemma find_latest_backup_listed F destination_dir fs :
  F (SysListdir destination_dir) = None → isdir fs destination_dir = true →
  find_latest_backup F destination_dir fs
  = (fs, [],
     Ok (match sort_reverse
                 (backup_folders_of fs destination_dir
                    (entries fs destination_dir)) with
         | newest :: _ => Some (destination_dir ++ [newest])
         | [] => None
         end)).
Proof.
  intros HF Hd. unfold find_latest_backup, try_except.
  assert (Hl : os_listdir F destination_dir fs
               = (fs, [], Ok (entries fs destination_dir))).
  { unfold os_listdir. rewrite HF. unfold isdir in Hd.
    by destruct (fs_node fs destination_dir) as [[|]|]. }
  rewrite (bind_pure _ _ _ _ Hl).
  by rewrite (bind_pure _ _ _ _
                (collect_backup_folders_filter destination_dir _ [] fs)).
Qed.

(** Whatever happens, the discovery returns, and leaves the file system as
    it was. *)
Lemma find_latest_backup_total F destination_dir fs :
  ∃ o latest,
    find_latest_backup F destination_dir fs = (fs, o, Ok latest)
    ∧ (o = [] ∨ ∃ e, o = [ErrFindLatest e] ∧ latest = None).
Proof.
  unfold find_latest_backup, try_except.
  destruct (os_listdir F destination_dir fs) as [[fs1 o1] r1] eqn:Hl.
  assert (fs1 = fs ∧ o1 = [] ∧ r1 ≠ OutOfFuel) as (-> & -> & Hr1).
  { unfold os_listdir in Hl. destruct (F (SysListdir destination_dir)).
    - by simplify_eq.
    - destruct (fs_node fs destination_dir) as [[|]|]; by simplify_eq. }
  destruct r1 as [listing|e|]; [| |done].
  - rewrite (bind_pure _ _ _ _ Hl).
    rewrite (bind_pure _ _ _ _
               (collect_backup_folders_filter destination_dir _ [] fs)).
    eexists _, _. split; [done|]. by left.
  - rewrite (bind_raise _ _ _ _ _ _ Hl). simpl.
    eexists _, _. split; [done|]. right. by eexists.
Qed.



(** ** The loop body *)

Lemma check_incremental_spec F full_backup latest_backup_dir source_file
    relative_path l fs fs' o r :
  check_incremental F full_backup latest_backup_dir source_file relative_path
    l fs = (fs', o, r) →
  fs' = fs
  ∧ ((r = Ok (COPY, l) ∧ o = [])
     ∨ (∃ latest,
          full_backup = false ∧ latest_backup_dir = Some latest
          ∧ path_exists fs (latest ++ relative_path) = true
          ∧ ((r = Ok (SKIP,
                      incr_skipped
                        (log_append (LogSkippedIdentical relative_path) l))
              ∧ o = [PrintSkipping relative_path])
             ∨ (r = Ok (COPY, log_append (LogUpdated relative_path) l)
                ∧ o = [PrintUpdated relative_path])
             ∨ (∃ e, is_OSError e = true ∧ r = Ok (COPY, l)
                     ∧ o = [ErrSizeCheck relative_path e])
             ∨ (∃ e, is_OSError e = false ∧ r = Raise e ∧ o = [])))).
Proof.
  unfold check_incremental. intros H.
  destruct full_backup; simpl in H; [unfold ret in H; simplify_eq; auto|].
  destruct latest_backup_dir as [latest|];
    [|unfold ret in H; simplify_eq; auto].
  rewrite (bind_pure (os_path_exists _) _ fs _ eq_refl) in H.
  destruct (path_exists fs (latest ++ relative_path)) eqn:Hex;
    [|unfold ret in H; simplify_eq; auto].
  unfold try_except in H.
  destruct (os_path_getsize F source_file fs) as [[fs1 o1] r1] eqn:H1.
  apply os_path_getsize_spec in H1 as Hs1. destruct Hs1 as (-> & -> & Hr1).
  destruct r1 as [s1|e|]; [| |done].
  - rewrite (bind_pure _ _ _ _ H1) in H.
    destruct (os_path_getsize F (latest ++ relative_path) fs)
      as [[fs2 o2] r2] eqn:H2.
    apply os_path_getsize_spec in H2 as Hs2. destruct Hs2 as (-> & -> & Hr2).
    destruct r2 as [s2|e|]; [| |done].
    + rewrite (bind_pure _ _ _ _ H2) in H.
      destruct (s1 =? s2); unfold bind, print, ret in H; simpl in H;
        simplify_eq; (split; [done|]); right; exists latest;
        repeat split; auto.
    + rewrite (bind_raise _ _ _ _ _ _ H2) in H.
      destruct (is_OSError e) eqn:He; unfold bind, print, ret in H;
        simpl in H; simplify_eq; (split; [done|]); right; exists latest;
        repeat split; eauto 10.
  - rewrite (bind_raise _ _ _ _ _ _ H1) in H.
    destruct (is_OSError e) eqn:He; unfold bind, print, ret in H;
      simpl in H; simplify_eq; (split; [done|]); right; exists latest;
      repeat split; eauto 10.
Qed.

Lemma copy_file_spec F dry_run source_file destination_file relative_path l
    fs fs' o r :
  copy_file F dry_run source_file destination_file relative_path l fs
  = (fs', o, r) →
  ∃ fs1 r1,
    os_makedirs F (dirname destination_file) fs = (fs1, [], r1)
    ∧ ((∃ e, r1 = Raise e ∧ fs' = fs1 ∧ o = [] ∧ r = Raise e)
       ∨ (r1 = Ok tt ∧ dry_run = true ∧ fs' = fs1
          ∧ o = [PrintWouldCopy relative_path]
          ∧ r = Ok (incr_to_copy (log_append (LogWouldCopy relative_path) l)))
       ∨ (r1 = Ok tt ∧ dry_run = false
          ∧ shutil_copy2 F source_file destination_file fs1 = (fs', [], Ok tt)
          ∧ o = [PrintCopied relative_path]
          ∧ r = Ok (incr_to_copy (log_append (LogCopied relative_path) l)))
       ∨ (r1 = Ok tt ∧ dry_run = false ∧ fs' = fs1
          ∧ ∃ e,
              shutil_copy2 F source_file destination_file fs1
              = (fs1, [], Raise e)
              ∧ o = [(copy_failure_report e relative_path).1]
              ∧ r = Ok (incr_skipped
                          (log_append (copy_failure_report e relative_path).2
                             l)))).
Proof.
  unfold copy_file. intros H.
  destruct (os_makedirs F (dirname destination_file) fs)
    as [[fs1 o1] r1] eqn:Hm.
  apply os_makedirs_spec in Hm as Hs. destruct Hs as (-> & Hr1 & _ & _).
  exists fs1, r1. split; [done|].
  destruct r1 as [[]|e|]; [| |done].
  - rewrite (bind_ok _ _ _ _ _ _ Hm) in H.
    destruct dry_run; simpl in H.
    + unfold bind, print, ret in H. simpl in H. simplify_eq. auto 10.
    + unfold try_except in H.
      destruct (shutil_copy2 F source_file destination_file fs1)
        as [[fs2 o2] r2] eqn:Hc.
      apply shutil_copy2_spec in Hc as Hs.
      destruct Hs as (-> & Hr2 & [(e & -> & ->)|(data & -> & _)]).
      * rewrite (bind_raise _ _ _ _ _ _ Hc) in H. simpl in H.
        right; right; right. repeat split; try done.
        -- unfold copy_failure_report in *.
           destruct (is_SameFileError e), (is_PermissionError e);
             unfold bind, print, ret in H; simpl in H; by simplify_eq.
        -- exists e. unfold copy_failure_report in *.
           destruct (is_SameFileError e), (is_PermissionError e);
             unfold bind, print, ret in H; simpl in H; by simplify_eq.
      * rewrite (bind_ok _ _ _ _ _ _ Hc) in H.
        unfold bind, print, ret in H. simpl in H. simplify_eq.
        right; right; left. auto.
  - rewrite (bind_raise _ _ _ _ _ _ Hm) in H. simplify_eq. left. eauto.
Qed.

Lemma process_file_inv F source_dir backup_path full_backup latest_backup_dir
    dry_run root filename l fs fs' o r :
  process_file F source_dir backup_path full_backup latest_backup_dir dry_run
    root filename l fs = (fs', o, r) →
  ∃ o1 r1,
    check_incremental F full_backup latest_backup_dir (root ++ [filename])
      (relpath (root ++ [filename]) source_dir) (incr_total l) fs
    = (fs, o1, r1)
    ∧ match r1 with
      | Ok (SKIP, l1) => fs' = fs ∧ o = o1 ∧ r = Ok l1
      | Ok (COPY, l1) =>
          ∃ o2,
            copy_file F dry_run (root ++ [filename])
              (backup_path ++ relpath (root ++ [filename]) source_dir)
              (relpath (root ++ [filename]) source_dir) l1 fs = (fs', o2, r)
            ∧ o = o1 ++ o2
      | Raise e => fs' = fs ∧ o = o1 ∧ r = Raise e
      | OutOfFuel => False
      end.
Proof.
  intros H.
  destruct (check_incremental F full_backup latest_backup_dir
              (root ++ [filename]) (relpath (root ++ [filename]) source_dir)
              (incr_total l) fs) as [[fs1 o1] r1] eqn:Hc.
  apply check_incremental_spec in Hc as Hs. destruct Hs as [-> Hcases].
  exists o1, r1. split; [done|].
  destruct r1 as [[[] l1]|e|].
  - rewrite (process_file_decided _ _ _ _ _ _ _ _ _ _ _ _ _ _ Hc) in H.
    by simplify_eq.
  - rewrite (process_file_decided _ _ _ _ _ _ _ _ _ _ _ _ _ _ Hc) in H.
    destruct (copy_file _ _ _ _ _ _ _) as [[fs2 o2] r2]. simplify_eq.
    by exists o2.
  - unfold process_file in H. rewrite (bind_raise _ _ _ _ _ _ Hc) in H.
    by simplify_eq.
  - destruct Hcases as [[? _]|(? & _ & _ & _ & [[? _]|[[? _]|[(? & _ & ? & _)|(? & _ & ? & _)]]])];
      done.
Qed.

(** ** Loop invariants *)

(** The loops keep what their body keeps: an invariant [I] of the work
    that remains, the file system and the local variables; a relation [J]
    between the file system before and after; a property [E] of the events
    printed. *)
Lemma for_files_invariant_gen (I : list string → filesystem → locals → Prop)
    (J : relation filesystem) (E : event → Prop)
    (body : string → locals → M locals) :
  Reflexive J → Transitive J →
  (∀ f rest l fs fs' o r,
     I (f :: rest) fs l → body f l fs = (fs', o, r) →
     Forall E o ∧ J fs fs' ∧ ∀ l', r = Ok l' → I rest fs' l') →
  ∀ files l fs fs' o r,
    I files fs l → for_files body files l fs = (fs', o, r) →
    Forall E o ∧ J fs fs' ∧ ∀ l', r = Ok l' → I [] fs' l'.
Proof.
  intros HJr HJt Hbody.
  induction files as [|f files IH]; intros l fs fs' o r HI H.
  - simpl in H. unfold ret in H. simplify_eq. split; [done|].
    split; [done|]. by intros l' [= <-].
  - simpl in H. apply bind_inv in H
      as [(fs1 & o1 & l1 & o2 & Hb & Hrest & ->)
         | [(e & Hb & ->) | [Hb ->]]].
    + destruct (Hbody _ _ _ _ _ _ _ HI Hb) as (Ho1 & HJ1 & HI1).
      destruct (IH _ _ _ _ _ (HI1 l1 eq_refl) Hrest) as (Ho2 & HJ2 & HI2).
      split; [by apply Forall_app|]. split; [by etrans|done].
    + destruct (Hbody _ _ _ _ _ _ _ HI Hb) as (Ho & HJ1 & _).
      split; [done|]. split; [done|]. by intros l' [=].
    + destruct (Hbody _ _ _ _ _ _ _ HI Hb) as (Ho & HJ1 & _).
      split; [done|]. split; [done|]. by intros l' [=].
Qed.

Lemma for_files_invariant (I : filesystem → locals → Prop) (E : event → Prop)
    (body : string → locals → M locals) files :
  (∀ f l fs fs' o r,
     I fs l → body f l fs = (fs', o, r) →
     Forall E o ∧ ∀ l', r = Ok l' → I fs' l') →
  ∀ l fs fs' o r,
    I fs l → for_files body files l fs = (fs', o, r) →
    Forall E o ∧ ∀ l', r = Ok l' → I fs' l'.
Proof.
  intros Hbody l fs fs' o r HI H.
  apply (for_files_invariant_gen (λ _, I) (λ _ _, True) E) in H
    as (? & _ & ?); try done.
  intros f rest l0 fs0 fs0' o0 r0 HI0 Hb.
  destruct (Hbody _ _ _ _ _ _ HI0 Hb). done.
Qed.

Lemma os_scandir_spec F top fs fs' o r :
  os_scandir F top fs = (fs', o, r) →
  fs' = fs ∧ o = [] ∧ r ≠ OutOfFuel
  ∧ ∀ es, r = Ok es →
          es = map (λ name, (name, isdir fs (top ++ [name]))) (entries fs top).
Proof.
  unfold os_scandir. intros H.
  destruct (F (SysScandir top)); [by simplify_eq|].
  destruct (fs_node fs top) as [[|]|]; simplify_eq; repeat split; try done.
  by intros es [= <-].
Qed.

Lemma scan_step_spec F top fs fs' o r :
  try_except (es <- os_scandir F top ;; ret (Some es)) is_OSError
    (λ _, ret None) fs = (fs', o, r) →
  fs' = fs ∧ o = []
  ∧ (r = Ok None
     ∨ r = Ok (Some (map (λ name, (name, isdir fs (top ++ [name])))
                       (entries fs top)))
     ∨ ∃ e, r = Raise e ∧ is_OSError e = false).
Proof.
  unfold try_except. intros H.
  destruct (os_scandir F top fs) as [[fs1 o1] r1] eqn:Hs.
  apply os_scandir_spec in Hs as Hs'. destruct Hs' as (-> & -> & Hr & Hes).
  destruct r1 as [es|e|]; [| |done].
  - rewrite (bind_pure _ _ _ _ Hs) in H. unfold ret in H. simplify_eq.
    rewrite (Hes es eq_refl). split; [done|]. split; [done|]. right. by left.
  - rewrite (bind_raise _ _ _ _ _ _ Hs) in H.
    destruct (is_OSError e) eqn:He; unfold ret in H; simplify_eq;
      (split; [done|]); (split; [done|]).
    + by left.
    + right; right. by exists e.
Qed.

Lemma os_walk_invariant_gen (I : list path → filesystem → locals → Prop)
    (J : relation filesystem) (E : event → Prop) F
    (body : path → list string → locals → M locals) :
  Reflexive J → Transitive J →
  (∀ top stack l fs, I (top :: stack) fs l → I stack fs l) →
  (∀ top stack l fs fs' o r,
     I (top :: stack) fs l →
     body top (scan_nondirs (scan fs top)) l fs = (fs', o, r) →
     Forall E o ∧ J fs fs'
     ∧ ∀ l', r = Ok l' →
         I (map (λ d, top ++ [d]) (scan_dirs (scan fs top)) ++ stack) fs' l') →
  ∀ fuel stack l fs fs' o r,
    I stack fs l → os_walk F fuel stack body l fs = (fs', o, r) →
    Forall E o ∧ J fs fs' ∧ ∀ l', r = Ok l' → I [] fs' l'.
Proof.
  intros HJr HJt Hskip Hbody.
  induction fuel as [|fuel IH]; intros stack l fs fs' o r HI H.
  - destruct stack; simpl in H; unfold ret in H; simplify_eq.
    + split; [done|]. split; [done|]. by intros l' [= <-].
    + split; [done|]. split; [done|]. by intros l' [=].
  - destruct stack as [|top stack]; simpl in H.
    { unfold ret in H. simplify_eq. split; [done|]. split; [done|].
      by intros l' [= <-]. }
    apply bind_inv in H
      as [(fs1 & o1 & scanned & o2 & Hs & Hrest & ->)
         | [(e & Hs & ->) | [Hs ->]]];
      apply scan_step_spec in Hs as (-> & -> & Hsr).
    + destruct scanned as [es|].
      * assert (es = scan fs top) as ->.
        { destruct Hsr as [?|[?|(? & ? & _)]]; by simplify_eq. }
        apply bind_inv in Hrest
          as [(fs2 & o3 & l2 & o4 & Hb & Hw & ->)
             | [(e & Hb & ->) | [Hb ->]]].
        -- destruct (Hbody _ _ _ _ _ _ _ HI Hb) as (Ho3 & HJ1 & HI2).
           destruct (IH _ _ _ _ _ _ (HI2 l2 eq_refl) Hw) as (Ho4 & HJ2 & HI3).
           split; [simpl; by apply Forall_app|]. split; [by etrans|done].
        -- destruct (Hbody _ _ _ _ _ _ _ HI Hb) as (Ho3 & HJ1 & _).
           split; [done|]. split; [done|]. by intros l' [=].
        -- destruct (Hbody _ _ _ _ _ _ _ HI Hb) as (Ho3 & HJ1 & _).
           split; [done|]. split; [done|]. by intros l' [=].
      * by apply (IH _ _ _ _ _ _ (Hskip _ _ _ _ HI) Hrest).
    + split; [done|]. split; [done|]. by intros l' [=].
    + split; [done|]. split; [done|]. by intros l' [=].
Qed.

Lemma os_walk_invariant (I : filesystem → locals → Prop) (E : event → Prop)
    F (body : path → list string → locals → M locals) :
  (∀ top files l fs fs' o r,
     I fs l → body top files l fs = (fs', o, r) →
     Forall E o ∧ ∀ l', r = Ok l' → I fs' l') →
  ∀ fuel stack l fs fs' o r,
    I fs l → os_walk F fuel stack body l fs = (fs', o, r) →
    Forall E o ∧ ∀ l', r = Ok l' → I fs' l'.
Proof.
  intros Hbody fuel stack l fs fs' o r HI H.
  apply (os_walk_invariant_gen (λ _, I) (λ _ _, True) E) in H
    as (? & _ & ?); try done.
  intros top stack0 l0 fs0 fs0' o0 r0 HI0 Hb.
  destruct (Hbody _ _ _ _ _ _ _ HI0 Hb). done.
Qed.

(** ** The phases of a run *)

Lemma write_log_spec F log_file_path timestamp source_dir destination_dir
    full_backup dry_run messages fs fs' o r :
  write_log F log_file_path timestamp source_dir destination_dir full_backup
    dry_run messages fs = (fs', o, r) →
  let texts :=
    log_header timestamp source_dir destination_dir full_backup dry_run
      ++ log_lines messages in
  r = Ok tt
  ∧ (∀ q, q ≠ log_file_path → fs' !! q = fs !! q)
  ∧ ((o = [PrintLogSaved log_file_path]
      ∧ fs' !! log_file_path = Some (File (String.concat "" texts)))
     ∨ (∃ e, o = [ErrLogWrite e]
             ∧ (fs' = fs
                ∨ ∃ k, k < length texts
                       ∧ fs' !! log_file_path
                         = Some (File (String.concat "" (take k texts)))))).
Proof.
  intros H texts. unfold write_log in H. fold texts in H.
  apply try_except_inv in H
    as [[H Hc] | (fsx & ox & e & oy & H & _ & Hh & ->)].
  - apply bind_inv in H
      as [(fs1 & o1 & [] & o2 & Hopen & H & ->)
         | [(e & _ & ->) | [Hopen ->]]];
      [|by specialize (Hc e eq_refl)
       |by apply open_w_spec in Hopen as (_ & ? & _)].
    apply open_w_spec in Hopen as (-> & _ & [(e & ? & _)|(_ & ->)]); [done|].
    apply bind_inv in H
      as [(fs2 & o3 & [] & o4 & Hw & H & ->)
         | [(e & _ & ->) | [Hw ->]]];
      [|by specialize (Hc e eq_refl)|].
    + apply (write_all_spec _ _ _ _ _ "") in Hw
        as (-> & _ & Hframe & Hok & _); [|by rewrite lookup_insert_eq].
      unfold print in H. simplify_eq. split; [done|]. split.
      * intros q Hq. rewrite Hframe by done. by rewrite lookup_insert_ne.
      * left. split; [done|]. by rewrite (Hok eq_refl).
    + by apply (write_all_spec _ _ _ _ _ "") in Hw as (_ & ? & _);
        [|rewrite lookup_insert_eq].
  - unfold print in Hh. simplify_eq.
    apply bind_inv in H
      as [(fs2 & o1 & [] & o2 & Hopen & H & ->)
         | [(e' & Hopen & [= <-]) | [_ ?]]]; [| |done].
    + apply open_w_spec in Hopen as (-> & _ & [(e' & ? & _)|(_ & ->)]);
        [done|].
      apply bind_inv in H
        as [(fs3 & o3 & [] & o4 & Hw & H & ->)
           | [(e' & Hw & [= <-]) | [_ ?]]]; [by unfold print in H| |done].
      apply (write_all_spec _ _ _ _ _ "") in Hw
        as (-> & _ & Hframe & _ & Hraise); [|by rewrite lookup_insert_eq].
      destruct (Hraise e eq_refl) as (k & Hk & _ & Hl).
      split; [done|]. split.
      * intros q Hq. rewrite Hframe by done. by rewrite lookup_insert_ne.
      * right. exists e. split; [done|]. right. exists k. by split.
    + apply open_w_spec in Hopen as (-> & _ & [(e' & [= <-] & ->)|(? & _)]);
        [|done].
      split; [done|]. split; [done|]. right. exists e. split; [done|]. by left.
Qed.

Lemma resolve_baseline_spec F destination_dir full_backup l fs fs' o r :
  resolve_baseline F destination_dir full_backup l fs = (fs', o, r) →
  fs' = fs
  ∧ ((full_backup = true ∧ o = [] ∧ r = Ok (None, l))
     ∨ (full_backup = false
        ∧ ∃ o_find latest,
            find_latest_backup F destination_dir fs = (fs, o_find, Ok latest)
            ∧ (o_find = [] ∨ ∃ e, o_find = [ErrFindLatest e] ∧ latest = None)
            ∧ match latest with
              | Some p =>
                  o = o_find ++ [PrintComparing p]
                  ∧ r = Ok (Some p, log_append (LogIncremental p) l)
              | None =>
                  o = o_find ++ [PrintNoPrevious]
                  ∧ r = Ok (None, log_append LogNoPrevious l)
              end)).
Proof.
  unfold resolve_baseline. intros H.
  destruct full_backup; simpl in H.
  { unfold ret in H. simplify_eq. auto. }
  destruct (find_latest_backup_total F destination_dir fs)
    as (o_find & latest & Hf & Ho).
  rewrite (bind_ok _ _ _ _ _ _ Hf) in H.
  destruct latest as [p|]; unfold bind, print, ret in H; simpl in H;
    simplify_eq; (split; [done|]); right; (split; [done|]);
    eexists _, _; (split; [done|]); (split; [done|]); done.
Qed.

(** A run that passes the validation of its paths: the snapshot directory
    is created, the baseline resolved, the source tree processed, the log
    written and the summary printed; the run stops where the snapshot
    directory cannot be created or an exception leaves the loop. *)
Lemma run_backup_inv F fuel now source_dir destination_dir full_backup dry_run
    fs fs' out r :
  isdir fs source_dir = true → isdir fs destination_dir = true →
  run_backup F fuel now source_dir destination_dir full_backup dry_run fs
  = (fs', out, r) →
  let backup_path := destination_dir ++ [strftime now] in
  ∃ fs1 r1,
    os_makedirs F backup_path fs = (fs1, [], r1)
    ∧ match r1 with
      | Raise e =>
          fs' = fs1
          ∧ ((is_OSError e = true ∧ r = Ok tt
              ∧ out = banner dry_run
                      ++ [PrintStarting full_backup source_dir;
                          ErrCreateDestination backup_path e])
             ∨ (is_OSError e = false ∧ r = Raise e
                ∧ out = banner dry_run ++ [PrintStarting full_backup source_dir]))
      | OutOfFuel => False
      | Ok _ =>
          ∃ o_b latest l0 fs2 o_t r_t,
            resolve_baseline F destination_dir full_backup
              (Locals [LogCreated backup_path] 0 0 0) fs1
            = (fs1, o_b, Ok (latest, l0))
            ∧ traverse F fuel source_dir backup_path full_backup latest
                dry_run l0 fs1 = (fs2, o_t, r_t)
            ∧ match r_t with
              | Ok l =>
                  ∃ o_w,
                    write_log F (backup_path ++ ["backup_log.txt"])
                      (strftime now) source_dir destination_dir full_backup
                      dry_run (log_messages l) fs2 = (fs', o_w, Ok tt)
                    ∧ r = Ok tt
                    ∧ out = banner dry_run
                            ++ [PrintStarting full_backup source_dir]
                            ++ o_b ++ o_t ++ o_w
                            ++ [PrintSummary (total_files l) (files_to_copy l)
                                  (files_skipped l) dry_run]
              | Raise e =>
                  fs' = fs2 ∧ r = Raise e
                  ∧ out = banner dry_run
                          ++ [PrintStarting full_backup source_dir]
                          ++ o_b ++ o_t
              | OutOfFuel =>
                  fs' = fs2 ∧ r = OutOfFuel
                  ∧ out = banner dry_run
                          ++ [PrintStarting full_backup source_dir]
                          ++ o_b ++ o_t
              end
      end.
Proof.
  intros Hs Hd H backup_path. unfold run_backup in H.
  rewrite (bind_pure (os_path_isdir _) _ fs _ eq_refl), Hs in H. simpl in H.
  rewrite (bind_pure (os_path_isdir _) _ fs _ eq_refl), Hd in H. simpl in H.
  fold backup_path in H.
  assert (Hb : (if dry_run then print PrintDryRunBanner else ret tt) fs
               = (fs, banner dry_run, Ok tt)) by by destruct dry_run.
  rewrite (bind_ok _ _ _ _ _ _ Hb) in H.
  rewrite (bind_ok (print _) _ fs fs [_] tt eq_refl) in H.
  destruct (os_makedirs F backup_path fs) as [[fs1 o1] r1] eqn:Hm.
  apply os_makedirs_spec in Hm as Hms. destruct Hms as (-> & Hr1 & _ & _).
  exists fs1, r1. split; [done|].
  unfold try_except at 1 in H. unfold bind at 1 in H.
  destruct r1 as [[]|e|]; [| |done].
  - rewrite (bind_ok _ _ _ _ _ _ Hm) in H. unfold ret at 1 in H.
    simpl in H.
    destruct (resolve_baseline _ _ _ _ fs1) as [[fs1' o_b] r_b] eqn:Hr.
    apply resolve_baseline_spec in Hr as Hrs. destruct Hrs as [-> Hrs].
    assert (∃ latest l0, r_b = Ok (latest, l0)) as (latest & l0 & ->).
    { destruct Hrs as [(_ & _ & ->)|(_ & o_f & [p|] & _ & _ & _ & ->)]; eauto. }
    exists o_b, latest, l0.
    rewrite (bind_ok _ _ _ _ _ _ Hr) in H. simpl in H.
    destruct (traverse F fuel source_dir backup_path full_backup latest
                dry_run l0 fs1) as [[fs2 o_t] r_t] eqn:Ht.
    exists fs2, o_t, r_t. split; [done|]. split; [done|].
    destruct r_t as [l|e|].
    + rewrite (bind_ok _ _ _ _ _ _ Ht) in H.
      destruct (write_log _ _ _ _ _ _ _ _ fs2) as [[fs3 o_w] r_w] eqn:Hw.
      apply write_log_spec in Hw as Hws. destruct Hws as (-> & _).
      rewrite (bind_ok _ _ _ _ _ _ Hw) in H. unfold print in H.
      simplify_eq. exists o_w. split; [done|]. split; [done|].
      by rewrite <- ?app_assoc, ?app_nil_r.
    + rewrite (bind_raise _ _ _ _ _ _ Ht) in H. simplify_eq.
      split; [done|]. split; [done|]. by rewrite <- ?app_assoc, ?app_nil_r.
    + unfold bind at 1 in H. rewrite Ht in H. simplify_eq.
      split; [done|]. split; [done|]. by rewrite <- ?app_assoc, ?app_nil_r.
  - rewrite (bind_raise _ _ _ _ _ _ Hm) in H. split.
    + destruct (is_OSError e); unfold bind, print, ret in H; simpl in H;
        by simplify_eq.
    + destruct (is_OSError e) eqn:He; unfold bind, print, ret in H;
        simpl in H; simplify_eq; [left|right]; by rewrite ?app_nil_r.
Qed.

(** ** The counters *)

Lemma process_file_balanced F source_dir backup_path full_backup
    latest_backup_dir dry_run root filename l fs fs' o r :
  balanced l →
  process_file F source_dir backup_path full_backup latest_backup_dir dry_run
    root filename l fs = (fs', o, r) →
  Forall (λ ev, is_file_event ev = true) o ∧ ∀ l', r = Ok l' → balanced l'.
Proof.
  unfold balanced. intros Hl H.
  apply process_file_inv in H as (o1 & r1 & Hc & H).
  apply check_incremental_spec in Hc as [_ Hc].
  assert (Hcopy : ∀ l1 o2,
    total_files l1 = files_to_copy l1 + files_skipped l1 + 1 →
    copy_file F dry_run (root ++ [filename])
      (backup_path ++ relpath (root ++ [filename]) source_dir)
      (relpath (root ++ [filename]) source_dir) l1 fs = (fs', o2, r) →
    Forall (λ ev, is_file_event ev = true) o2
    ∧ ∀ l', r = Ok l' →
            total_files l' = files_to_copy l' + files_skipped l').
  { intros l1 o2 Hl1 Hcp.
    apply copy_file_spec in Hcp
      as (fs1 & r1' & _ & [(e & _ & _ & -> & ->)
                          |[(_ & _ & _ & -> & ->)
                           |[(_ & _ & _ & -> & ->)
                            |(_ & _ & _ & e & _ & -> & ->)]]]).
    - split; [done|]. by intros l' [=].
    - split; [by repeat constructor|]. intros l' [= <-]. simpl. lia.
    - split; [by repeat constructor|]. intros l' [= <-]. simpl. lia.
    - split.
      + unfold copy_failure_report.
        destruct (is_SameFileError e), (is_PermissionError e);
          by repeat constructor.
      + intros l' [= <-]. simpl. lia. }
  destruct Hc as [[-> ->]
                 |(latest & _ & _ & _ & [[-> ->]|[[-> ->]
                    |[(e & _ & -> & ->)|(e & _ & -> & ->)]]])].
  - destruct H as (o2 & Hcp & ->). apply Hcopy in Hcp; [done|]. simpl. lia.
  - destruct H as (-> & -> & ->). split; [by repeat constructor|].
    intros l' [= <-]. simpl. lia.
  - destruct H as (o2 & Hcp & ->). apply Hcopy in Hcp as [? ?]; [|simpl; lia].
    split; [|done]. apply Forall_app. split; [by repeat constructor|done].
  - destruct H as (o2 & Hcp & ->). apply Hcopy in Hcp as [? ?]; [|simpl; lia].
    split; [|done]. apply Forall_app. split; [by repeat constructor|done].
  - destruct H as (-> & -> & ->). split; [done|]. by intros l' [=].
Qed.

Lemma traverse_balanced F fuel source_dir backup_path full_backup
    latest_backup_dir dry_run l fs fs' o r :
  balanced l →
  traverse F fuel source_dir backup_path full_backup latest_backup_dir dry_run
    l fs = (fs', o, r) →
  Forall (λ ev, is_file_event ev = true) o ∧ ∀ l', r = Ok l' → balanced l'.
Proof.
  intros Hl H. unfold traverse in H.
  apply (os_walk_invariant (λ _ l, balanced l)
           (λ ev, is_file_event ev = true)) in H; [done| |done].
  intros top files l0 fs0 fs0' o0 r0 Hl0 Hb.
  apply (for_files_invariant (λ _ l, balanced l)
           (λ ev, is_file_event ev = true)) in Hb; [done| |done].
  intros f l1 fs1 fs1' o1 r1 Hl1 Hp.
  by apply process_file_balanced in Hp.
Qed.

Lemma resolve_baseline_events F destination_dir full_backup l fs fs' o r :
  resolve_baseline F destination_dir full_backup l fs = (fs', o, r) →
  Forall (λ ev, ∀ t c s d, ev ≠ PrintSummary t c s d) o
  ∧ ∀ latest l', r = Ok (latest, l') →
      total_files l' = total_files l ∧ files_to_copy l' = files_to_copy l
      ∧ files_skipped l' = files_skipped l.
Proof.
  intros H. apply resolve_baseline_spec in H
    as [_ [(_ & -> & ->)|(_ & o_f & latest & _ & Ho & H)]].
  - split; [done|]. by intros ?? [= _ <-].
  - destruct latest as [p|]; destruct H as [-> ->];
      (split; [|by intros ?? [= _ <-]]);
      (apply Forall_app; split; [|by repeat constructor]);
      destruct Ho as [->|(e & -> & _)]; by repeat constructor.
Qed.

(** C2.  In every run that prints its summary the counters add up: the
    number of files met is the number of files copied, or that would be
    copied, plus the number of files skipped. *)
Theorem summary_counts_consistent F fuel now source_dir destination_dir
    full_backup dry_run fs fs' out r total copied skipped dry :
  run_backup F fuel now source_dir destination_dir full_backup dry_run fs
  = (fs', out, r) →
  PrintSummary total copied skipped dry ∈ out →
  total = copied + skipped.
Proof.
  intros H Hin.
  destruct (isdir fs source_dir) eqn:Hs;
    [destruct (isdir fs destination_dir) eqn:Hd|].
  - apply run_backup_inv in H as (fs1 & r1 & _ & H); [|done..].
    assert (Hbanner : PrintSummary total copied skipped dry ∉ banner dry_run).
    { destruct dry_run; simpl; rewrite ?elem_of_cons, ?elem_of_nil;
        naive_solver. }
    destruct r1 as [[]|e|]; [| |done].
    + destruct H as (o_b & latest & l0 & fs2 & o_t & r_t & Hr & Ht & H).
      apply resolve_baseline_events in Hr as [Ho_b Hl0].
      destruct (Hl0 latest l0 eq_refl) as (Ht0 & Hc0 & Hs0).
      simpl in Ht0, Hc0, Hs0.
      apply traverse_balanced in Ht as [Ho_t Hbal];
        [|unfold balanced; lia].
      rewrite Forall_forall in Ho_b. rewrite Forall_forall in Ho_t.
      assert (Hpre : PrintSummary total copied skipped dry
                     ∉ banner dry_run
                       ++ [PrintStarting full_backup source_dir] ++ o_b ++ o_t).
      { rewrite !elem_of_app, list_elem_of_singleton.
        intros [Hi|[Hi|[Hi|Hi]]]; [done|done| |].
        - by apply (Ho_b _ Hi total copied skipped dry).
        - by specialize (Ho_t _ Hi). }
      destruct r_t as [l|e|].
      * destruct H as (o_w & Hw & -> & ->).
        apply write_log_spec in Hw as (_ & _ & Ho_w).
        rewrite !app_assoc in Hin.
        apply elem_of_app in Hin as [Hin|Hin].
        -- apply elem_of_app in Hin as [Hin|Hin].
           ++ by rewrite <- !app_assoc in Hin.
           ++ destruct Ho_w as [[-> _]|(e & -> & _)];
                by apply list_elem_of_singleton in Hin.
        -- apply list_elem_of_singleton in Hin. simplify_eq.
           by apply (Hbal l).
      * by destruct H as (_ & _ & ->).
      * by destruct H as (_ & _ & ->).
    + destruct H as [_ [(_ & _ & ->)|(_ & _ & ->)]];
        rewrite !elem_of_app, ?elem_of_cons, ?elem_of_nil in Hin;
        naive_solver.
  - rewrite run_backup_rejects in H by (by right). injection H as <- <- <-.
    apply list_elem_of_singleton in Hin. rewrite Hs in Hin. done.
  - rewrite run_backup_rejects in H by (by left). injection H as <- <- <-.
    apply list_elem_of_singleton in Hin. rewrite Hs in Hin. done.
Qed.

(** ** Runs that differ in their local variables only *)

Lemma bind_map_result {A A' B B'} (g : A → A') (h : B → B')
    (m : M A) (m' : M A') (k : A → M B) (k' : A' → M B') fs :
  m' fs = map_result g (m fs) →
  (∀ a fs1, k' (g a) fs1 = map_result h (k a fs1)) →
  bind m' k' fs = map_result h (bind m k fs).
Proof.
  intros Hm Hk. unfold bind. rewrite Hm.
  destruct (m fs) as [[fs1 o1] [a|e|]]; simpl; [|done..].
  rewrite Hk. by destruct (k a fs1) as [[fs2 o2] [b|e|]].
Qed.

(** The loops carry a change [g] of the local variables that the body
    carries. *)
Lemma for_files_map (g : locals → locals)
    (body body' : string → locals → M locals) files :
  (∀ f l fs, body' f (g l) fs = map_result g (body f l fs)) →
  ∀ l fs, for_files body' files (g l) fs = map_result g (for_files body files l fs).
Proof.
  intros Hbody. induction files as [|f files IH]; intros l fs; simpl.
  - done.
  - apply (bind_map_result g g); [apply Hbody|]. intros; apply IH.
Qed.

Lemma os_walk_map (g : locals → locals) F
    (body body' : path → list string → locals → M locals) :
  (∀ top files l fs, body' top files (g l) fs = map_result g (body top files l fs)) →
  ∀ fuel stack l fs,
    os_walk F fuel stack body' (g l) fs
    = map_result g (os_walk F fuel stack body l fs).
Proof.
  intros Hbody. induction fuel as [|fuel IH]; intros stack l fs.
  - by destruct stack.
  - destruct stack as [|top stack]; simpl; [done|].
    apply (bind_map_result id g).
    + by destruct (try_except _ _ _ fs) as [[fs1 o1] [a|e|]].
    + intros [es|] fs1; simpl; [|apply IH].
      apply (bind_map_result g g); [apply Hbody|]. intros; apply IH.
Qed.

Lemma check_incremental_log_prefix pre F full_backup latest_backup_dir
    source_file relative_path l fs :
  check_incremental F full_backup latest_backup_dir source_file relative_path
    (with_log_prefix pre l) fs
  = map_result (λ dl, (dl.1, with_log_prefix pre dl.2))
      (check_incremental F full_backup latest_backup_dir source_file
         relative_path l fs).
Proof.
  unfold check_incremental.
  destruct (negb full_backup); [|done].
  destruct latest_backup_dir as [latest|]; [|done].
  rewrite !(bind_pure (os_path_exists _) _ fs _ eq_refl).
  destruct (path_exists fs (latest ++ relative_path)); [|done].
  unfold try_except, bind.
  destruct (os_path_getsize F source_file fs) as [[fs1 o1] [s1|e|]];
    [|destruct (is_OSError e); by cbn|done].
  destruct (os_path_getsize F (latest ++ relative_path) fs1)
    as [[fs2 o2] [s2|e|]]; [|destruct (is_OSError e); by cbn|done].
  destruct (s1 =? s2); simpl; unfold with_log_prefix, incr_skipped,
    log_append; simpl; by rewrite <- ?app_assoc.
Qed.

Lemma copy_file_log_prefix pre F dry_run source_file destination_file
    relative_path l fs :
  copy_file F dry_run source_file destination_file relative_path
    (with_log_prefix pre l) fs
  = map_result (with_log_prefix pre)
      (copy_file F dry_run source_file destination_file relative_path l fs).
Proof.
  unfold copy_file, try_except, bind.
  destruct (os_makedirs F (dirname destination_file) fs)
    as [[fs1 o1] [[]|e|]]; [|done..].
  destruct dry_run; cbn.
  - unfold with_log_prefix, incr_to_copy, log_append; cbn.
    by rewrite <- ?app_assoc.
  - destruct (shutil_copy2 F source_file destination_file fs1)
      as [[fs2 o2] [[]|e|]]; [| |done].
    + cbn. unfold with_log_prefix, incr_to_copy, log_append; cbn.
      by rewrite <- ?app_assoc.
    + cbn. destruct (is_SameFileError e), (is_PermissionError e); cbn;
        unfold with_log_prefix, incr_skipped, log_append; cbn;
        by rewrite <- ?app_assoc.
Qed.

(** In the loop body, full mode and the absence of a baseline are the same
    thing. *)
Lemma process_file_log_prefix pre F source_dir backup_path full_backup
    full_backup' dry_run root filename l fs :
  process_file F source_dir backup_path full_backup None dry_run root filename
    (with_log_prefix pre l) fs
  = map_result (with_log_prefix pre)
      (process_file F source_dir backup_path full_backup' None dry_run root
         filename l fs).
Proof.
  unfold process_file.
  assert (Hc : ∀ fb l0 fs0,
    check_incremental F fb None (root ++ [filename])
      (relpath (root ++ [filename]) source_dir) l0 fs0
    = (fs0, [], Ok (COPY, l0))).
  { intros fb l0 fs0. unfold check_incremental. by destruct (negb fb). }
  rewrite !(bind_pure _ _ _ _ (Hc _ _ _)).
  apply (copy_file_log_prefix pre F dry_run _ _ _ (incr_total l)).
Qed.

Lemma traverse_log_prefix pre F fuel source_dir backup_path full_backup
    full_backup' dry_run l fs :
  traverse F fuel source_dir backup_path full_backup None dry_run
    (with_log_prefix pre l) fs
  = map_result (with_log_prefix pre)
      (traverse F fuel source_dir backup_path full_backup' None dry_run l fs).
Proof.
  unfold traverse. apply os_walk_map. intros top files l0 fs0.
  apply for_files_map. intros f l1 fs1. apply process_file_log_prefix.
Qed.

(** ** Incremental runs without a baseline *)

Lemma find_latest_backup_unlistable F destination_dir fs e :
  F (SysListdir destination_dir) = Some e →
  find_latest_backup F destination_dir fs = (fs, [ErrFindLatest e], Ok None).
Proof.
  intros HF. unfold find_latest_backup, try_except.
  assert (Hl : os_listdir F destination_dir fs = (fs, [], Raise e)).
  { unfold os_listdir. by rewrite HF. }
  by rewrite (bind_raise _ _ _ _ _ _ Hl).
Qed.

Lemma file_events_singleton ev :
  is_file_event ev = false → file_events [ev] = [].
Proof.
  intros H. unfold file_events. rewrite filter_cons, decide_False; [done|].
  by rewrite H.
Qed.

Lemma file_events_app o1 o2 :
  file_events (o1 ++ o2) = file_events o1 ++ file_events o2.
Proof. apply filter_app. Qed.

(** A failure to list the destination is caught in the discovery, reported
    on the error stream and answered by [None].  An incremental run whose
    discovery finds no snapshot behaves on the files as the full run on
    the same file system: both end the same way, print the same events for
    the files, in the same order, print the same summary and leave the same
    file system but for the log file; the incremental run says on the
    console that it performs a full backup, and the log it writes holds the
    line that says so. *)
Theorem incremental_without_baseline_is_full F fuel now source_dir
    destination_dir dry_run fs :
  let backup_path := destination_dir ++ [strftime now] in
  let log_file_path := backup_path ++ ["backup_log.txt"] in
  (∀ e fs0,
     F (SysListdir destination_dir) = Some e →
     find_latest_backup F destination_dir fs0
     = (fs0, [ErrFindLatest e], Ok None)
     ∧ is_stderr (ErrFindLatest e) = true)
  ∧ (∀ fs1 o_find fs_i out_i r_i fs_f out_f r_f,
       isdir fs source_dir = true → isdir fs destination_dir = true →
       os_makedirs F backup_path fs = (fs1, [], Ok tt) →
       find_latest_backup F destination_dir fs1 = (fs1, o_find, Ok None) →
       run_backup F fuel now source_dir destination_dir false dry_run fs
       = (fs_i, out_i, r_i) →
       run_backup F fuel now source_dir destination_dir true dry_run fs
       = (fs_f, out_f, r_f) →
       r_i = r_f
       ∧ file_events out_i = file_events out_f
       ∧ (∀ total copied skipped dry,
            PrintSummary total copied skipped dry ∈ out_i
            ↔ PrintSummary total copied skipped dry ∈ out_f)
       ∧ (∀ p, p ≠ log_file_path → fs_i !! p = fs_f !! p)
       ∧ PrintNoPrevious ∈ out_i
       ∧ (PrintLogSaved log_file_path ∈ out_i →
          ∃ messages,
            LogNoPrevious ∈ messages
            ∧ fs_i !! log_file_path
              = Some (File (String.concat ""
                              (log_header (strftime now) source_dir
                                 destination_dir false dry_run
                                 ++ log_lines messages))))).
Proof.
  intros backup_path log_file_path. split.
  { intros e fs0 HF. split; [|done].
    by apply find_latest_backup_unlistable. }
  intros fs1 o_find fs_i out_i r_i fs_f out_f r_f Hs Hd Hm Hfind Hi Hf.
  apply run_backup_inv in Hi as (fs1i & r1i & Hmi & Hi); [|done..].
  apply run_backup_inv in Hf as (fs1f & r1f & Hmf & Hf); [|done..].
  fold backup_path in Hmi, Hmf, Hi, Hf. fold log_file_path in Hi, Hf.
  assert (fs1i = fs1 ∧ r1i = Ok tt) as [-> ->]
    by (rewrite Hm in Hmi; by simplify_eq).
  assert (fs1f = fs1 ∧ r1f = Ok tt) as [-> ->]
    by (rewrite Hm in Hmf; by simplify_eq).
  destruct Hi as (o_bi & latest_i & l0i & fs2i & o_ti & r_ti & Hri & Hti & Hi).
  destruct Hf as (o_bf & latest_f & l0f & fs2f & o_tf & r_tf & Hrf & Htf & Hf).
  (* the baselines *)
  apply resolve_baseline_spec in Hri
    as [_ [(? & _)|(_ & o_f & latest & Hfind' & Ho_f & Hri)]]; [done|].
  assert (o_f = o_find ∧ latest = None) as [-> ->]
    by (rewrite Hfind in Hfind'; by simplify_eq).
  destruct Hri as [-> [= -> ->]].
  apply resolve_baseline_spec in Hrf
    as [_ [(_ & -> & [= -> ->])|(? & _)]]; [|done].
  (* the two loops are one loop *)
  set (l0 := Locals [] 0 0 0) in *.
  change (log_append LogNoPrevious (Locals [LogCreated backup_path] 0 0 0))
    with (with_log_prefix [LogCreated backup_path; LogNoPrevious] l0) in Hti.
  change (Locals [LogCreated backup_path] 0 0 0)
    with (with_log_prefix [LogCreated backup_path] l0) in Htf.
  rewrite (traverse_log_prefix _ _ _ _ _ false true) in Hti.
  rewrite (traverse_log_prefix _ _ _ _ _ true true) in Htf.
  destruct (traverse F fuel source_dir backup_path true None dry_run l0 fs1)
    as [[fs2 o_t] r_t] eqn:Ht.
  apply traverse_balanced in Ht as [Ho_t _]; [|done].
  assert (Hfind_events :
    file_events o_find = []
    ∧ (PrintLogSaved log_file_path ∉ o_find)
    ∧ ∀ t c s d, PrintSummary t c s d ∉ o_find).
  { destruct Ho_f as [->|(e & -> & _)].
    - repeat split; try done; intros; apply not_elem_of_nil.
    - split; [by apply file_events_singleton|].
      split; intros; by rewrite list_elem_of_singleton. }
  destruct Hfind_events as (Hf1 & Hf2 & Hf3).
  assert (Hbanner :
    file_events (banner dry_run) = []
    ∧ (PrintLogSaved log_file_path ∉ banner dry_run)
    ∧ ∀ t c s d, PrintSummary t c s d ∉ banner dry_run).
  { destruct dry_run; simpl.
    - split; [by apply file_events_singleton|].
      split; intros; by rewrite list_elem_of_singleton.
    - repeat split; try done; intros; apply not_elem_of_nil. }
  destruct Hbanner as (Hb1 & Hb2 & Hb3).
  assert (Hwlog : ∀ full messages fs3 o_w,
    write_log F log_file_path (strftime now) source_dir destination_dir full
      dry_run messages fs2 = (fs3, o_w, Ok tt) →
    file_events o_w = []
    ∧ (∀ t c s d, PrintSummary t c s d ∉ o_w)
    ∧ (∀ p, p ≠ log_file_path → fs3 !! p = fs2 !! p)
    ∧ (PrintLogSaved log_file_path ∈ o_w →
       fs3 !! log_file_path
       = Some (File (String.concat ""
                       (log_header (strftime now) source_dir destination_dir
                          full dry_run ++ log_lines messages))))).
  { intros full messages fs3 o_w Hw.
    apply write_log_spec in Hw as (_ & Hframe & [[-> Hl]|(e & -> & _)]).
    - split; [by apply file_events_singleton|].
      split; [intros; by rewrite list_elem_of_singleton|]. by split.
    - split; [by apply file_events_singleton|].
      split; [intros; by rewrite list_elem_of_singleton|]. split; [done|].
      by rewrite list_elem_of_singleton. }
  destruct r_t as [l|e|]; simpl in Hti, Htf;
    injection Hti as <- <- <-; injection Htf as <- <- <-.
  - destruct Hi as (o_wi & Hwi & -> & ->).
    destruct Hf as (o_wf & Hwf & -> & ->).
    apply Hwlog in Hwi as (Hwi1 & Hwi2 & Hwi3 & Hwi4).
    apply Hwlog in Hwf as (Hwf1 & Hwf2 & Hwf3 & Hwf4).
    split; [done|]. split.
    { rewrite !file_events_app, Hb1, Hf1, Hwi1, Hwf1.
      rewrite !file_events_singleton by done. done. }
    split.
    { intros t c s d. rewrite !elem_of_app, !list_elem_of_singleton.
      specialize (Hb3 t c s d). specialize (Hf3 t c s d).
      specialize (Hwi2 t c s d). specialize (Hwf2 t c s d).
      rewrite Forall_forall in Ho_t.
      assert (PrintSummary t c s d ∉ o_t)
        by (intros Hin; by specialize (Ho_t _ Hin)).
      split; intros Hin; destruct_or! Hin; try done; auto 10.
      by apply elem_of_nil in Hin. }
    split.
    { intros p Hp. by rewrite Hwi3, Hwf3. }
    split.
    { rewrite !elem_of_app, !list_elem_of_singleton. auto 10. }
    intros Hsaved.
    exists (log_messages
              (with_log_prefix [LogCreated backup_path; LogNoPrevious] l)).
    split.
    { simpl. rewrite !elem_of_cons. auto. }
    apply Hwi4. rewrite !elem_of_app, !list_elem_of_singleton in Hsaved.
    rewrite Forall_forall in Ho_t.
    destruct Hsaved as [?|[?|[[?|?]|[Hin|[?|?]]]]]; try done.
    by specialize (Ho_t _ Hin).
  - destruct Hi as (-> & -> & ->). destruct Hf as (-> & -> & ->).
    split; [done|]. split.
    { rewrite !file_events_app, Hb1, Hf1.
      rewrite !file_events_singleton by done. done. }
    split.
    { intros t c s d. rewrite !elem_of_app, !list_elem_of_singleton.
      specialize (Hb3 t c s d). specialize (Hf3 t c s d).
      split; intros Hin; destruct_or! Hin; try done; auto 10.
      by apply elem_of_nil in Hin. }
    split; [done|]. split.
    { rewrite !elem_of_app, !list_elem_of_singleton. auto 10. }
    intros Hsaved. exfalso.
    rewrite !elem_of_app, !list_elem_of_singleton in Hsaved.
    rewrite Forall_forall in Ho_t.
    destruct Hsaved as [?|[?|[[?|?]|Hin]]]; try done.
    by specialize (Ho_t _ Hin).
  - destruct Hi as (-> & -> & ->). destruct Hf as (-> & -> & ->).
    split; [done|]. split.
    { rewrite !file_events_app, Hb1, Hf1.
      rewrite !file_events_singleton by done. done. }
    split.
    { intros t c s d. rewrite !elem_of_app, !list_elem_of_singleton.
      specialize (Hb3 t c s d). specialize (Hf3 t c s d).
      split; intros Hin; destruct_or! Hin; try done; auto 10.
      by apply elem_of_nil in Hin. }
    split; [done|]. split.
    { rewrite !elem_of_app, !list_elem_of_singleton. auto 10. }
    intros Hsaved. exfalso.
    rewrite !elem_of_app, !list_elem_of_singleton in Hsaved.
    rewrite Forall_forall in Ho_t.
    destruct Hsaved as [?|[?|[[?|?]|Hin]]]; try done.
    by specialize (Ho_t _ Hin).
Qed.

(** ** The log of a run and its console *)

Lemma log_of_events_app o1 o2 :
  log_of_events (o1 ++ o2) = log_of_events o1 ++ log_of_events o2.
Proof. apply omap_app. Qed.

Lemma logs_nil l : logs l [] l.
Proof. unfold logs. simpl. by rewrite app_nil_r. Qed.

Lemma logs_app l o1 l1 o2 l2 :
  logs l o1 l1 → logs l1 o2 l2 → logs l (o1 ++ o2) l2.
Proof.
  unfold logs. intros H1 H2. by rewrite H2, H1, log_of_events_app, app_assoc.
Qed.

Lemma for_files_logs (body : string → locals → M locals) :
  (∀ f l fs fs' o l', body f l fs = (fs', o, Ok l') → logs l o l') →
  ∀ files l fs fs' o l',
    for_files body files l fs = (fs', o, Ok l') → logs l o l'.
Proof.
  intros Hbody files. induction files as [|f rest IH];
    intros l fs fs' o l' H; simpl in H.
  - unfold ret in H. simplify_eq. apply logs_nil.
  - apply bind_inv in H
      as [(fs1 & o1 & l1 & o2 & H1 & H2 & ->)|[(e & _ & ?)|[_ ?]]];
      [|done..].
    eapply logs_app; [by eapply Hbody|by eapply IH].
Qed.

Lemma os_walk_logs F (body : path → list string → locals → M locals) :
  (∀ top files l fs fs' o l',
     body top files l fs = (fs', o, Ok l') → logs l o l') →
  ∀ fuel stack l fs fs' o l',
    os_walk F fuel stack body l fs = (fs', o, Ok l') → logs l o l'.
Proof.
  intros Hbody fuel. induction fuel as [|fuel IH];
    intros [|top stack] l fs fs' o l' H; simpl in H;
    try (unfold ret in H; simplify_eq; apply logs_nil).
  apply bind_inv in H
    as [(fs1 & o1 & scanned & o2 & H1 & H2 & ->)|[(e & _ & ?)|[_ ?]]];
    [|done..].
  apply scan_step_spec in H1 as (-> & -> & _).
  destruct scanned as [es|]; [|by eapply IH].
  apply bind_inv in H2
    as [(fs2 & o3 & l1 & o4 & H2 & H3 & ->)|[(e & _ & ?)|[_ ?]]];
    [|done..].
  simpl. eapply logs_app; [by eapply Hbody|by eapply IH].
Qed.

Lemma process_file_logs F source_dir backup_path full_backup
    latest_backup_dir dry_run root filename l fs fs' o l' :
  process_file F source_dir backup_path full_backup latest_backup_dir dry_run
    root filename l fs = (fs', o, Ok l') →
  logs l o l'.
Proof.
  intros H. apply process_file_inv in H as (o1 & r1 & Hc & H).
  apply check_incremental_spec in Hc as [_ Hc].
  assert (Hcheck : ∀ d l1, r1 = Ok (d, l1) → logs l o1 l1).
  { intros d l1 ->.
    destruct Hc as [[Hr ->]|(latest & _ & _ & _ & Hc)].
    { injection Hr as -> ->. unfold logs. simpl. by rewrite app_nil_r. }
    destruct Hc as [[Hr ->]|[[Hr ->]|[(e & _ & Hr & ->)|(e & _ & Hr & _)]]];
      [..|done]; injection Hr as -> ->; unfold logs; simpl;
      by rewrite ?app_nil_r. }
  destruct r1 as [[[|] l1]|e|]; [| |by destruct H as (_ & _ & ?)|done].
  - destruct H as (_ & -> & [= ->]). by apply (Hcheck SKIP).
  - destruct H as (o2 & H & ->).
    eapply logs_app; [by apply (Hcheck COPY)|].
    apply copy_file_spec in H as (fs1 & r2 & _ & Hcases).
    destruct Hcases
      as [(e & _ & _ & _ & ?)
         |[(_ & _ & _ & -> & [= ->])
          |[(_ & _ & _ & -> & [= ->])|(_ & _ & _ & e & _ & -> & [= ->])]]];
      [done|..]; unfold logs, copy_failure_report; simpl; [done..|].
    destruct (is_SameFileError e); [done|].
    by destruct (is_PermissionError e).
Qed.

Lemma traverse_logs F fuel source_dir backup_path full_backup
    latest_backup_dir dry_run l fs fs' o l' :
  traverse F fuel source_dir backup_path full_backup latest_backup_dir dry_run
    l fs = (fs', o, Ok l') →
  logs l o l'.
Proof.
  unfold traverse. apply os_walk_logs.
  intros top files. apply for_files_logs.
  intros f l0 fs0 fs0' o0 l0'. apply process_file_logs.
Qed.

Lemma resolve_baseline_logs F destination_dir full_backup l fs fs' o latest l' :
  resolve_baseline F destination_dir full_backup l fs
  = (fs', o, Ok (latest, l')) →
  logs l o l' ∧ ∀ p, PrintLogSaved p ∉ o.
Proof.
  intros H. apply resolve_baseline_spec in H
    as [_ [(_ & -> & [= -> ->])|(_ & o_f & lt & _ & Ho_f & Hr)]].
  { split; [apply logs_nil|]. intros; apply not_elem_of_nil. }
  assert (log_of_events o_f = [] ∧ ∀ p, PrintLogSaved p ∉ o_f) as [Hf Hn].
  { destruct Ho_f as [->|(e & -> & _)]; (split; [done|]); intros p.
    - apply not_elem_of_nil.
    - by rewrite list_elem_of_singleton. }
  destruct lt as [p|]; destruct Hr as [-> [= -> ->]];
    (split; [unfold logs; by rewrite log_of_events_app, Hf|]); intros q;
    rewrite elem_of_app, list_elem_of_singleton; intros [?|?]; try done;
    by apply (Hn q).
Qed.

(** The log file of a run: the header with the values of the run, then the
    line of the snapshot directory and the lines of what the console
    showed, in that order. *)
Lemma run_backup_log_content F fuel now source_dir destination_dir
    full_backup dry_run fs fs' out r :
  let backup_path := destination_dir ++ [strftime now] in
  let log_file_path := backup_path ++ ["backup_log.txt"] in
  run_backup F fuel now source_dir destination_dir full_backup dry_run fs
  = (fs', out, r) →
  PrintLogSaved log_file_path ∈ out →
  fs' !! log_file_path
  = Some (File (String.concat ""
                  (log_header (strftime now) source_dir destination_dir
                     full_backup dry_run
                   ++ log_lines (LogCreated backup_path :: log_of_events out)))).
Proof.
  intros backup_path log_file_path H Hin.
  destruct (isdir fs source_dir) eqn:Hs;
    [destruct (isdir fs destination_dir) eqn:Hd|].
  - apply run_backup_inv in H as (fs1 & r1 & _ & H); [|done..].
    fold backup_path in H. fold log_file_path in H.
    assert (Hbanner : PrintLogSaved log_file_path ∉ banner dry_run).
    { destruct dry_run; simpl; [by rewrite list_elem_of_singleton|].
      apply not_elem_of_nil. }
    assert (Hlb : log_of_events (banner dry_run) = [])
      by (by destruct dry_run).
    destruct r1 as [[]|e|]; [| |done].
    + destruct H as (o_b & latest & l0 & fs2 & o_t & r_t & Hr & Ht & H).
      apply resolve_baseline_events in Hr as Hcount.
      destruct Hcount as [_ Hcount].
      destruct (Hcount latest l0 eq_refl) as (Ht0 & Hc0 & Hs0).
      simpl in Ht0, Hc0, Hs0.
      apply resolve_baseline_logs in Hr as [Hl0 Ho_b].
      apply traverse_balanced in Ht as Hfile; [|unfold balanced; lia].
      destruct Hfile as [Ho_t _]. rewrite Forall_forall in Ho_t.
      assert (Hpre : PrintLogSaved log_file_path
                     ∉ banner dry_run
                       ++ [PrintStarting full_backup source_dir] ++ o_b ++ o_t).
      { rewrite !elem_of_app, list_elem_of_singleton.
        intros [Hi|[Hi|[Hi|Hi]]]; [done|done| |].
        - by apply (Ho_b _ Hi).
        - by specialize (Ho_t _ Hi). }
      destruct r_t as [l|e|]; [|by destruct H as (_ & _ & ->)..].
      destruct H as (o_w & Hw & -> & ->).
      apply traverse_logs in Ht. unfold logs in Hl0, Ht. simpl in Hl0.
      apply write_log_spec in Hw as (_ & _ & Ho_w).
      destruct Ho_w as [[-> Hcontent]|(e & -> & _)].
      * rewrite Hcontent. do 3 f_equal. f_equal.
        rewrite !log_of_events_app, Hlb, Ht, Hl0. simpl.
        by rewrite app_nil_r.
      * exfalso. rewrite !app_assoc in Hin.
        apply elem_of_app in Hin as [Hin|Hin].
        -- apply elem_of_app in Hin as [Hin|Hin].
           ++ by rewrite <- !app_assoc in Hin.
           ++ by apply list_elem_of_singleton in Hin.
        -- by apply list_elem_of_singleton in Hin.
    + exfalso. destruct H as [_ [(_ & _ & ->)|(_ & _ & ->)]];
        rewrite !elem_of_app, ?elem_of_cons, ?elem_of_nil in Hin;
        naive_solver.
  - rewrite run_backup_rejects in H by (by right). injection H as <- <- <-.
    apply list_elem_of_singleton in Hin. rewrite Hs in Hin. done.
  - rewrite run_backup_rejects in H by (by left). injection H as <- <- <-.
    apply list_elem_of_singleton in Hin. rewrite Hs in Hin. done.
Qed.

(** ** The directories stay *)

Local Instance keeps_dirs_refl : Reflexive keeps_dirs.
Proof. by intros fs p. Qed.

Local Instance keeps_dirs_trans : Transitive keeps_dirs.
Proof. intros fs1 fs2 fs3 H1 H2 p Hp. by apply H2, H1. Qed.

Lemma process_file_keeps_dirs F source_dir backup_path full_backup
    latest_backup_dir dry_run root filename l fs fs' o r :
  process_file F source_dir backup_path full_backup latest_backup_dir dry_run
    root filename l fs = (fs', o, r) →
  keeps_dirs fs fs'.
Proof.
  intros H. apply process_file_inv in H as (o1 & r1 & _ & H).
  destruct r1 as [[[|] l1]|e|]; [by destruct H as (-> & _)| |
    by destruct H as (-> & _)|done].
  destruct H as (o2 & H & _).
  apply copy_file_spec in H as (fs1 & r2 & Hm & Hcases).
  apply os_makedirs_spec in Hm as (_ & _ & [Hsub _] & _).
  assert (Hmk : keeps_dirs fs fs1) by (intros p; by apply isdir_weaken).
  destruct Hcases
    as [(e & _ & -> & _)
       |[(_ & _ & -> & _)
        |[(_ & _ & Hc & _)|(_ & _ & -> & _)]]]; try done.
  apply shutil_copy2_spec in Hc
    as (_ & _ & [(e & _ & ->)|(data & _ & _ & Htarget & ->)]); [done|].
  intros p Hp. apply Hmk in Hp.
  destruct (decide (p = [])) as [->|Hne]; [done|].
  apply isdir_lookup; [done|]. rewrite lookup_insert_ne.
  - by apply isdir_lookup.
  - intros <-. by rewrite Hp in Htarget.
Qed.

Lemma traverse_keeps_dirs F fuel source_dir backup_path full_backup
    latest_backup_dir dry_run l fs fs' o r :
  traverse F fuel source_dir backup_path full_backup latest_backup_dir dry_run
    l fs = (fs', o, r) →
  keeps_dirs fs fs'.
Proof.
  intros H. unfold traverse in H.
  apply (os_walk_invariant_gen (λ _ _ _, True) keeps_dirs (λ _, True)) in H;
    try done; try apply _.
  - by destruct H as (_ & ? & _).
  - intros top stack l0 fs0 fs0' o0 r0 _ Hb.
    apply (for_files_invariant_gen (λ _ _ _, True) keeps_dirs (λ _, True))
      in Hb; try done; try apply _.
    intros f rest l1 fs1 fs1' o1 r1 _ Hp.
    apply process_file_keeps_dirs in Hp. split; [|done].
    by apply Forall_forall.
Qed.

(** ** The log is written when nothing prevents it *)

Lemma write_log_succeeds (F : faults) (log_file_path : path)
    (timestamp : string)
    (source_dir destination_dir : path) (full_backup dry_run : bool)
    (messages : list log_message) (fs : filesystem) :
  F (SysOpen log_file_path) = None →
  (∀ k, F (SysWrite log_file_path k) = None) →
  isdir fs log_file_path = false → isdir fs (dirname log_file_path) = true →
  ∃ fs',
    write_log F log_file_path timestamp source_dir destination_dir
      full_backup dry_run messages fs
    = (fs', [PrintLogSaved log_file_path], Ok tt)
    ∧ fs' !! log_file_path
      = Some (File (String.concat ""
                      (log_header timestamp source_dir destination_dir
                         full_backup dry_run ++ log_lines messages))).
Proof.
  intros Hopen' Hwrite Hlog Hparent.
  assert (Hopen : open_w F log_file_path fs
                  = (<[log_file_path := File ""]> fs, [], Ok tt)).
  { unfold open_w. rewrite Hopen'. unfold isdir in Hlog, Hparent.
    destruct (fs_node fs log_file_path) as [[|]|]; [done|..];
      by destruct (fs_node fs (dirname log_file_path)) as [[|]|]. }
  unfold write_log, try_except. rewrite (bind_ok _ _ _ _ _ _ Hopen).
  set (texts := log_header timestamp source_dir destination_dir full_backup
                  dry_run ++ log_lines messages).
  destruct (write_all F log_file_path 0 texts
              (<[log_file_path := File ""]> fs)) as [[fs2 o2] r2] eqn:Hw.
  apply (write_all_spec _ _ _ _ _ "") in Hw as Hspec;
    [|by rewrite lookup_insert_eq].
  destruct Hspec as (-> & Hfuel & _ & Hok & Hraise).
  destruct r2 as [[]|e|]; [| |done].
  - rewrite (bind_ok _ _ _ _ _ _ Hw). unfold print. eexists.
    split; [done|]. by rewrite (Hok eq_refl).
  - destruct (Hraise e eq_refl) as (k & _ & Hk & _). by rewrite Hwrite in Hk.
Qed.

(** A run that prints its summary and meets no failure on its log file has
    saved the log. *)
Lemma run_backup_saves_log F fuel now source_dir destination_dir full_backup
    dry_run fs fs' out r total copied skipped dry :
  let log_file_path :=
    (destination_dir ++ [strftime now]) ++ ["backup_log.txt"] in
  run_backup F fuel now source_dir destination_dir full_backup dry_run fs
  = (fs', out, r) →
  PrintSummary total copied skipped dry ∈ out →
  F (SysOpen log_file_path) = None →
  (∀ k, F (SysWrite log_file_path k) = None) →
  isdir fs' log_file_path = false →
  PrintLogSaved log_file_path ∈ out.
Proof.
  intros log_file_path H Hin Hopen Hwrite Hlog.
  destruct (isdir fs source_dir) eqn:Hs;
    [destruct (isdir fs destination_dir) eqn:Hd|].
  - apply run_backup_inv in H as (fs1 & r1 & Hm & H); [|done..].
    fold log_file_path in H.
    assert (Hbanner : PrintSummary total copied skipped dry ∉ banner dry_run).
    { destruct dry_run; simpl; rewrite ?elem_of_cons, ?elem_of_nil;
        naive_solver. }
    destruct r1 as [[]|e|]; [| |done].
    + apply os_makedirs_spec in Hm as (_ & _ & _ & Hdir).
      specialize (Hdir eq_refl).
      destruct H as (o_b & latest & l0 & fs2 & o_t & r_t & Hr & Ht & H).
      apply resolve_baseline_events in Hr as [Ho_b Hcount].
      destruct (Hcount latest l0 eq_refl) as (Ht0 & Hc0 & Hs0).
      simpl in Ht0, Hc0, Hs0.
      apply traverse_keeps_dirs in Ht as Hkeep.
      apply traverse_balanced in Ht as [Ho_t _]; [|unfold balanced; lia].
      rewrite Forall_forall in Ho_b. rewrite Forall_forall in Ho_t.
      assert (Hpre : PrintSummary total copied skipped dry
                     ∉ banner dry_run
                       ++ [PrintStarting full_backup source_dir] ++ o_b ++ o_t).
      { rewrite !elem_of_app, list_elem_of_singleton.
        intros [Hi|[Hi|[Hi|Hi]]]; [done|done| |].
        - by apply (Ho_b _ Hi total copied skipped dry).
        - by specialize (Ho_t _ Hi). }
      destruct r_t as [l|e|]; [|by destruct H as (_ & _ & ->)..].
      destruct H as (o_w & Hw & -> & ->).
      assert (Hlog2 : isdir fs2 log_file_path = false).
      { destruct (isdir fs2 log_file_path) eqn:Hd2; [|done].
        assert (fs' = fs2) as ->; [|by rewrite Hd2 in Hlog].
        revert Hw. unfold write_log, try_except, bind at 1, open_w.
        rewrite Hopen. unfold isdir in Hd2.
        destruct (fs_node fs2 log_file_path) as [[|]|]; [|done..].
        by intros [= <- _]. }
      destruct (write_log_succeeds F log_file_path (strftime now) source_dir
                  destination_dir full_backup dry_run (log_messages l) fs2)
        as (fs3 & Hw' & _); [done..| |].
      { unfold log_file_path. rewrite dirname_snoc. by apply Hkeep. }
      rewrite Hw' in Hw. injection Hw as <- <-.
      rewrite !elem_of_app, !list_elem_of_singleton. auto 10.
    + exfalso. destruct H as [_ [(_ & _ & ->)|(_ & _ & ->)]];
        rewrite !elem_of_app, ?elem_of_cons, ?elem_of_nil in Hin;
        naive_solver.
  - rewrite run_backup_rejects in H by (by right). injection H as <- <- <-.
    apply list_elem_of_singleton in Hin. rewrite Hs in Hin. done.
  - rewrite run_backup_rejects in H by (by left). injection H as <- <- <-.
    apply list_elem_of_singleton in Hin. rewrite Hs in Hin. done.
Qed.

(** ** Failures of the copy *)

(** C7.  In a run that is no dry run, whatever exception the copy of a
    file raises is caught in the loop body: the body returns, the failure is
    printed on the error stream and recorded in the log with the relative
    path of the file (and the text of the exception when it is neither a
    same-file nor a permission error), the file counts as skipped, and the
    loop goes on with the files that remain.  With ten files of which one
    is denied, the nine others are copied and the run ends with its log
    and its summary. *)
Theorem copy_failure_isolated :
  (∀ F source_file destination_file relative_path l fs fs1 e,
     os_makedirs F (dirname destination_file) fs = (fs1, [], Ok tt) →
     shutil_copy2 F source_file destination_file fs1 = (fs1, [], Raise e) →
     copy_file F false source_file destination_file relative_path l fs
     = (fs1, [(copy_failure_report e relative_path).1],
        Ok (incr_skipped
              (log_append (copy_failure_report e relative_path).2 l)))
     ∧ is_stderr (copy_failure_report e relative_path).1 = true
     ∧ (is_SameFileError e = true →
        copy_failure_report e relative_path
        = (ErrSameFile relative_path, LogSameFile relative_path))
     ∧ (is_PermissionError e = true →
        copy_failure_report e relative_path
        = (ErrPermission relative_path, LogPermission relative_path))
     ∧ (is_SameFileError e = false → is_PermissionError e = false →
        copy_failure_report e relative_path
        = (ErrUnexpected relative_path e, LogUnexpected relative_path e)))
  ∧ (∀ (body : string → locals → M locals) filename rest l fs fs1 o1 l1,
       body filename l fs = (fs1, o1, Ok l1) →
       for_files body (filename :: rest) l fs
       = let '(fs2, o2, r) := for_files body rest l1 fs1 in
         (fs2, o1 ++ o2, r))
  ∧ (let '(fs', out, r) :=
       run_backup ten_files_faults 1 ten_files_now ["src"] ["dst"] true false
         ten_files in
     r = Ok tt
     ∧ out = [PrintStarting true ["src"]; PrintCopied ["f9"];
              PrintCopied ["f8"]; PrintCopied ["f7"]; PrintCopied ["f6"];
              PrintCopied ["f5"]; PrintCopied ["f4"]; ErrPermission ["f3"];
              PrintCopied ["f2"]; PrintCopied ["f1"]; PrintCopied ["f0"];
              PrintLogSaved ["dst"; "2024-03-01_12-00-00"; "backup_log.txt"];
              PrintSummary 10 9 1 false]
     ∧ map (λ name, fs' !! ["dst"; "2024-03-01_12-00-00"; name]) ten_names
       = map (λ name, if decide (name = "f3") then None
                      else Some (File ("data of " +:+ name))) ten_names).
Proof.
  split; [|split].
  - intros F source_file destination_file relative_path l fs fs1 e Hm Hc.
    split; [|split; [|split; [|split]]].
    + destruct (copy_file F false source_file destination_file
                  relative_path l fs) as [[fs2 o2] r2] eqn:Hcopy.
      apply copy_file_spec in Hcopy as (fs1' & r1 & Hm' & Hcases).
      rewrite Hm in Hm'. injection Hm' as <- <-.
      destruct Hcases
        as [(e' & ? & _)
           |[(_ & ? & _)
            |[(_ & _ & Hc' & _)|(_ & _ & -> & e' & Hc' & -> & ->)]]];
        try done.
      * rewrite Hc in Hc'. by simplify_eq.
      * rewrite Hc in Hc'. by simplify_eq.
    + unfold copy_failure_report.
      by destruct (is_SameFileError e), (is_PermissionError e).
    + unfold copy_failure_report. by intros ->.
    + unfold copy_failure_report, is_SameFileError, is_PermissionError.
      by destruct (exn_cls e).
    + unfold copy_failure_report. by intros -> ->.
  - intros body filename rest l fs fs1 o1 l1 Hb. simpl.
    by rewrite (bind_ok _ _ _ _ _ _ Hb).
  - vm_compute. repeat split; reflexivity.
Qed.

(** ** Subdirectories of the snapshot *)

(** C5, at a failing input.  A dry run over a source tree with
    subdirectories creates the same subdirectories under the new snapshot:
    the directory of each file is made before the dry-run flag is looked
    at. *)
Theorem dry_run_creates_subdirectories :
  let '(fs', out, r) :=
    run_backup no_faults 3 ten_files_now ["src"] ["dst"] true true
      tree_example in
  r = Ok tt
  ∧ tree_example !! (tree_snapshot ++ ["docs"]) = None
  ∧ fs' !! (tree_snapshot ++ ["docs"]) = Some Dir
  ∧ tree_example !! (tree_snapshot ++ ["pics"]) = None
  ∧ fs' !! (tree_snapshot ++ ["pics"]) = Some Dir
  ∧ fs' !! (tree_snapshot ++ ["docs"; "a.txt"]) = None.
Proof. vm_compute. repeat split; reflexivity. Qed.

(** C6, at a failing input.  When the subdirectory for one file cannot be
    created the exception leaves [run_backup]: the files that remain are
    not processed, no log is written and no summary is printed. *)
Theorem makedirs_failure_aborts_run :
  let '(fs', out, r) :=
    run_backup docs_mkdir_fails 3 ten_files_now ["src"] ["dst"] true false
      tree_example in
  r = Raise disk_full
  ∧ out = [PrintStarting true ["src"]; PrintCopied ["top.txt"]]
  ∧ fs' !! (tree_snapshot ++ ["pics"; "b.png"]) = None
  ∧ fs' !! (tree_snapshot ++ ["backup_log.txt"]) = None.
Proof. vm_compute. repeat split; reflexivity. Qed.

(** ** Timestamps *)

Lemma split_on_app c t r :
  no_char c t = true → split_on c (t +:+ String c r) = Some (t, r).
Proof.
  induction t as [|a t IH]; intros Hno.
  - change (split_on c (String c r) = Some (EmptyString, r)).
    simpl. by rewrite Ascii.eqb_refl.
  - simpl in Hno. apply andb_true_iff in Hno as [Ha Ht].
    apply negb_true_iff in Ha.
    change (split_on c (String a (t +:+ String c r)) = Some (String a t, r)).
    simpl. rewrite Ha. rewrite (IH Ht). done.
Qed.

Lemma string_app_char c (s : string) : String c "" +:+ s = String c s.
Proof. done. Qed.

Lemma digit_head_digit_char k s :
  k < 10 → digit_head (String (digit_char k) s) = Some (Digit k true, s).
Proof.
  intros Hk. do 10 (destruct k as [|k]; [reflexivity|]). lia.
Qed.

Lemma digit_char_not_sep k c :
  k < 10 → c = "-"%char ∨ c = "_"%char → Ascii.eqb (digit_char k) c = false.
Proof.
  intros Hk [-> | ->]; do 10 (destruct k as [|k]; [reflexivity|]); lia.
Qed.

Lemma no_char_pad2 n c :
  n < 100 → c = "-"%char ∨ c = "_"%char → no_char c (pad2 n) = true.
Proof.
  intros Hn Hc. unfold pad2. cbn [no_char].
  rewrite !digit_char_not_sep; try done.
  - apply Nat.mod_upper_bound. lia.
  - apply Nat.Div0.div_lt_upper_bound. lia.
Qed.

Lemma no_char_pad4 n c :
  n < 10 * 1000 → c = "-"%char ∨ c = "_"%char → no_char c (pad4 n) = true.
Proof.
  intros Hn Hc. unfold pad4. cbn [no_char].
  rewrite !digit_char_not_sep; try done;
    try (apply Nat.mod_upper_bound; lia).
  apply Nat.Div0.div_lt_upper_bound. lia.
Qed.

Lemma parse_Y_pad4 n : n < 10 * 1000 → parse_Y (pad4 n) = Some n.
Proof.
  intros Hn. unfold parse_Y, pad4.
  rewrite digit_head_digit_char by (apply Nat.Div0.div_lt_upper_bound; lia).
  cbn [mbind option_bind].
  rewrite digit_head_digit_char by (apply Nat.mod_upper_bound; lia).
  cbn [mbind option_bind].
  rewrite digit_head_digit_char by (apply Nat.mod_upper_bound; lia).
  cbn [mbind option_bind].
  rewrite digit_head_digit_char by (apply Nat.mod_upper_bound; lia).
  cbn [mbind option_bind digit_value]. f_equal.
  assert (E2 : n / 10 / 10 = n / 100) by apply Nat.Div0.div_div.
  assert (E3 : n / 100 / 10 = n / 1000) by apply Nat.Div0.div_div.
  pose proof (Nat.div_mod_eq n 10) as H1.
  pose proof (Nat.div_mod_eq (n / 10) 10) as H2.
  pose proof (Nat.div_mod_eq (n / 100) 10) as H3.
  rewrite E2 in H2. rewrite E3 in H3. lia.
Qed.

Tactic Notation "by_cases_below" ident(n) integer(bound) :=
  do bound (destruct n as [|n]; [try (vm_compute; reflexivity); try lia|]);
  lia.

Lemma parse_m_pad2 n : 1 ≤ n ≤ 12 → parse_m (pad2 n) = Some n.
Proof. intros Hn. by_cases_below n 13. Qed.

Lemma parse_d_pad2 n : 1 ≤ n ≤ 31 → parse_d (pad2 n) = Some n.
Proof. intros Hn. by_cases_below n 32. Qed.

Lemma parse_H_pad2 n : n < 24 → parse_H (pad2 n) = Some n.
Proof. intros Hn. by_cases_below n 24. Qed.

Lemma parse_M_pad2 n : n < 60 → parse_M (pad2 n) = Some n.
Proof. intros Hn. by_cases_below n 60. Qed.

Lemma parse_S_pad2 n : n < 60 → parse_S (pad2 n) = Some n.
Proof. intros Hn. by_cases_below n 60. Qed.

Lemma days_in_month_le y m : days_in_month y m ≤ 31.
Proof.
  unfold days_in_month. destruct (is_leap y);
    do 12 (destruct m as [|m]; [lia|]); lia.
Qed.

(** The name [strftime] gives a snapshot is a name [strptime] accepts. *)
Lemma strptime_strftime d :
  clock_reading d = true → strptime (strftime d) = Some d.
Proof.
  unfold clock_reading. intros [Hv Hy]%andb_true_iff.
  assert (Hv' := Hv). unfold valid_datetime in Hv'.
  destruct d as [y m dd hh mm ss].
  cbn [year month day hour minute second] in *.
  repeat (apply andb_true_iff in Hv' as [Hv' ?]).
  repeat match goal with
         | H : (_ <=? _) = true |- _ => apply Nat.leb_le in H
         | H : (_ <? _) = true |- _ => apply Nat.ltb_lt in H
         end.
  pose proof (days_in_month_le y m).
  unfold strptime, strftime.
  cbn [year month day hour minute second].
  rewrite !string_app_char.
  rewrite (split_on_app "-" (pad4 y)) by (apply no_char_pad4; [lia|auto]).
  cbn [mbind option_bind].
  rewrite (split_on_app "-" (pad2 m)) by (apply no_char_pad2; [lia|auto]).
  cbn [mbind option_bind].
  rewrite (split_on_app "_" (pad2 dd)) by (apply no_char_pad2; [lia|auto]).
  cbn [mbind option_bind].
  rewrite (split_on_app "-" (pad2 hh)) by (apply no_char_pad2; [lia|auto]).
  cbn [mbind option_bind].
  rewrite (split_on_app "-" (pad2 mm)) by (apply no_char_pad2; [lia|auto]).
  cbn [mbind option_bind].
  rewrite parse_Y_pad4, parse_m_pad2, parse_d_pad2, parse_H_pad2,
    parse_M_pad2, parse_S_pad2 by lia.
  cbn [mbind option_bind]. by rewrite Hv.
Qed.

(** ** The walk of the source tree *)

Lemma scan_names_filter (b : string → bool) (v : bool) (names : list string) :
  (filter (λ e : string * bool, e.2 = v) (map (λ name, (name, b name)) names)).*1
  = filter (λ name, b name = v) names.
Proof.
  induction names as [|name names IH]; [done|].
  cbn [map]. rewrite !filter_cons. cbn [snd].
  destruct (decide (b name = v)); [rewrite fmap_cons|]; by rewrite IH.
Qed.

Lemma scan_dirs_filter fs top :
  scan_dirs (scan fs top)
  = filter (λ name, isdir fs (top ++ [name]) = true) (entries fs top).
Proof. apply scan_names_filter. Qed.

Lemma scan_nondirs_filter fs top :
  scan_nondirs (scan fs top)
  = filter (λ name, isdir fs (top ++ [name]) = false) (entries fs top).
Proof. apply scan_names_filter. Qed.

Lemma NoDup_scan_dirs fs top : NoDup (scan_dirs (scan fs top)).
Proof. rewrite scan_dirs_filter. apply NoDup_filter, NoDup_entries. Qed.

Lemma NoDup_scan_nondirs fs top : NoDup (scan_nondirs (scan fs top)).
Proof. rewrite scan_nondirs_filter. apply NoDup_filter, NoDup_entries. Qed.

Lemma scan_dirs_nondirs_disjoint fs top name :
  name ∈ scan_dirs (scan fs top) → name ∉ scan_nondirs (scan fs top).
Proof.
  rewrite scan_dirs_filter, scan_nondirs_filter.
  intros [Hd _]%list_elem_of_filter [Hn _]%list_elem_of_filter. congruence.
Qed.

Lemma prefix_snoc_inv {A} (q l : list A) (x : A) :
  q `prefix_of` l ++ [x] → q `prefix_of` l ∨ q = l ++ [x].
Proof.
  intros [k Hk]. destruct (decide (k = [])) as [->|Hne].
  - right. by rewrite app_nil_r in Hk.
  - left. destruct (exists_last Hne) as (k' & y & ->).
    rewrite app_assoc in Hk. apply app_inj_tail in Hk as [-> _].
    by exists k'.
Qed.

Lemma antichain_app l1 l2 :
  antichain l1 → antichain l2 →
  (∀ a b, a ∈ l1 → b ∈ l2 → incomparable a b) →
  antichain (l1 ++ l2).
Proof.
  induction l1 as [|q l1 IH]; intros H1 H2 H12; [done|].
  destruct H1 as [Hq H1]. simpl. split.
  - intros q' [Hin|Hin]%elem_of_app; [by apply Hq|].
    apply H12; [left|done].
  - apply IH; try done. intros a b Ha Hb. apply H12; [by right|done].
Qed.

Lemma antichain_children (top : path) (names : list string) :
  NoDup names → antichain (map (λ d, top ++ [d]) names).
Proof.
  induction 1 as [|name names Hnot Hnd IH]; [done|].
  simpl. split; [|done].
  intros q' (name' & -> & Hin)%list_elem_of_fmap.
  assert (name ≠ name') by (by intros ->).
  split; intros Hp; apply prefix_length_eq in Hp;
    rewrite ?length_app; try done;
    by apply app_inj_tail in Hp as [_ ?].
Qed.

(** In a well-formed file system, what lies under a path lies under a
    directory. *)
Lemma fs_wf_ancestor fs q p :
  fs_wf fs → p ≠ [] → is_Some (fs !! (q ++ p)) → isdir fs q = true.
Proof.
  intros Hwf. induction p as [|name p IH] using rev_ind; [done|].
  intros _ Hsome. rewrite app_assoc in Hsome. apply Hwf in Hsome.
  destruct (decide (p = [])) as [->|Hne].
  - by rewrite app_nil_r in Hsome.
  - apply IH; [done|]. apply isdir_exists in Hsome.
    apply path_exists_lookup in Hsome; [done|].
    intros Heq. apply app_eq_nil in Heq as [_ ?]. done.
Qed.

Lemma string_ltb_irrefl s : String.ltb s s = false.
Proof.
  unfold String.ltb.
  assert (String.compare s s = Eq) as ->; [|done].
  induction s as [|c s IH]; simpl; [done|].
  unfold Ascii.compare. by rewrite N.compare_refl.
Qed.

Lemma string_ltb_leb s t : String.ltb s t = true → String.leb s t = true.
Proof. unfold String.ltb, String.leb. by destruct (String.compare s t). Qed.

Lemma string_leb_refl s : String.leb s s = true.
Proof.
  unfold String.leb.
  assert (String.compare s s = Eq) as ->; [|done].
  induction s as [|c s IH]; simpl; [done|].
  unfold Ascii.compare. by rewrite N.compare_refl.
Qed.

(** ** The baseline of an incremental run *)

Section own_snapshot.
Context (F : faults) (now : datetime) (destination_dir : path).
Context (fs fs1 : filesystem).

Let backup_path : path := destination_dir ++ [strftime now].

Hypothesis Hclock : clock_reading now = true.
Hypothesis Hwf : fs_wf fs.
Hypothesis Hdest : isdir fs destination_dir = true.
Hypothesis Holder :
  ∀ entry,
    entry ∈ entries fs destination_dir →
    is_backup_folder fs destination_dir entry = true →
    String.ltb entry (strftime now) = true.
Hypothesis Hmade : os_makedirs F backup_path fs = (fs1, [], Ok tt).

Lemma own_snapshot_is_new : fs !! backup_path = None.
Proof.
  apply os_makedirs_spec in Hmade as (_ & _ & [Hsub _] & Hdir).
  specialize (Hdir eq_refl).
  destruct (fs !! backup_path) as [[|data]|] eqn:Hl; [| |done].
  - exfalso.
    assert (String.ltb (strftime now) (strftime now) = true) as Hlt.
    { apply Holder.
      - apply elem_of_entries. by eexists.
      - unfold is_backup_folder. apply andb_true_iff. split.
        + apply isdir_lookup; [|done]. by destruct destination_dir.
        + apply bool_decide_eq_true. rewrite strptime_strftime by done.
          by eexists. }
    by rewrite string_ltb_irrefl in Hlt.
  - exfalso. apply (lookup_weaken _ fs1) in Hl; [|done].
    apply isdir_lookup in Hdir; [congruence|]. by destruct destination_dir.
Qed.

Lemma own_snapshot_is_dir : isdir fs1 backup_path = true.
Proof.
  apply os_makedirs_spec in Hmade as (_ & _ & _ & Hdir). by apply Hdir.
Qed.

Lemma own_snapshot_is_empty p : p ≠ [] → fs1 !! (backup_path ++ p) = None.
Proof.
  intros Hp. apply eq_None_not_Some. intros Hsome.
  pose proof own_snapshot_is_new as Hnew.
  apply os_makedirs_spec in Hmade as (_ & _ & [_ Hgrow] & _).
  destruct (Hgrow _ Hsome) as [Hold|[_ (k & _ & Hk)]].
  - apply (fs_wf_ancestor fs backup_path p) in Hold; [|done..].
    apply isdir_lookup in Hold; [congruence|]. by destruct destination_dir.
  - apply (f_equal length) in Hk. rewrite length_take, length_app in Hk.
    destruct p; [done|]. simpl in Hk. lia.
Qed.

Lemma own_snapshot_entries entry :
  is_Some (fs1 !! (destination_dir ++ [entry])) →
  is_Some (fs !! (destination_dir ++ [entry])) ∨ entry = strftime now.
Proof.
  intros Hsome.
  apply os_makedirs_spec in Hmade as (_ & _ & [_ Hgrow] & _).
  destruct (Hgrow _ Hsome) as [Hold|[_ (k & _ & Hk)]]; [by left|].
  right. assert (Hlen : length backup_path ≤ k).
  { apply (f_equal length) in Hk. rewrite length_take in Hk.
    unfold backup_path in *. rewrite !length_app in *. simpl in *. lia. }
  rewrite take_ge in Hk by done. unfold backup_path in Hk.
  by apply app_inj_tail in Hk as [_ ?].
Qed.

(** The discovery, run after the snapshot directory of the run is made,
    finds this very directory. *)
Lemma find_latest_backup_own :
  F (SysListdir destination_dir) = None →
  find_latest_backup F destination_dir fs1 = (fs1, [], Ok (Some backup_path)).
Proof.
  intros HF.
  assert (Hsub : fs ⊆ fs1).
  { by apply os_makedirs_spec in Hmade as (_ & _ & [? _] & _). }
  pose proof own_snapshot_is_dir as Hdir.
  rewrite find_latest_backup_listed; [|done|by eapply isdir_weaken].
  destruct (sort_reverse_head
              (backup_folders_of fs1 destination_dir
                 (entries fs1 destination_dir)) (strftime now))
    as [rest ->]; [| |done].
  - apply list_elem_of_filter. split.
    + unfold is_backup_folder. apply andb_true_iff. split; [done|].
      apply bool_decide_eq_true. rewrite strptime_strftime by done.
      by eexists.
    + apply elem_of_entries. apply isdir_exists in Hdir.
      apply path_exists_lookup in Hdir; [done|]. by destruct destination_dir.
  - intros entry [Hok Hin]%list_elem_of_filter.
    unfold String.le. apply Is_true_true.
    apply elem_of_entries in Hin.
    destruct (own_snapshot_entries entry Hin) as [Hold| ->];
      [|apply string_leb_refl].
    apply string_ltb_leb, Holder; [by apply elem_of_entries|].
    unfold is_backup_folder in *.
    apply andb_true_iff in Hok as [Hd Hparse].
    apply andb_true_iff. split; [|done].
    destruct Hold as [n Hn]. apply isdir_lookup.
    { by destruct destination_dir. }
    apply isdir_lookup in Hd; [|by destruct destination_dir].
    apply (lookup_weaken _ fs1) in Hn as Hn1; [|done]. congruence.
Qed.
End own_snapshot.

(** ** No file is found in a baseline that is the snapshot being written *)

Lemma copy_file_not_skipping F dry_run source_file destination_file
    relative_path l fs fs' o r :
  copy_file F dry_run source_file destination_file relative_path l fs
  = (fs', o, r) →
  Forall not_skipping o.
Proof.
  intros H. apply copy_file_spec in H
    as (fs1 & r1 & _ & [(e & _ & _ & -> & _)
                       |[(_ & _ & _ & -> & _)
                        |[(_ & _ & _ & -> & _)
                         |(_ & _ & _ & e & _ & -> & _)]]]).
  - done.
  - by repeat constructor.
  - by repeat constructor.
  - unfold copy_failure_report.
    destruct (is_SameFileError e), (is_PermissionError e);
      by repeat constructor.
Qed.

(** What [copy_file] adds when its destination does not exist: leading
    parts of the destination. *)
Lemma copy_file_footprint F dry_run source_file destination_file
    relative_path l fs fs' o r :
  path_exists fs destination_file = false →
  copy_file F dry_run source_file destination_file relative_path l fs
  = (fs', o, r) →
  ∀ p, is_Some (fs' !! p) →
       is_Some (fs !! p) ∨ p `prefix_of` destination_file.
Proof.
  intros Hnew H.
  assert (Hne : destination_file ≠ []) by (by intros ->).
  apply copy_file_spec in H as (fs1 & r1 & Hm & Hcases).
  apply os_makedirs_spec in Hm as (_ & _ & [Hsub Hgrow] & _).
  assert (Hmk : ∀ p, is_Some (fs1 !! p) →
                     is_Some (fs !! p) ∨ p `prefix_of` destination_file).
  { intros p Hp. destruct (Hgrow p Hp) as [?|[_ (k & _ & ->)]]; [by left|].
    right. unfold dirname. rewrite take_take.
    apply prefix_take. }
  assert (Hdst : fs1 !! destination_file = None).
  { apply eq_None_not_Some. intros Hsome.
    destruct (Hgrow _ Hsome) as [Hold|[_ (k & _ & Hk)]].
    - apply path_exists_false_lookup in Hnew. rewrite Hnew in Hold.
      by destruct Hold.
    - apply (f_equal length) in Hk. unfold dirname in Hk.
      rewrite !length_take in Hk. destruct destination_file; [done|].
      simpl in Hk. lia. }
  destruct Hcases
    as [(e & _ & -> & _)
       |[(_ & _ & -> & _)
        |[(_ & _ & Hc & _)|(_ & _ & -> & _)]]]; try done.
  apply shutil_copy2_spec in Hc as (_ & _ & [(e & ? & _)|(data & _ & _ & _ & ->)]);
    [done|].
  assert (Ht : copy2_target fs1 source_file destination_file = destination_file).
  { unfold copy2_target.
    assert (isdir fs1 destination_file = false) as ->; [|done].
    unfold isdir, fs_node. destruct destination_file; [done|].
    by rewrite Hdst. }
  rewrite Ht. intros p Hp.
  destruct (decide (p = destination_file)) as [->|Hneq]; [by right|].
  rewrite lookup_insert_ne in Hp by done. by apply Hmk.
Qed.

Section walk.
Context (F : faults) (source_dir backup_path : path) (dry_run : bool).

Lemma process_file_walk_inv top stack nondirs filename rest l fs fs' o r :
  source_dir `prefix_of` top → NoDup nondirs →
  files_inv source_dir backup_path top stack nondirs (filename :: rest) fs →
  process_file F source_dir backup_path false (Some backup_path) dry_run top
    filename l fs = (fs', o, r) →
  Forall not_skipping o
  ∧ files_inv source_dir backup_path top stack nondirs rest fs'.
Proof.
  intros [d ->] Hnd (done & -> & Hinv) H.
  apply process_file_inv in H as (o1 & r1 & Hc & H).
  assert (Hrel : relpath ((source_dir ++ d) ++ [filename]) source_dir
                 = d ++ [filename]).
  { rewrite <- app_assoc. apply relpath_app. }
  rewrite Hrel in *.
  assert (Hnew : path_exists fs (backup_path ++ d ++ [filename]) = false).
  { destruct (path_exists fs (backup_path ++ d ++ [filename])) eqn:Hex;
      [|done].
    exfalso. apply path_exists_lookup in Hex;
      [|intros Heq; apply app_eq_nil in Heq as [_ Heq];
        by apply app_eq_nil in Heq as [_ ?]].
    destruct (Hinv (d ++ [filename])) as [Hno|(f & Hf & Hp)]; [|done| |].
    - intros Heq. by apply app_eq_nil in Heq as [_ ?].
    - apply (Hno (source_dir ++ d)); [left|].
      rewrite app_assoc. by apply prefix_app_r.
    - rewrite (app_assoc source_dir) in Hp.
      apply prefix_length_eq in Hp; [|by rewrite !length_app].
      apply app_inj_tail in Hp as [_ <-].
      apply NoDup_app in Hnd as (_ & Hdisj & _).
      apply (Hdisj filename Hf). left. }
  apply check_incremental_spec in Hc
    as [_ [[-> ->]|(latest & _ & [= <-] & Hex & _)]]; [|congruence].
  destruct H as (o2 & Hcopy & ->).
  split; [by apply copy_file_not_skipping in Hcopy|].
  exists (done ++ [filename]). split; [by rewrite <- app_assoc|].
  intros s Hs Hsome.
  destruct (copy_file_footprint _ _ _ _ _ _ _ _ _ _ Hnew Hcopy _ Hsome)
    as [Hold|Hp].
  - destruct (Hinv s Hs Hold) as [?|(f & Hf & Hp)]; [by left|].
    right. exists f. split; [|done]. apply elem_of_app. by left.
  - right. exists filename. split; [apply elem_of_app; right; left|].
    apply prefix_app_inv in Hp. rewrite <- !app_assoc.
    by apply prefix_app.
Qed.

Lemma for_files_walk_inv top stack l fs fs' o r :
  walk_inv source_dir backup_path (top :: stack) fs →
  for_files
    (process_file F source_dir backup_path false (Some backup_path) dry_run
       top)
    (scan_nondirs (scan fs top)) l fs = (fs', o, r) →
  Forall not_skipping o
  ∧ ∀ l', r = Ok l' →
      walk_inv source_dir backup_path
        (map (λ d, top ++ [d]) (scan_dirs (scan fs top)) ++ stack) fs'.
Proof.
  intros (Hpre & [Htop Hanti] & Hk) H.
  set (nondirs := scan_nondirs (scan fs top)) in *.
  set (dirs := scan_dirs (scan fs top)) in *.
  assert (Hsrc : source_dir `prefix_of` top) by (apply Hpre; left).
  apply (for_files_invariant_gen
           (λ rest fs0 _,
              files_inv source_dir backup_path top stack nondirs rest fs0)
           (λ _ _, True) not_skipping) in H; [|done|done| |].
  - destruct H as (Ho & _ & Hend). split; [done|].
    intros l' Hr. destruct (Hend l' Hr) as (done & Hdone & Hinv).
    rewrite app_nil_r in Hdone. subst done. clear Hk Hend.
    split; [|split].
    + intros q [(n & -> & _)%list_elem_of_fmap|Hq]%elem_of_app.
      * by apply prefix_app_r.
      * apply Hpre. by right.
    + apply antichain_app; [|done|].
      * apply antichain_children, NoDup_scan_dirs.
      * intros a b (n & -> & _)%list_elem_of_fmap Hb.
        destruct (Htop b Hb) as [H1 H2]. split.
        -- intros Hp. apply H1. by apply prefix_app_l in Hp.
        -- intros [Hp| ->]%prefix_snoc_inv; [done|].
           apply H1. by apply prefix_app_r.
    + intros s Hs Hsome q Hq Hp.
      destruct (Hinv s Hs Hsome) as [Hno|(f & Hf & Hpf)].
      * apply elem_of_app in Hq as [(n & -> & _)%list_elem_of_fmap|Hq].
        -- apply (Hno top); [left|]. by apply prefix_app_l in Hp.
        -- apply (Hno q); [by right|done].
      * assert (Hqf : q `prefix_of` top ++ [f]) by (by etrans).
        apply elem_of_app in Hq as [(n & -> & Hn)%list_elem_of_fmap|Hq].
        -- apply prefix_length_eq in Hqf; [|by rewrite !length_app].
           apply app_inj_tail in Hqf as [_ ->].
           by apply (scan_dirs_nondirs_disjoint fs top f).
        -- destruct (Htop q Hq) as [H1 H2].
           apply prefix_snoc_inv in Hqf as [?| ->]; [done|].
           apply H1. by apply prefix_app_r.
  - intros f rest l0 fs0 fs0' o0 r0 Hinv0 Hp.
    apply (process_file_walk_inv top stack nondirs f rest) in Hp
      as [Ho0 Hinv1]; try done. apply NoDup_scan_nondirs.
  - exists []. split; [done|]. intros s Hs Hsome. left.
    intros q Hq. by apply Hk.
Qed.

(** The loop of an incremental run whose baseline is the snapshot it
    writes never prints that it skips a file. *)
Lemma traverse_not_skipping fuel l fs fs' o r :
  (∀ s, s ≠ [] → fs !! (backup_path ++ s) = None) →
  traverse F fuel source_dir backup_path false (Some backup_path) dry_run l
    fs = (fs', o, r) →
  Forall not_skipping o.
Proof.
  intros Hempty H. unfold traverse in H.
  apply (os_walk_invariant_gen
           (λ stack fs0 _, walk_inv source_dir backup_path stack fs0)
           (λ _ _, True) not_skipping) in H; try done.
  - by destruct H.
  - intros top stack l0 fs0 (Hpre & [_ Hanti] & Hk).
    split; [|split; [done|]].
    + intros q Hq. apply Hpre. by right.
    + intros s Hs Hsome q Hq. apply Hk; [done..|by right].
  - intros top stack l0 fs0 fs0' o0 r0 Hinv Hb.
    apply (for_files_walk_inv top stack) in Hb as [? ?]; done.
  - split; [|split].
    + by intros q ->%list_elem_of_singleton.
    + split; [|done]. intros q' Hq'. by apply elem_of_nil in Hq'.
    + intros s Hs Hsome. rewrite Hempty in Hsome by done.
      by destruct Hsome.
Qed.
End walk.

(** C3, amended.  An incremental run makes its snapshot directory before it
    looks for the latest backup.  When the name of this directory, the
    timestamp of the run, comes after the names of all the snapshots already
    in the destination, and the destination can be listed, the directory the
    discovery returns is the one the run has just made: its name parses as a
    timestamp, it holds nothing, and the run never finds a file in it and so
    never skips a file as identical. *)
Theorem incremental_baseline_is_own_snapshot F fuel now source_dir
    destination_dir dry_run fs fs1 :
  clock_reading now = true →
  fs_wf fs →
  isdir fs source_dir = true → isdir fs destination_dir = true →
  F (SysListdir destination_dir) = None →
  (∀ entry,
     entry ∈ entries fs destination_dir →
     is_backup_folder fs destination_dir entry = true →
     String.ltb entry (strftime now) = true) →
  os_makedirs F (destination_dir ++ [strftime now]) fs = (fs1, [], Ok tt) →
  let backup_path := destination_dir ++ [strftime now] in
  strptime (strftime now) = Some now
  ∧ find_latest_backup F destination_dir fs1
    = (fs1, [], Ok (Some backup_path))
  ∧ (∀ p, p ≠ [] → fs1 !! (backup_path ++ p) = None)
  ∧ ∀ fs' out r,
      run_backup F fuel now source_dir destination_dir false dry_run fs
      = (fs', out, r) →
      PrintComparing backup_path ∈ out
      ∧ ∀ relative_path, PrintSkipping relative_path ∉ out.
Proof.
  intros Hclock Hwf Hs Hd HF Holder Hm backup_path.
  assert (Hfind : find_latest_backup F destination_dir fs1
                  = (fs1, [], Ok (Some backup_path)))
    by (by apply (find_latest_backup_own F now destination_dir fs fs1)).
  assert (Hempty : ∀ p, p ≠ [] → fs1 !! (backup_path ++ p) = None)
    by (intros p Hp;
        by apply (own_snapshot_is_empty F now destination_dir fs fs1)).
  split; [by apply strptime_strftime|]. split; [done|]. split; [done|].
  intros fs' out r H.
  apply run_backup_inv in H as (fs1' & r1 & Hm' & H); [|done..].
  fold backup_path in Hm', H. unfold backup_path in Hm.
  fold backup_path in Hm. rewrite Hm in Hm'. injection Hm' as <- <-.
  destruct H as (o_b & latest & l0 & fs2 & o_t & r_t & Hr & Ht & H).
  apply resolve_baseline_spec in Hr
    as [_ [(? & _)|(_ & o_f & latest' & Hfind' & _ & Hr)]]; [done|].
  rewrite Hfind in Hfind'. injection Hfind' as <- <-.
  destruct Hr as [-> [= -> ->]].
  apply traverse_not_skipping in Ht; [|done].
  rewrite Forall_forall in Ht.
  assert (Hbanner : ∀ ev, ev ∈ banner dry_run → not_skipping ev).
  { intros ev. destruct dry_run; simpl.
    - by intros ->%list_elem_of_singleton.
    - by intros ?%elem_of_nil. }
  assert (Hpre : ∀ ev,
    ev ∈ banner dry_run ++ [PrintStarting false source_dir]
           ++ ([] ++ [PrintComparing backup_path]) ++ o_t →
    not_skipping ev).
  { intros ev. rewrite !elem_of_app, !list_elem_of_singleton.
    intros [?|[->|[[?%elem_of_nil| ->]|?]]]; try done; auto. }
  destruct r_t as [l|e|].
  - destruct H as (o_w & Hw & -> & ->). split.
    + rewrite !elem_of_app, !list_elem_of_singleton. auto 10.
    + intros rel Hin. apply write_log_spec in Hw as (_ & _ & Ho_w).
      rewrite !app_assoc in Hin. apply elem_of_app in Hin as [Hin|Hin].
      * apply elem_of_app in Hin as [Hin|Hin].
        -- rewrite <- !app_assoc in Hin. by apply (Hpre _ Hin rel).
        -- destruct Ho_w as [[-> _]|(e & -> & _)];
             by apply list_elem_of_singleton in Hin.
      * by apply list_elem_of_singleton in Hin.
  - destruct H as (_ & _ & ->). split.
    + rewrite !elem_of_app, !list_elem_of_singleton. auto 10.
    + intros rel Hin. by apply (Hpre _ Hin rel).
  - destruct H as (_ & _ & ->). split.
    + rewrite !elem_of_app, !list_elem_of_singleton. auto 10.
    + intros rel Hin. by apply (Hpre _ Hin rel).
Qed.

(** C8, at a failing input.  An incremental run on a destination that holds
    no snapshot does not degrade to a full backup: the run has made its own
    snapshot directory before it looks for the latest one, finds it, prints
    that it compares with it and appends the line that says so to its log.
    Neither the console nor the log says that no previous backup was found.
    The log file the run saves holds these lines, and a run that prints its
    summary and meets no failure on its log file has saved it. *)
Theorem incremental_on_fresh_destination_finds_itself F fuel now source_dir
    destination_dir dry_run fs fs1 :
  clock_reading now = true →
  fs_wf fs →
  isdir fs source_dir = true → isdir fs destination_dir = true →
  F (SysListdir destination_dir) = None →
  (∀ entry,
     entry ∈ entries fs destination_dir →
     is_backup_folder fs destination_dir entry = false) →
  os_makedirs F (destination_dir ++ [strftime now]) fs = (fs1, [], Ok tt) →
  let backup_path := destination_dir ++ [strftime now] in
  let log_file_path := backup_path ++ ["backup_log.txt"] in
  find_latest_backup F destination_dir fs = (fs, [], Ok None)
  ∧ find_latest_backup F destination_dir fs1 = (fs1, [], Ok (Some backup_path))
  ∧ ∀ fs' out r,
      run_backup F fuel now source_dir destination_dir false dry_run fs
      = (fs', out, r) →
      PrintComparing backup_path ∈ out
      ∧ (PrintNoPrevious ∉ out)
      ∧ LogIncremental backup_path ∈ log_of_events out
      ∧ (LogNoPrevious ∉ log_of_events out)
      ∧ (PrintLogSaved log_file_path ∈ out →
         fs' !! log_file_path
         = Some (File (String.concat ""
                         (log_header (strftime now) source_dir destination_dir
                            false dry_run
                          ++ log_lines
                               (LogCreated backup_path :: log_of_events out)))))
      ∧ (∀ total copied skipped dry,
           PrintSummary total copied skipped dry ∈ out →
           F (SysOpen log_file_path) = None →
           (∀ k, F (SysWrite log_file_path k) = None) →
           isdir fs' log_file_path = false →
           PrintLogSaved log_file_path ∈ out).
Proof.
  intros Hclock Hwf Hs Hd HF Hnone Hm backup_path log_file_path.
  assert (Hfind : find_latest_backup F destination_dir fs1
                  = (fs1, [], Ok (Some backup_path))).
  { apply (find_latest_backup_own F now destination_dir fs fs1); try done.
    intros entry Hin Hok. by rewrite (Hnone entry Hin) in Hok. }
  split.
  { rewrite find_latest_backup_listed by done.
    assert (backup_folders_of fs destination_dir (entries fs destination_dir)
            = []) as ->; [|done].
    unfold backup_folders_of.
    induction (entries fs destination_dir) as [|entry rest IH]; [done|].
    rewrite filter_cons, decide_False.
    - apply IH. intros e He. apply Hnone. by apply list_elem_of_further.
    - rewrite Hnone; [done|]. apply list_elem_of_here. }
  split; [done|]. intros fs' out r H.
  assert (Hcomparing : PrintComparing backup_path ∈ out
                       ∧ PrintNoPrevious ∉ out).
  { apply run_backup_inv in H as (fs1' & r1 & Hm' & H); [|done..].
    fold backup_path in Hm', H. unfold backup_path in Hm.
    fold backup_path in Hm. rewrite Hm in Hm'. injection Hm' as <- <-.
    destruct H as (o_b & latest & l0 & fs2 & o_t & r_t & Hr & Ht & H).
    apply resolve_baseline_events in Hr as Hcount.
    destruct Hcount as [_ Hcount].
    destruct (Hcount latest l0 eq_refl) as (Ht0 & Hc0 & Hs0).
    simpl in Ht0, Hc0, Hs0.
    apply resolve_baseline_spec in Hr
      as [_ [(? & _)|(_ & o_f & latest' & Hfind' & _ & Hr)]]; [done|].
    rewrite Hfind in Hfind'. injection Hfind' as <- <-.
    destruct Hr as [-> [= -> ->]].
    apply traverse_balanced in Ht as [Ho_t _]; [|unfold balanced; simpl; lia].
    rewrite Forall_forall in Ho_t.
    assert (Hbanner : PrintNoPrevious ∉ banner dry_run).
    { destruct dry_run; simpl; [by rewrite list_elem_of_singleton|].
      apply not_elem_of_nil. }
    assert (Hpre : PrintNoPrevious
                   ∉ banner dry_run ++ [PrintStarting false source_dir]
                     ++ ([] ++ [PrintComparing backup_path]) ++ o_t).
    { rewrite !elem_of_app, !list_elem_of_singleton.
      intros [?|[?|[[?%elem_of_nil|?]|Hi]]]; try done.
      by specialize (Ho_t _ Hi). }
    destruct r_t as [l|e|].
    - destruct H as (o_w & Hw & -> & ->). split.
      + rewrite !elem_of_app, !list_elem_of_singleton. auto 10.
      + intros Hin. apply write_log_spec in Hw as (_ & _ & Ho_w).
        rewrite !app_assoc in Hin. apply elem_of_app in Hin as [Hin|Hin].
        * apply elem_of_app in Hin as [Hin|Hin].
          -- by rewrite <- !app_assoc in Hin.
          -- destruct Ho_w as [[-> _]|(e & -> & _)];
               by apply list_elem_of_singleton in Hin.
        * by apply list_elem_of_singleton in Hin.
    - destruct H as (_ & _ & ->). split; [|done].
      rewrite !elem_of_app, !list_elem_of_singleton. auto 10.
    - destruct H as (_ & _ & ->). split; [|done].
      rewrite !elem_of_app, !list_elem_of_singleton. auto 10. }
  destruct Hcomparing as [Hyes Hno].
  split; [done|]. split; [done|]. split; [|split; [|split]].
  - apply list_elem_of_omap. by exists (PrintComparing backup_path).
  - intros (ev & Hin & Hev)%list_elem_of_omap.
    by destruct ev; simplify_eq.
  - intros Hsaved.
    exact (run_backup_log_content F fuel now source_dir destination_dir false
             dry_run fs fs' out r H Hsaved).
  - intros total copied skipped dry Hsummary Hopen Hwrite Hlog.
    exact (run_backup_saves_log F fuel now source_dir destination_dir false
             dry_run fs fs' out r total copied skipped dry H Hsummary Hopen
             Hwrite Hlog).
Qed.

(** ** The log file *)








(** ** What a dry run keeps *)

Local Instance keeps_files_refl : Reflexive keeps_files.
Proof. by intros fs p data. Qed.

Local Instance keeps_files_trans : Transitive keeps_files.
Proof. intros fs1 fs2 fs3 H12 H23 p data Hp. by apply H12, H23. Qed.

Lemma grows_by_dirs_keeps_files name n fs fs' :
  grows_by_dirs name n fs fs' → keeps_files fs fs'.
Proof.
  intros [Hsub Hgrow] p data Hp.
  destruct (Hgrow p) as [[node Hold]|[Hdir _]]; [by eexists| |congruence].
  pose proof (lookup_weaken _ _ _ _ Hold Hsub). congruence.
Qed.

Lemma process_file_dry_run F source_dir backup_path full_backup
    latest_backup_dir root filename l fs fs' o r :
  process_file F source_dir backup_path full_backup latest_backup_dir true
    root filename l fs = (fs', o, r) →
  keeps_files fs fs'.
Proof.
  intros H. apply process_file_inv in H as (o1 & r1 & _ & H).
  destruct r1 as [[[] l1]|e|]; [by destruct H as (-> & _)| |
                                by destruct H as (-> & _)|done].
  destruct H as (o2 & Hcopy & _).
  apply copy_file_spec in Hcopy as (fs1 & r1 & Hm & Hcases).
  apply os_makedirs_spec in Hm as (_ & _ & Hgrow & _).
  apply grows_by_dirs_keeps_files in Hgrow.
  by destruct Hcases
    as [(e & _ & -> & _)
       |[(_ & _ & -> & _)|[(_ & ? & _)|(_ & ? & _)]]].
Qed.

Lemma traverse_dry_run F fuel source_dir backup_path full_backup
    latest_backup_dir l fs fs' o r :
  traverse F fuel source_dir backup_path full_backup latest_backup_dir true l
    fs = (fs', o, r) →
  keeps_files fs fs'.
Proof.
  intros H. unfold traverse in H.
  apply (os_walk_invariant_gen (λ _ _ _, True) keeps_files (λ _, True)) in H;
    try done; try apply _.
  - by destruct H as (_ & ? & _).
  - intros top stack l0 fs0 fs0' o0 r0 _ Hb.
    apply (for_files_invariant_gen (λ _ _ _, True) keeps_files (λ _, True))
      in Hb; try done; try apply _.
    intros f rest l1 fs1 fs1' o1 r1 _ Hp.
    apply process_file_dry_run in Hp. split; [|done].
    apply Forall_forall. done.
Qed.

(** A dry run copies nothing: the only regular file it writes is its log;
    every other regular file of the file system after the run was there
    before the run, with the same content. *)
Lemma dry_run_writes_only_the_log F fuel now source_dir destination_dir
    full_backup fs fs' out r :
  run_backup F fuel now source_dir destination_dir full_backup true fs
  = (fs', out, r) →
  ∀ p data,
    fs' !! p = Some (File data) →
    p = destination_dir ++ [strftime now] ++ ["backup_log.txt"]
    ∨ fs !! p = Some (File data).
Proof.
  intros H p data Hp.
  destruct (decide (p = destination_dir ++ [strftime now] ++ ["backup_log.txt"]))
    as [->|Hne]; [by left|right].
  destruct (isdir fs source_dir) eqn:Hs;
    [destruct (isdir fs destination_dir) eqn:Hd|].
  - apply run_backup_inv in H as (fs1 & r1 & Hm & H); [|done..].
    apply os_makedirs_spec in Hm as (_ & _ & Hgrow & _).
    apply grows_by_dirs_keeps_files in Hgrow.
    destruct r1 as [[]|e|]; [| |done].
    + destruct H as (o_b & latest & l0 & fs2 & o_t & r_t & _ & Ht & H).
      apply traverse_dry_run in Ht.
      apply Hgrow, Ht.
      destruct r_t as [l|e|]; [|by destruct H as (-> & _)..].
      destruct H as (o_w & Hw & _).
      apply write_log_spec in Hw as (_ & Hframe & _).
      rewrite <- Hframe; [done|]. by rewrite <- app_assoc.
    + destruct H as [-> _]. by apply Hgrow.
  - rewrite run_backup_rejects in H by (by right). by injection H as <- _ _.
  - rewrite run_backup_rejects in H by (by left). by injection H as <- _ _.
Qed.

(** * Instances *)

(** ** Checks on concrete file systems *)

Lemma fs_wf_b_correct fs : fs_wf_b fs = true → fs_wf fs.
Proof.
  unfold fs_wf_b. rewrite forallb_forall. intros Hall p name [n Hn].
  apply elem_of_map_to_list, list_elem_of_In, Hall in Hn.
  simpl in Hn. rewrite dirname_snoc in Hn. by destruct (p ++ [name]) eqn:Hp;
    [apply app_eq_nil in Hp as [_ ?]|].
Qed.

Lemma older_snapshots_b_correct fs destination_dir timestamp :
  older_snapshots_b fs destination_dir timestamp = true →
  ∀ entry,
    entry ∈ entries fs destination_dir →
    is_backup_folder fs destination_dir entry = true →
    String.ltb entry timestamp = true.
Proof.
  unfold older_snapshots_b. rewrite forallb_forall.
  intros Hall entry Hin Hok. apply list_elem_of_In, Hall in Hin.
  by rewrite Hok in Hin.
Qed.

Lemma no_snapshots_b_correct fs destination_dir :
  no_snapshots_b fs destination_dir = true →
  ∀ entry,
    entry ∈ entries fs destination_dir →
    is_backup_folder fs destination_dir entry = false.
Proof.
  unfold no_snapshots_b. rewrite forallb_forall.
  intros Hall entry Hin. apply list_elem_of_In, Hall in Hin.
  by apply negb_true_iff in Hin.
Qed.

Ltac in_list :=
  repeat first [apply list_elem_of_here | apply list_elem_of_further].

Ltac not_in_list :=
  let H := fresh in
  intros H;
  repeat (apply elem_of_cons in H as [H|H]; [discriminate H|]);
  exact (proj1 (elem_of_nil _) H).

Lemma run_triple {A} (x : filesystem * list event * result A) :
  x = (x.1.1, x.1.2, x.2).
Proof. by destruct x as [[? ?] ?]. Defined.

(** ** A source with notes, and an older snapshot of it *)

Lemma check_incremental_decision_witness :
  check_incremental no_faults true (Some notes_snapshot)
    ["src"; "notes.txt"] ["notes.txt"] first_file notes_example
  = (notes_example, [], Ok (COPY, first_file))
  ∧ check_incremental no_faults false (Some notes_snapshot)
      ["src"; "new.txt"] ["new.txt"] first_file notes_example
    = (notes_example, [], Ok (COPY, first_file))
  ∧ check_incremental no_faults false (Some notes_snapshot)
      ["src"; "notes.txt"] ["notes.txt"] first_file notes_example
    = (notes_example, [PrintSkipping ["notes.txt"]],
       Ok (SKIP,
           incr_skipped
             (log_append (LogSkippedIdentical ["notes.txt"]) first_file)))
  ∧ check_incremental no_faults false (Some notes_snapshot)
      ["src"; "todo.txt"] ["todo.txt"] first_file notes_example
    = (notes_example, [PrintUpdated ["todo.txt"]],
       Ok (COPY, log_append (LogUpdated ["todo.txt"]) first_file))
  ∧ check_incremental notes_unreadable false (Some notes_snapshot)
      ["src"; "notes.txt"] ["notes.txt"] first_file notes_example
    = (notes_example, [ErrSizeCheck ["notes.txt"] stat_fails],
       Ok (COPY, first_file)).
Proof.
  assert (Hnotes : os_path_getsize no_faults ["src"; "notes.txt"] notes_example
                   = (notes_example, [], Ok 5)).
  { apply (os_path_getsize_ok _ _ _ (File "hello"));
      vm_compute; reflexivity. }
  assert (Hnotes' : os_path_getsize no_faults (notes_snapshot ++ ["notes.txt"])
                      notes_example
                    = (notes_example, [], Ok 5)).
  { apply (os_path_getsize_ok _ _ _ (File "HELLO"));
      vm_compute; reflexivity. }
  assert (Htodo : os_path_getsize no_faults ["src"; "todo.txt"] notes_example
                  = (notes_example, [], Ok 13)).
  { apply (os_path_getsize_ok _ _ _ (File "a longer text"));
      vm_compute; reflexivity. }
  assert (Htodo' : os_path_getsize no_faults (notes_snapshot ++ ["todo.txt"])
                     notes_example
                   = (notes_example, [], Ok 5)).
  { apply (os_path_getsize_ok _ _ _ (File "short"));
      vm_compute; reflexivity. }
  assert (Hfails : os_path_getsize notes_unreadable ["src"; "notes.txt"]
                     notes_example
                   = (notes_example, [], Raise stat_fails)).
  { apply os_path_getsize_fault. vm_compute. reflexivity. }
  split; [|split; [|split; [|split]]].
  - exact (proj1
             (check_incremental_decision no_faults true (Some notes_snapshot)
                ["src"; "notes.txt"] ["notes.txt"] first_file notes_example)
             (or_introl eq_refl)).
  - refine (proj1 (proj1 (proj2
              (check_incremental_decision no_faults false
                 (Some notes_snapshot) ["src"; "new.txt"] ["new.txt"]
                 first_file notes_example))
              notes_snapshot eq_refl eq_refl) _).
    vm_compute. reflexivity.
  - refine (proj1 (proj1 (proj2 (proj1 (proj2
              (check_incremental_decision no_faults false
                 (Some notes_snapshot) ["src"; "notes.txt"] ["notes.txt"]
                 first_file notes_example))
              notes_snapshot eq_refl eq_refl)) _ 5 5 Hnotes Hnotes') eq_refl).
    vm_compute. reflexivity.
  - refine (proj2 (proj1 (proj2 (proj1 (proj2
              (check_incremental_decision no_faults false
                 (Some notes_snapshot) ["src"; "todo.txt"] ["todo.txt"]
                 first_file notes_example))
              notes_snapshot eq_refl eq_refl)) _ 13 5 Htodo Htodo') _).
    + vm_compute. reflexivity.
    + intros H. discriminate H.
  - refine (proj1 (proj2 (proj2 (proj1 (proj2
              (check_incremental_decision notes_unreadable false
                 (Some notes_snapshot) ["src"; "notes.txt"] ["notes.txt"]
                 first_file notes_example))
              notes_snapshot eq_refl eq_refl)) _ stat_fails eq_refl
              (or_introl Hfails))).
    vm_compute. reflexivity.
Defined.

Lemma summary_counts_consistent_witness :
  PrintSummary 10 9 1 false
  ∈ (run_backup ten_files_faults 1 ten_files_now ["src"] ["dst"] true false
       ten_files).1.2
  ∧ 10 = 9 + 1.
Proof.
  assert (Hin : PrintSummary 10 9 1 false
                ∈ (run_backup ten_files_faults 1 ten_files_now ["src"] ["dst"]
                     true false ten_files).1.2).
  { vm_compute. in_list. }
  split; [exact Hin|].
  exact (summary_counts_consistent ten_files_faults 1 ten_files_now ["src"]
           ["dst"] true false ten_files _ _ _ 10 9 1 false
           (run_triple _) Hin).
Defined.

Lemma incremental_baseline_is_own_snapshot_witness :
  let backup_path := ["dst"] ++ [strftime ten_files_now] in
  strptime (strftime ten_files_now) = Some ten_files_now
  ∧ find_latest_backup no_faults ["dst"] (<[backup_path := Dir]> notes_example)
    = (<[backup_path := Dir]> notes_example, [], Ok (Some backup_path))
  ∧ (∀ p, p ≠ [] →
          <[backup_path := Dir]> notes_example !! (backup_path ++ p) = None)
  ∧ ∀ fs' out r,
      run_backup no_faults 2 ten_files_now ["src"] ["dst"] false false
        notes_example = (fs', out, r) →
      PrintComparing backup_path ∈ out
      ∧ ∀ relative_path, PrintSkipping relative_path ∉ out.
Proof.
  apply (incremental_baseline_is_own_snapshot no_faults 2 ten_files_now
           ["src"] ["dst"] false notes_example
           (<[["dst"] ++ [strftime ten_files_now] := Dir]> notes_example)).
  - vm_compute. reflexivity.
  - apply fs_wf_b_correct. vm_compute. reflexivity.
  - vm_compute. reflexivity.
  - vm_compute. reflexivity.
  - reflexivity.
  - apply older_snapshots_b_correct. vm_compute. reflexivity.
  - apply os_makedirs_fresh; vm_compute; reflexivity.
Defined.


(** ** The ten files, after the snapshot directory was made *)

Lemma copy_failure_isolated_witness :
  copy_file ten_files_faults false ["src"; "f3"]
    ["dst"; "2024-03-01_12-00-00"; "f3"] ["f3"] first_file ten_files_snapshot
  = (ten_files_snapshot, [ErrPermission ["f3"]],
     Ok (incr_skipped (log_append (LogPermission ["f3"]) first_file))).
Proof.
  assert (Hm : os_makedirs ten_files_faults
                 (dirname ["dst"; "2024-03-01_12-00-00"; "f3"])
                 ten_files_snapshot
               = (ten_files_snapshot, [], Ok tt)).
  { apply (os_makedirs_existing ten_files_faults ["dst"]
             "2024-03-01_12-00-00" ten_files_snapshot).
    - intros e He. vm_compute in He. discriminate He.
    - vm_compute. reflexivity.
    - vm_compute. reflexivity. }
  assert (Hc : shutil_copy2 ten_files_faults ["src"; "f3"]
                 ["dst"; "2024-03-01_12-00-00"; "f3"] ten_files_snapshot
               = (ten_files_snapshot, [], Raise f3_denied)).
  { apply shutil_copy2_fault. vm_compute. reflexivity. }
  exact (proj1 (proj1 copy_failure_isolated ten_files_faults ["src"; "f3"]
                  ["dst"; "2024-03-01_12-00-00"; "f3"] ["f3"] first_file
                  ten_files_snapshot ten_files_snapshot f3_denied Hm Hc)).
Defined.

(** ** An incremental run on a destination without snapshots *)

Lemma incremental_on_fresh_destination_finds_itself_witness :
  let backup_path := ["dst"] ++ [strftime ten_files_now] in
  let log_file_path := backup_path ++ ["backup_log.txt"] in
  let run :=
    run_backup no_faults 1 ten_files_now ["src"] ["dst"] false false
      ten_files in
  entries ten_files ["dst"] = []
  ∧ find_latest_backup no_faults ["dst"] ten_files = (ten_files, [], Ok None)
  ∧ PrintComparing backup_path ∈ run.1.2
  ∧ (PrintNoPrevious ∉ run.1.2)
  ∧ LogIncremental backup_path ∈ log_of_events run.1.2
  ∧ (LogNoPrevious ∉ log_of_events run.1.2)
  ∧ PrintLogSaved log_file_path ∈ run.1.2
  ∧ run.1.1 !! log_file_path
    = Some (File (String.concat ""
                    (log_header (strftime ten_files_now) ["src"] ["dst"] false
                       false
                     ++ log_lines
                          (LogCreated backup_path :: log_of_events run.1.2)))).
Proof.
  intros backup_path log_file_path run.
  destruct (incremental_on_fresh_destination_finds_itself no_faults 1
              ten_files_now ["src"] ["dst"] false ten_files
              (<[backup_path := Dir]> ten_files))
    as (Hbefore & _ & Hrun).
  - vm_compute. reflexivity.
  - apply fs_wf_b_correct. vm_compute. reflexivity.
  - vm_compute. reflexivity.
  - vm_compute. reflexivity.
  - reflexivity.
  - apply no_snapshots_b_correct. vm_compute. reflexivity.
  - apply os_makedirs_fresh; vm_compute; reflexivity.
  - destruct (Hrun run.1.1 run.1.2 run.2 (run_triple run))
      as (Hcomparing & Hno & Hlog & Hnolog & Hcontent & Hsaved).
    assert (Hin : PrintLogSaved log_file_path ∈ run.1.2).
    { apply (Hsaved 10 10 0 false).
      - vm_compute. in_list.
      - reflexivity.
      - intros k. reflexivity.
      - vm_compute. reflexivity. }
    split; [vm_compute; reflexivity|].
    exact (conj Hbefore (conj Hcomparing (conj Hno (conj Hlog (conj Hnolog
             (conj Hin (Hcontent Hin))))))).
Defined.

(** ** A destination that cannot be listed *)

(** C3, counterexample.  The destination holds one snapshot, older than the
    run; the run makes its own snapshot directory, but the destination
    cannot be listed: the discovery reports the failure and returns [None],
    and the run says that it found no previous backup instead of comparing
    with its own directory. *)
Lemma unlistable_destination_has_no_baseline :
  let backup_path := ["dst"] ++ [strftime ten_files_now] in
  let run :=
    run_backup unlistable 2 ten_files_now ["src"] ["dst"] false false
      notes_example in
  older_snapshots_b notes_example ["dst"] (strftime ten_files_now) = true
  ∧ (os_makedirs unlistable backup_path notes_example).2 = Ok tt
  ∧ isdir (os_makedirs unlistable backup_path notes_example).1.1 backup_path
    = true
  ∧ (find_latest_backup unlistable ["dst"]
       (<[backup_path := Dir]> notes_example)).2 = Ok None
  ∧ (find_latest_backup unlistable ["dst"]
       (<[backup_path := Dir]> notes_example)).1.2
    = [ErrFindLatest listing_denied]
  ∧ PrintNoPrevious ∈ run.1.2
  ∧ PrintComparing backup_path ∉ run.1.2.
Proof.
  vm_compute. repeat split; try reflexivity; [in_list|not_in_list].
Qed.

Lemma incremental_without_baseline_is_full_witness :
  let run_i :=
    run_backup unlistable 2 ten_files_now ["src"] ["dst"] false false
      notes_example in
  let run_f :=
    run_backup unlistable 2 ten_files_now ["src"] ["dst"] true false
      notes_example in
  run_i.2 = run_f.2
  ∧ file_events run_i.1.2 = file_events run_f.1.2
  ∧ PrintNoPrevious ∈ run_i.1.2.
Proof.
  intros run_i run_f.
  pose proof (proj2 (incremental_without_baseline_is_full unlistable 2
                       ten_files_now ["src"] ["dst"] false notes_example)
                (<[["dst"] ++ [strftime ten_files_now] := Dir]> notes_example)
                [ErrFindLatest listing_denied]
                run_i.1.1 run_i.1.2 run_i.2 run_f.1.1 run_f.1.2 run_f.2) as H.
  destruct H as (Hr & Hfiles & _ & _ & Hno & _).
  - vm_compute. reflexivity.
  - vm_compute. reflexivity.
  - apply os_makedirs_fresh; vm_compute; reflexivity.
  - apply find_latest_backup_unlistable. vm_compute. reflexivity.
  - apply run_triple.
  - apply run_triple.
  - exact (conj Hr (conj Hfiles Hno)).
Defined.

Lemma run_backup_invalid_paths_witness :
  ∃ diagnostic,
    run_backup no_faults 1 ten_files_now ["missing"] ["dst"] false false
      ten_files
    = (ten_files, [diagnostic], Ok tt)
    ∧ is_stderr diagnostic = true
    ∧ (diagnostic = ErrSourceInvalid ["missing"]
       ∨ diagnostic = ErrDestinationInvalid ["dst"]).
Proof.
  apply run_backup_invalid_paths. left. vm_compute. reflexivity.
Defined.


(** * What a run leaves alone *)

Lemma extends_under_refl backup_path fs : extends_under backup_path fs fs.
Proof. by repeat split. Qed.

Lemma extends_under_trans backup_path fs1 fs2 fs3 :
  extends_under backup_path fs1 fs2 → extends_under backup_path fs2 fs3 →
  extends_under backup_path fs1 fs3.
Proof.
  intros (Ha1 & Hb1 & Hc1) (Ha2 & Hb2 & Hc2). repeat split.
  - intros p Hp. by rewrite Ha2, Ha1.
  - intros p Hp. by apply Hb2, Hb1.
  - intros p Hp. by apply Hc2, Hc1.
Qed.

Lemma isdir_false_lookup (fs : filesystem) q :
  isdir fs q = false → fs !! q ≠ Some Dir.
Proof.
  unfold isdir, fs_node. intros H Hq. destruct q; [done|]. by rewrite Hq in H.
Qed.

Lemma fs_wf_insert (fs : filesystem) q n :
  fs_wf fs → q ≠ [] → isdir fs (dirname q) = true →
  n = Dir ∨ isdir fs q = false →
  fs_wf (<[q := n]> fs).
Proof.
  intros Hwf Hq Hparent Hn p name Hsome.
  assert (Hp : isdir fs p = true).
  { destruct (decide (p ++ [name] = q)) as [<-|Hne].
    - by rewrite dirname_snoc in Hparent.
    - rewrite lookup_insert_ne in Hsome by done. by apply (Hwf p name). }
  destruct (decide (p = [])) as [->|Hnil]; [done|].
  apply isdir_lookup; [done|]. apply isdir_lookup in Hp; [|done].
  destruct (decide (p = q)) as [->|Hne].
  - rewrite lookup_insert_eq. destruct Hn as [->|Hn]; [done|].
    by apply isdir_false_lookup in Hn.
  - by rewrite lookup_insert_ne.
Qed.

Lemma adds_under_wf backup_path fs fs' :
  adds_under backup_path fs fs' → fs_wf fs → fs_wf fs'.
Proof.
  intros (q & n & _ & Hq & Hparent & Hn & ->) Hwf. by apply fs_wf_insert.
Qed.

Lemma adds_under_extends backup_path fs fs' :
  adds_under backup_path fs fs' → extends_under backup_path fs fs'.
Proof.
  intros (q & n & Hpre & Hq & Hparent & Hn & ->). repeat split.
  - intros p Hp. rewrite lookup_insert_ne; [done|]. by intros ->.
  - intros p Hp. destruct (decide (p = q)) as [->|Hne].
    + rewrite lookup_insert_eq. destruct Hn as [->|Hn]; [done|].
      by apply isdir_false_lookup in Hn.
    + by rewrite lookup_insert_ne.
  - intros p Hp. destruct (decide (p = q)) as [->|Hne].
    + by rewrite lookup_insert_eq.
    + by rewrite lookup_insert_ne.
Qed.

Lemma adds_under_rtc_wf backup_path fs fs' :
  rtc (adds_under backup_path) fs fs' → fs_wf fs → fs_wf fs'.
Proof.
  induction 1 as [|fs1 fs2 fs3 Hstep _ IH]; [done|].
  intros Hwf. by apply IH, (adds_under_wf backup_path fs1).
Qed.

Lemma adds_under_rtc_extends backup_path fs fs' :
  rtc (adds_under backup_path) fs fs' → extends_under backup_path fs fs'.
Proof.
  induction 1 as [|fs1 fs2 fs3 Hstep _ IH]; [apply extends_under_refl|].
  apply (extends_under_trans _ _ fs2); [|done]. by apply adds_under_extends.
Qed.

Lemma extends_under_isdir backup_path fs fs' p :
  extends_under backup_path fs fs' → isdir fs p = true → isdir fs' p = true.
Proof.
  intros (_ & Hdirs & _) Hp. destruct (decide (p = [])) as [->|Hne]; [done|].
  apply isdir_lookup; [done|]. apply Hdirs. by apply isdir_lookup.
Qed.

(** ** The steps of [os.makedirs] *)

Lemma os_mkdir_step F p fs fs' o r :
  os_mkdir F p fs = (fs', o, r) →
  (fs' = fs ∧ ∃ e, r = Raise e) ∨ (r = Ok tt ∧ mkdir_step fs fs' p).
Proof.
  unfold os_mkdir, mkdir_step, isdir. destruct (F (SysMkdir p)).
  { intros [= <- <- <-]. left. eauto. }
  destruct (path_exists fs p).
  { intros [= <- <- <-]. left. eauto. }
  destruct (fs_node fs (dirname p)) as [[|data]|]; intros [= <- <- <-];
    [by right|left; eauto..].
Qed.

Lemma mkdir_exist_ok_step F p fs fs' o r :
  try_except (os_mkdir F p) is_OSError
    (λ e, d <- os_path_isdir p ;; if d : bool then ret tt else raise e) fs
  = (fs', o, r) →
  fs' = fs ∨ mkdir_step fs fs' p.
Proof.
  intros H.
  apply try_except_inv in H
    as [[H _] | (fs1 & o1 & e & o2 & H & _ & Hh & ->)].
  - apply os_mkdir_step in H as [[-> _]|[_ ?]]; auto.
  - apply os_mkdir_step in H as [[-> _]|[? _]]; [|done].
    left. unfold bind, os_path_isdir in Hh.
    destruct (isdir fs p); unfold ret, raise in Hh; by simplify_eq.
Qed.

Lemma makedirs_upto_steps F name n fs fs' o r :
  makedirs_upto F name n fs = (fs', o, r) → makes_prefixes name fs fs'.
Proof.
  revert fs fs' o r. induction n as [|n IH]; intros fs fs' o r H.
  - simpl in H. unfold bind at 1 in H. simpl in H.
    destruct (try_except _ _ _ fs) as [[fs2 o2] r2] eqn:Hm.
    assert (fs2 = fs') as -> by (by destruct r2; simplify_eq).
    apply mkdir_exist_ok_step in Hm as [->|Hm]; [done|].
    apply rtc_once. by exists 0.
  - simpl in H.
    assert (Hhead : ∀ fs1 o1 (r1 : result ()),
      (head_exists <- os_path_exists (take n name) ;;
       if head_exists : bool then ret tt
       else try_except (makedirs_upto F name n) is_FileExistsError
              (λ _, ret tt)) fs = (fs1, o1, r1) →
      makes_prefixes name fs fs1).
    { intros fs1 o1 r1 Hh. unfold bind, os_path_exists in Hh.
      destruct (path_exists fs (take n name)).
      - unfold ret in Hh. by simplify_eq.
      - destruct (try_except _ _ _ fs) as [[fs3 o3] r3] eqn:Ht.
        assert (fs3 = fs1) as ->.
        { simpl in Hh. by destruct r3; simplify_eq. }
        apply try_except_inv in Ht
          as [[Ht _] | (fs4 & o4 & e & o5 & Ht & _ & Hx & ->)].
        + by apply IH in Ht.
        + apply IH in Ht. unfold ret in Hx. by simplify_eq. }
    apply bind_inv in H
      as [(fs1 & o1 & [] & o2 & Hm1 & Hm2 & ->) | [(e & Hm1 & ->) | [Hm1 ->]]].
    + apply Hhead in Hm1.
      apply mkdir_exist_ok_step in Hm2 as [->|Hm2]; [done|].
      eapply rtc_r; [done|]. by exists (S n).
    + by apply Hhead in Hm1.
    + by apply Hhead in Hm1.
Qed.

(** Below an existing directory [base], [os.makedirs] only makes
    directories under it. *)
Lemma makes_prefixes_under base rest name fs fs' :
  name `prefix_of` base ++ rest →
  makes_prefixes name fs fs' →
  fs_wf fs → isdir fs base = true →
  rtc (mkdir_under base name) fs fs'.
Proof.
  intros Hname Hsteps. induction Hsteps as [|fs1 fs2 fs3 Hstep _ IH];
    [done|].
  intros Hwf Hdir. destruct Hstep as (k & Hnew & Hparent & ->).
  assert (Hpre : base `prefix_of` take k name).
  { assert (take k name `prefix_of` base ++ rest) as Hk
      by (etrans; [apply prefix_take|done]).
    assert (base `prefix_of` base ++ rest) as Hb by (by apply prefix_app_r).
    destruct (prefix_weak_total _ _ _ Hk Hb) as [[s Hs]|Hbig]; [|done].
    exfalso. destruct (decide (s = [])) as [->|Hs'].
    - rewrite app_nil_r in Hs. rewrite <- Hs in Hnew.
      apply isdir_exists in Hdir. by rewrite Hdir in Hnew.
    - assert (base ≠ []) as Hne by (rewrite Hs; by destruct (take k name), s).
      assert (isdir fs1 (take k name) = true) as Hd.
      { apply (fs_wf_ancestor fs1 _ s); [done..|]. rewrite <- Hs.
        apply isdir_lookup in Hdir; [|done]. by rewrite Hdir. }
      apply isdir_exists in Hd. by rewrite Hd in Hnew. }
  eapply rtc_l.
  { exists (take k name).
    split; [done|split; [apply prefix_take|split; [done|by split]]]. }
  assert (Hadd : adds_under base fs1 (<[take k name := Dir]> fs1)).
  { exists (take k name), Dir.
    split; [done|split; [|split; [done|split; [by left|done]]]].
    intros Hnil. by rewrite Hnil in Hnew. }
  apply IH.
  - by apply (adds_under_wf base fs1).
  - apply (extends_under_isdir base fs1); [|done].
    by apply adds_under_extends.
Qed.

Lemma mkdir_under_adds base name fs fs' :
  mkdir_under base name fs fs' → adds_under base fs fs'.
Proof.
  intros (q & Hpre & _ & (Hnew & Hparent & ->) & _). exists q, Dir.
  split; [done|split; [|split; [done|split; [by left|done]]]].
  intros ->. done.
Qed.

Lemma mkdir_under_leaf destination_dir leaf fs fs' :
  mkdir_under destination_dir (destination_dir ++ [leaf]) fs fs' →
  adds_under (destination_dir ++ [leaf]) fs fs'.
Proof.
  intros (q & Hpre & Hq & (Hnew & Hparent & ->) & _ & Hdir). exists q, Dir.
  split; [|split; [|split; [done|split; [by left|done]]]].
  - apply prefix_snoc_inv in Hq as [Hq| ->]; [|done].
    assert (q = destination_dir) as -> by (by apply (anti_symm prefix)).
    apply isdir_exists in Hdir. by rewrite Hdir in Hnew.
  - intros ->. done.
Qed.

(** ** The steps of the copy *)

Lemma shutil_copy2_step F src dst fs fs' o r :
  shutil_copy2 F src dst fs = (fs', o, r) →
  fs' = fs
  ∨ ∃ q data,
      (q = dst ∨ q = dst ++ [basename src])
      ∧ fs_node fs (dirname q) = Some Dir ∧ fs_node fs q ≠ Some Dir
      ∧ fs' = <[q := File data]> fs.
Proof.
  unfold shutil_copy2. destruct (F (SysCopy src dst)).
  { intros [= <- <- <-]. by left. }
  set (dst' := if isdir fs dst then dst ++ [basename src] else dst).
  assert (dst' = dst ∨ dst' = dst ++ [basename src]) as Hdst
    by (unfold dst'; destruct (isdir fs dst); auto).
  destruct (bool_decide (src = dst') && path_exists fs src).
  { intros [= <- <- <-]. by left. }
  destruct (fs_node fs src) as [[|data]|]; [by intros [= <- <- <-]; left| |
    by intros [= <- <- <-]; left].
  destruct (fs_node fs dst') as [[|data']|] eqn:Hq;
    [by intros [= <- <- <-]; left|..];
    (destruct (fs_node fs (dirname dst')) as [[|data'']|] eqn:Hp;
     intros [= <- <- <-]; [|by left..]);
    right; exists dst', data; repeat split; try done; by rewrite Hq.
Qed.

Lemma copy_file_steps F dry_run source_file backup_path rest relative_path l
    fs fs' o r :
  backup_path ≠ [] → fs_wf fs → isdir fs backup_path = true →
  copy_file F dry_run source_file (backup_path ++ rest) relative_path l fs
  = (fs', o, r) →
  rtc (adds_under backup_path) fs fs'.
Proof.
  intros Hne Hwf Hdir H.
  apply copy_file_spec in H as (fs1 & r1 & Hm & Hcases).
  assert (Hmk : rtc (adds_under backup_path) fs fs1).
  { unfold os_makedirs in Hm. apply makedirs_upto_steps in Hm.
    apply (makes_prefixes_under backup_path rest) in Hm; [|apply prefix_take|done..].
    eapply rtc_subrel; [|exact Hm]. apply mkdir_under_adds. }
  destruct Hcases
    as [(e & _ & -> & _)
       |[(_ & _ & -> & _)
        |[(_ & _ & Hc & _)|(_ & _ & -> & _)]]]; try done.
  apply shutil_copy2_step in Hc as [->|(q & data & Hq & Hparent & Hold & ->)];
    [done|].
  eapply rtc_r; [exact Hmk|]. exists q, (File data).
  split; [|split; [|split; [|split; [|done]]]].
  - destruct Hq as [->| ->]; [by apply prefix_app_r|].
    rewrite <- app_assoc. by apply prefix_app_r.
  - destruct Hq as [->| ->]; [by destruct backup_path|by destruct backup_path].
  - unfold isdir. by rewrite Hparent.
  - right. unfold isdir. by destruct (fs_node fs1 q) as [[|]|].
Qed.

Lemma process_file_steps F source_dir backup_path full_backup
    latest_backup_dir dry_run root filename l fs fs' o r :
  backup_path ≠ [] → fs_wf fs → isdir fs backup_path = true →
  process_file F source_dir backup_path full_backup latest_backup_dir dry_run
    root filename l fs = (fs', o, r) →
  rtc (adds_under backup_path) fs fs'.
Proof.
  intros Hne Hwf Hdir H.
  apply process_file_inv in H as (o1 & r1 & _ & H).
  destruct r1 as [[[|] l1]|e|]; [by destruct H as (-> & _)| |
    by destruct H as (-> & _)|done].
  destruct H as (o2 & H & _). by apply copy_file_steps in H.
Qed.

Lemma traverse_steps F fuel source_dir backup_path full_backup
    latest_backup_dir dry_run l fs fs' o r :
  backup_path ≠ [] → fs_wf fs → isdir fs backup_path = true →
  traverse F fuel source_dir backup_path full_backup latest_backup_dir dry_run
    l fs = (fs', o, r) →
  rtc (adds_under backup_path) fs fs'.
Proof.
  intros Hne Hwf Hdir H. unfold traverse in H.
  pose (I := λ (_ : list path) (fs0 : filesystem) (_ : locals),
               fs_wf fs0 ∧ isdir fs0 backup_path = true).
  assert (Hkeep : ∀ fs0 fs1, rtc (adds_under backup_path) fs0 fs1 →
                    fs_wf fs0 ∧ isdir fs0 backup_path = true →
                    fs_wf fs1 ∧ isdir fs1 backup_path = true).
  { intros fs0 fs1 Hsteps [Hwf0 Hdir0]. split.
    - by apply (adds_under_rtc_wf backup_path fs0).
    - apply (extends_under_isdir backup_path fs0); [|done].
      by apply adds_under_rtc_extends. }
  apply (os_walk_invariant_gen I (rtc (adds_under backup_path)) (λ _, True))
    in H; try done; try apply _.
  - by destruct H as (_ & ? & _).
  - intros top stack l0 fs0 fs0' o0 r0 HI Hb.
    apply (for_files_invariant_gen
             (λ _ fs1 _, fs_wf fs1 ∧ isdir fs1 backup_path = true)
             (rtc (adds_under backup_path)) (λ _, True)) in Hb;
      try done; try apply _.
    intros f rest l1 fs1 fs1' o1 r1 [Hwf1 Hdir1] Hp.
    apply process_file_steps in Hp; [|done..].
    split; [by apply Forall_forall|]. split; [done|].
    intros _ _. by apply (Hkeep fs1).
Qed.

(** ** The log file *)

Lemma write_log_extends F backup_path timestamp source_dir destination_dir
    full_backup dry_run messages fs fs' o r :
  write_log F (backup_path ++ ["backup_log.txt"]) timestamp source_dir
    destination_dir full_backup dry_run messages fs = (fs', o, r) →
  extends_under backup_path fs fs'.
Proof.
  intros H.
  assert (Hdirs : isdir fs (backup_path ++ ["backup_log.txt"]) = true →
                  fs' = fs).
  { intros Hd. revert H. unfold write_log, try_except, bind at 1, open_w.
    destruct (F (SysOpen _)); [by intros [= <- _ _]|].
    unfold isdir in Hd.
    destruct (fs_node fs (backup_path ++ ["backup_log.txt"])) as [[|]|];
      [|done..].
    by intros [= <- _ _]. }
  apply write_log_spec in H as (_ & Hframe & Hcases).
  repeat split.
  - intros p Hp. apply Hframe. intros ->. apply Hp. by apply prefix_app_r.
  - intros p Hp.
    destruct (decide (p = backup_path ++ ["backup_log.txt"])) as [->|Hne].
    + rewrite Hdirs; [done|]. apply isdir_lookup; [|done].
      by destruct backup_path.
    + by rewrite Hframe.
  - intros p Hp.
    destruct (decide (p = backup_path ++ ["backup_log.txt"])) as [->|Hne].
    + destruct Hcases as [[_ ->]|(e & _ & [->|(k & _ & ->)])]; done.
    + by rewrite Hframe.
Qed.

(** ** The whole run *)

(** Whatever fails, a run changes nothing outside its own snapshot
    directory: every path that does not lie in [destination_dir/timestamp]
    holds after the run what it held before, so the source and the older
    snapshots are left as they were; no directory is removed or replaced
    and no path disappears. *)
Theorem run_backup_touches_only_its_snapshot F fuel now source_dir
    destination_dir full_backup dry_run fs fs' out r :
  fs_wf fs →
  run_backup F fuel now source_dir destination_dir full_backup dry_run fs
  = (fs', out, r) →
  (∀ p, ¬ destination_dir ++ [strftime now] `prefix_of` p →
        fs' !! p = fs !! p)
  ∧ (∀ p, fs !! p = Some Dir → fs' !! p = Some Dir)
  ∧ (∀ p, is_Some (fs !! p) → is_Some (fs' !! p)).
Proof.
  intros Hwf H.
  change (extends_under (destination_dir ++ [strftime now]) fs fs').
  destruct (isdir fs source_dir) eqn:Hs;
    [destruct (isdir fs destination_dir) eqn:Hd|].
  - apply run_backup_inv in H as (fs1 & r1 & Hm & H); [|done..].
    assert (Hmk : rtc (adds_under (destination_dir ++ [strftime now])) fs fs1).
    { unfold os_makedirs in Hm. apply makedirs_upto_steps in Hm.
      apply (makes_prefixes_under destination_dir [strftime now]) in Hm;
        [|done..].
      eapply rtc_subrel; [|exact Hm]. apply mkdir_under_leaf. }
    assert (Hwf1 : fs_wf fs1) by (by eapply adds_under_rtc_wf).
    apply adds_under_rtc_extends in Hmk as Hext.
    destruct r1 as [[]|e|]; [|by destruct H as [-> _]|done].
    apply os_makedirs_spec in Hm as (_ & _ & _ & Hdir).
    specialize (Hdir eq_refl).
    destruct H as (o_b & latest & l0 & fs2 & o_t & r_t & _ & Ht & H).
    apply traverse_steps in Ht; [|by destruct destination_dir|done..].
    apply adds_under_rtc_extends in Ht.
    apply (extends_under_trans _ _ fs1); [done|].
    destruct r_t as [l|e|]; [|by destruct H as (-> & _)..].
    destruct H as (o_w & Hw & _). apply write_log_extends in Hw.
    by apply (extends_under_trans _ _ fs2).
  - rewrite run_backup_rejects in H by (by right). injection H as <- _ _.
    apply extends_under_refl.
  - rewrite run_backup_rejects in H by (by left). injection H as <- _ _.
    apply extends_under_refl.
Qed.

(** * The summary and the console *)

Lemma count_events_app P o1 o2 :
  count_events P (o1 ++ o2) = count_events P o1 + count_events P o2.
Proof. unfold count_events. by rewrite filter_app, length_app. Qed.

Lemma tallies_nil l : tallies l [] l.
Proof. unfold tallies, count_events. simpl. lia. Qed.

Lemma tallies_app l o1 l1 o2 l2 :
  tallies l o1 l1 → tallies l1 o2 l2 → tallies l (o1 ++ o2) l2.
Proof. unfold tallies. rewrite !count_events_app. lia. Qed.

Lemma for_files_tallies (body : string → locals → M locals) :
  (∀ f l fs fs' o l', body f l fs = (fs', o, Ok l') → tallies l o l') →
  ∀ files l fs fs' o l',
    for_files body files l fs = (fs', o, Ok l') → tallies l o l'.
Proof.
  intros Hbody files. induction files as [|f rest IH];
    intros l fs fs' o l' H; simpl in H.
  - unfold ret in H. simplify_eq. apply tallies_nil.
  - apply bind_inv in H
      as [(fs1 & o1 & l1 & o2 & H1 & H2 & ->)|[(e & _ & ?)|[_ ?]]];
      [|done..].
    eapply tallies_app; [by eapply Hbody|by eapply IH].
Qed.

Lemma os_walk_tallies F (body : path → list string → locals → M locals) :
  (∀ top files l fs fs' o l',
     body top files l fs = (fs', o, Ok l') → tallies l o l') →
  ∀ fuel stack l fs fs' o l',
    os_walk F fuel stack body l fs = (fs', o, Ok l') → tallies l o l'.
Proof.
  intros Hbody fuel. induction fuel as [|fuel IH];
    intros [|top stack] l fs fs' o l' H; simpl in H;
    try (unfold ret in H; simplify_eq; apply tallies_nil).
  apply bind_inv in H
    as [(fs1 & o1 & scanned & o2 & H1 & H2 & ->)|[(e & _ & ?)|[_ ?]]];
    [|done..].
  apply scan_step_spec in H1 as (-> & -> & _).
  destruct scanned as [es|]; [|by eapply IH].
  apply bind_inv in H2
    as [(fs2 & o3 & l1 & o4 & H2 & H3 & ->)|[(e & _ & ?)|[_ ?]]];
    [|done..].
  simpl. eapply tallies_app; [by eapply Hbody|by eapply IH].
Qed.

Lemma process_file_tallies F source_dir backup_path full_backup
    latest_backup_dir dry_run root filename l fs fs' o l' :
  process_file F source_dir backup_path full_backup latest_backup_dir dry_run
    root filename l fs = (fs', o, Ok l') →
  tallies l o l'.
Proof.
  intros H. apply process_file_inv in H as (o1 & r1 & Hc & H).
  apply check_incremental_spec in Hc as [_ Hc].
  assert (Hcheck : ∀ d l1, r1 = Ok (d, l1) → tallies l o1 l1).
  { intros d l1 ->.
    destruct Hc as [[Hr ->]|(latest & _ & _ & _ & Hc)].
    { injection Hr as -> ->. unfold tallies, count_events. simpl. lia. }
    destruct Hc as [[Hr ->]|[[Hr ->]|[(e & _ & Hr & ->)|(e & _ & Hr & _)]]];
      [..|done]; injection Hr as -> ->;
      unfold tallies, count_events; simpl; lia. }
  destruct r1 as [[[|] l1]|e|]; [| |by destruct H as (_ & _ & ?)|done].
  - destruct H as (_ & -> & [= ->]). by apply (Hcheck SKIP).
  - destruct H as (o2 & H & ->).
    eapply tallies_app; [by apply (Hcheck COPY)|].
    apply copy_file_spec in H as (fs1 & r2 & _ & Hcases).
    destruct Hcases
      as [(e & _ & _ & _ & ?)
         |[(_ & _ & _ & -> & [= ->])
          |[(_ & _ & _ & -> & [= ->])|(_ & _ & _ & e & _ & -> & [= ->])]]];
      [done|..]; unfold tallies, count_events, copy_failure_report; simpl;
      [lia..|].
    destruct (is_SameFileError e); [simpl; lia|].
    destruct (is_PermissionError e); simpl; lia.
Qed.

Lemma traverse_tallies F fuel source_dir backup_path full_backup
    latest_backup_dir dry_run l fs fs' o l' :
  traverse F fuel source_dir backup_path full_backup latest_backup_dir dry_run
    l fs = (fs', o, Ok l') →
  tallies l o l'.
Proof.
  unfold traverse. apply os_walk_tallies.
  intros top files. apply for_files_tallies.
  intros f l0 fs0 fs0' o0 l0'. apply process_file_tallies.
Qed.

(** The summary tells what the console showed: the number of files copied
    is the number of lines that tell that a file was copied, or would be,
    the number of files skipped is the number of lines that tell that a file
    was left out (identical, already there, permission denied or another
    failure), and the dry-run flag of the summary is the one of the run. *)
Theorem summary_counts_the_console F fuel now source_dir destination_dir
    full_backup dry_run fs fs' out r total copied skipped dry :
  run_backup F fuel now source_dir destination_dir full_backup dry_run fs
  = (fs', out, r) →
  PrintSummary total copied skipped dry ∈ out →
  copied = count_events is_copy_event out
  ∧ skipped = count_events is_skip_event out
  ∧ dry = dry_run.
Proof.
  intros H Hin.
  destruct (isdir fs source_dir) eqn:Hs;
    [destruct (isdir fs destination_dir) eqn:Hd|].
  - apply run_backup_inv in H as (fs1 & r1 & _ & H); [|done..].
    assert (Hbanner : PrintSummary total copied skipped dry ∉ banner dry_run).
    { destruct dry_run; simpl; rewrite ?elem_of_cons, ?elem_of_nil;
        naive_solver. }
    destruct r1 as [[]|e|]; [| |done].
    + destruct H as (o_b & latest & l0 & fs2 & o_t & r_t & Hr & Ht & H).
      apply resolve_baseline_events in Hr as Hl0. destruct Hl0 as [Ho_b Hl0].
      destruct (Hl0 latest l0 eq_refl) as (Ht0 & Hc0 & Hs0).
      simpl in Ht0, Hc0, Hs0.
      assert (Hcount_b : count_events is_copy_event o_b = 0
                         ∧ count_events is_skip_event o_b = 0).
      { apply resolve_baseline_spec in Hr
          as [_ [(_ & -> & _)|(_ & o_f & lt & _ & Ho_f & Hr)]]; [done|].
        destruct lt; destruct Hr as [-> _];
          by destruct Ho_f as [->|(e & -> & _)]. }
      destruct Hcount_b as [Hcb Hsb].
      apply traverse_balanced in Ht as Hfile; [|unfold balanced; lia].
      destruct Hfile as [Ho_t _].
      rewrite Forall_forall in Ho_b. rewrite Forall_forall in Ho_t.
      assert (Hpre : PrintSummary total copied skipped dry
                     ∉ banner dry_run
                       ++ [PrintStarting full_backup source_dir] ++ o_b ++ o_t).
      { rewrite !elem_of_app, list_elem_of_singleton.
        intros [Hi|[Hi|[Hi|Hi]]]; [done|done| |].
        - by apply (Ho_b _ Hi total copied skipped dry).
        - by specialize (Ho_t _ Hi). }
      destruct r_t as [l|e|].
      * destruct H as (o_w & Hw & -> & ->).
        apply traverse_tallies in Ht as [Hcopy Hskip].
        apply write_log_spec in Hw as (_ & _ & Ho_w).
        assert (Hcount_w : count_events is_copy_event o_w = 0
                           ∧ count_events is_skip_event o_w = 0)
          by (by destruct Ho_w as [[-> _]|(e & -> & _)]).
        destruct Hcount_w as [Hcw Hsw].
        assert (Hcount_banner : count_events is_copy_event (banner dry_run) = 0
                                ∧ count_events is_skip_event (banner dry_run) = 0)
          by (by destruct dry_run).
        destruct Hcount_banner as [Hcn Hsn].
        assert (Hlast : PrintSummary total copied skipped dry
                        = PrintSummary (total_files l) (files_to_copy l)
                            (files_skipped l) dry_run).
        { rewrite !app_assoc in Hin.
          apply elem_of_app in Hin as [Hin|Hin].
          - exfalso. apply elem_of_app in Hin as [Hin|Hin].
            + by rewrite <- !app_assoc in Hin.
            + destruct Ho_w as [[-> _]|(e & -> & _)];
                by apply list_elem_of_singleton in Hin.
          - by apply list_elem_of_singleton in Hin. }
        injection Hlast as -> -> -> ->.
        rewrite !count_events_app, Hcn, Hsn, Hcb, Hsb, Hcw, Hsw.
        change (count_events is_copy_event
                  [PrintStarting full_backup source_dir]) with 0.
        change (count_events is_skip_event
                  [PrintStarting full_backup source_dir]) with 0.
        change (count_events is_copy_event
                  [PrintSummary (total_files l) (files_to_copy l)
                     (files_skipped l) dry_run]) with 0.
        change (count_events is_skip_event
                  [PrintSummary (total_files l) (files_to_copy l)
                     (files_skipped l) dry_run]) with 0.
        split; [lia|]. split; [lia|done].
      * by destruct H as (_ & _ & ->).
      * by destruct H as (_ & _ & ->).
    + destruct H as [_ [(_ & _ & ->)|(_ & _ & ->)]];
        rewrite !elem_of_app, ?elem_of_cons, ?elem_of_nil in Hin;
        naive_solver.
  - rewrite run_backup_rejects in H by (by right). injection H as <- <- <-.
    apply list_elem_of_singleton in Hin. rewrite Hs in Hin. done.
  - rewrite run_backup_rejects in H by (by left). injection H as <- <- <-.
    apply list_elem_of_singleton in Hin. rewrite Hs in Hin. done.
Qed.

(** * Edges of a run *)

(** ** The snapshot directory cannot be made *)

Lemma os_makedirs_fails (F : faults) (parent : path) (leaf : string)
    (fs : filesystem) e :
  isdir fs parent = true → isdir fs (parent ++ [leaf]) = false →
  F (SysMkdir (parent ++ [leaf])) = Some e
  ∨ (F (SysMkdir (parent ++ [leaf])) = None
     ∧ path_exists fs (parent ++ [leaf]) = true
     ∧ e = os_error FileExistsError (parent ++ [leaf])) →
  os_makedirs F (parent ++ [leaf]) fs = (fs, [], Raise e).
Proof.
  intros Hparent Hdir He. unfold os_makedirs.
  rewrite length_app. simpl length.
  replace (length parent + 1) with (S (length parent)) by lia.
  cbn [makedirs_upto].
  rewrite take_app_length, (take_ge (parent ++ [leaf]))
    by (rewrite length_app; simpl; lia).
  unfold bind, os_path_exists, try_except, os_mkdir, os_path_isdir.
  rewrite (isdir_exists _ _ Hparent). cbn [ret].
  destruct He as [-> | (-> & -> & ->)].
  - destruct (is_OSError e); [|done]. by rewrite Hdir.
  - simpl. by rewrite Hdir.
Qed.

(** When the snapshot directory cannot be made, because [os.mkdir] fails
    or because a file of that name is in the way, the run ends there: an
    [OSError] is reported on the error stream and the run returns; any other
    exception leaves [run_backup].  In both cases the file system is
    untouched, no file is looked at, no log is written and no summary is
    printed. *)
Theorem snapshot_creation_failure_ends_the_run F fuel now source_dir
    destination_dir full_backup dry_run fs e :
  let backup_path := destination_dir ++ [strftime now] in
  isdir fs source_dir = true → isdir fs destination_dir = true →
  isdir fs backup_path = false →
  F (SysMkdir backup_path) = Some e
  ∨ (F (SysMkdir backup_path) = None
     ∧ path_exists fs backup_path = true
     ∧ e = os_error FileExistsError backup_path) →
  run_backup F fuel now source_dir destination_dir full_backup dry_run fs
  = if is_OSError e then
      (fs,
       banner dry_run
         ++ [PrintStarting full_backup source_dir;
             ErrCreateDestination backup_path e],
       Ok tt)
    else
      (fs, banner dry_run ++ [PrintStarting full_backup source_dir], Raise e).
Proof.
  intros backup_path Hs Hd Hb He.
  pose proof (os_makedirs_fails F destination_dir (strftime now) fs e Hd Hb He)
    as Hm.
  destruct (run_backup F fuel now source_dir destination_dir full_backup
              dry_run fs) as [[fs' out] r] eqn:H.
  apply run_backup_inv in H as (fs1 & r1 & Hm' & H); [|done..].
  cbv zeta in Hm'. rewrite Hm in Hm'. injection Hm' as <- <-.
  destruct H as [-> [(-> & -> & ->)|(-> & -> & ->)]]; done.
Qed.

(** ** The source cannot be listed *)

Lemma traverse_unreadable F fuel source_dir backup_path full_backup
    latest_backup_dir dry_run l fs e :
  F (SysScandir source_dir) = Some e → is_OSError e = true →
  traverse F (S fuel) source_dir backup_path full_backup latest_backup_dir
    dry_run l fs = (fs, [], Ok l).
Proof.
  intros HF He. unfold traverse. cbn [os_walk].
  unfold bind at 1, try_except, bind at 1, os_scandir. rewrite HF, He.
  cbn [ret]. by destruct fuel.
Qed.

(** A source directory that cannot be listed gives an empty backup without
    any diagnostic: [os.walk] swallows the [OSError] of [os.scandir], so the
    run processes no file, prints nothing about a file and ends normally
    with a summary of 0 files found, 0 copied and 0 skipped. *)
Theorem unreadable_source_is_an_empty_backup F fuel now source_dir
    destination_dir full_backup dry_run fs fs1 fs' out r e :
  F (SysScandir source_dir) = Some e → is_OSError e = true →
  0 < fuel →
  isdir fs source_dir = true → isdir fs destination_dir = true →
  os_makedirs F (destination_dir ++ [strftime now]) fs = (fs1, [], Ok tt) →
  run_backup F fuel now source_dir destination_dir full_backup dry_run fs
  = (fs', out, r) →
  r = Ok tt
  ∧ Forall (λ ev, is_file_event ev = false) out
  ∧ PrintSummary 0 0 0 dry_run ∈ out.
Proof.
  intros HF He Hfuel Hs Hd Hmade H.
  apply run_backup_inv in H as (fs1' & r1 & Hm & H); [|done..].
  cbv zeta in Hm. rewrite Hmade in Hm. injection Hm as <- <-.
  assert (Hbanner : Forall (λ ev, is_file_event ev = false) (banner dry_run))
    by (destruct dry_run; repeat constructor).
  destruct H as (o_b & latest & l0 & fs2 & o_t & r_t & Hr & Ht & H).
  destruct fuel as [|fuel]; [lia|].
  rewrite (traverse_unreadable _ _ _ _ _ _ _ _ _ e) in Ht by done.
  injection Ht as <- <- <-.
  destruct H as (o_w & Hw & -> & ->).
  apply resolve_baseline_events in Hr as Hl0. destruct Hl0 as [_ Hl0].
  destruct (Hl0 latest l0 eq_refl) as (Ht0 & Hc0 & Hs0).
  simpl in Ht0, Hc0, Hs0. rewrite Ht0, Hc0, Hs0.
  assert (Ho_b : Forall (λ ev, is_file_event ev = false) o_b).
  { apply resolve_baseline_spec in Hr
      as [_ [(_ & -> & _)|(_ & o_f & lt & _ & Ho_f & Hr)]]; [done|].
    destruct lt; destruct Hr as [-> _];
      destruct Ho_f as [->|(e' & -> & _)]; repeat constructor. }
  assert (Ho_w : Forall (λ ev, is_file_event ev = false) o_w).
  { apply write_log_spec in Hw as (_ & _ & [[-> _]|(e' & -> & _)]);
      repeat constructor. }
  split; [done|]. split.
  - rewrite !Forall_app. repeat split; try done; repeat constructor.
  - rewrite !elem_of_app. do 5 right. by apply list_elem_of_singleton.
Qed.

(** * The command line *)

(** The mode of the run is the value of [--full] alone: both branches of
    the test on the flags assign [False] where [args.full] is already
    [False], so [--incremental] has no effect, also when it is given together
    with [--full]. *)
Theorem main_mode_is_the_full_flag F fuel now args :
  is_full_backup args = arg_full args
  ∧ main F fuel now args
    = run_backup F fuel now (arg_source_dir args) (arg_destination_dir args)
        (arg_full args) (arg_dry_run args)
  ∧ ∀ incremental,
      main F fuel now
        (Namespace (arg_source_dir args) (arg_destination_dir args)
           (arg_full args) incremental (arg_dry_run args))
      = main F fuel now args.
Proof.
  assert (Hmode : ∀ a, is_full_backup a = arg_full a)
    by (by intros [? ? [|] [|] ?]).
  split; [done|]. split.
  - unfold main. by rewrite Hmode.
  - intros incremental. unfold main. by rewrite !Hmode.
Qed.

(** * [get_file_hash] *)








(** With [block_size = 0] the first [read] returns no byte, the loop is
    not entered and [get_file_hash] returns the digest of the empty text,
    whatever the file holds. *)
Theorem get_file_hash_zero_block_size md5_hexdigest F R fuel filepath fs
    data :
  F (SysOpen filepath) = None → R 0 = None →
  fs_node fs filepath = Some (File data) →
  get_file_hash md5_hexdigest F R fuel filepath 0 fs
  = ([], Ok (Some (md5_hexdigest ""))).
Proof.
  intros HF HR Hfile. unfold get_file_hash. rewrite HF, Hfile, HR.
  by destruct fuel.
Qed.

(** [get_file_hash] never raises: a failure to open the file (a fault, a
    missing file, a directory) is printed on the error stream and answered
    by [None], and [None] is returned only after such a line. *)
Theorem get_file_hash_failure md5_hexdigest F R fuel filepath block_size fs :
  (∀ e, F (SysOpen filepath) = Some e →
        get_file_hash md5_hexdigest F R fuel filepath block_size fs
        = ([ErrHash filepath e], Ok None))
  ∧ (F (SysOpen filepath) = None → fs_node fs filepath = None →
     get_file_hash md5_hexdigest F R fuel filepath block_size fs
     = ([ErrHash filepath (os_error FileNotFoundError filepath)], Ok None))
  ∧ (F (SysOpen filepath) = None → isdir fs filepath = true →
     get_file_hash md5_hexdigest F R fuel filepath block_size fs
     = ([ErrHash filepath (os_error IsADirectoryError filepath)], Ok None))
  ∧ (∀ out r,
       get_file_hash md5_hexdigest F R fuel filepath block_size fs = (out, r) →
       (∀ e, r ≠ Raise e)
       ∧ (r = Ok None ↔ ∃ e, out = [ErrHash filepath e])).
Proof.
  unfold get_file_hash, isdir. repeat split.
  - by intros e ->.
  - by intros -> ->.
  - intros ->. by destruct (fs_node fs filepath) as [[|]|].
  - intros e ->. revert H.
    by destruct (match F (SysOpen filepath) with Some _ => _ | None => _ end).
  - intros ->. revert H.
    destruct (match F (SysOpen filepath) with Some _ => _ | None => _ end);
      intros [= <-]; eauto.
  - intros [e ->]. revert H.
    by destruct (match F (SysOpen filepath) with Some _ => _ | None => _ end);
      intros [= <-].
Qed.

Lemma read_upto_length n s buf rest :
  read_upto n s = (buf, rest) →
  String.length buf = n `min` String.length s
  ∧ String.length rest = String.length s - n.
Proof.
  revert s buf rest. induction n as [|n IH]; intros [|c s] buf rest H;
    simpl in H; try (by injection H as <- <-).
  destruct (read_upto n s) as [b r] eqn:Hr. injection H as <- <-.
  destruct (IH _ _ _ Hr) as [Hb Hrest]. simpl. by rewrite Hb, Hrest.
Qed.

Lemma hash_blocks_read_failure R block_size fuel k j buf rest fed e :
  (0 < block_size)%Z →
  (∀ i, j ≤ i < k → R i = None) → R k = Some e → j ≤ k →
  (k - j) * Z.to_nat block_size ≤ String.length rest →
  k - j < fuel → buf ≠ "" →
  hash_blocks R block_size fuel j buf rest fed = Raise e.
Proof.
  intros Hsize. revert j buf rest fed.
  induction fuel as [|fuel IH]; intros j buf rest fed HR He Hjk Hlen Hfuel Hbuf;
    [lia|].
  destruct buf as [|c buf]; [done|]. cbn [hash_blocks String.length Nat.eqb].
  destruct (decide (j = k)) as [->|Hne]; [by rewrite He|].
  rewrite HR by lia.
  destruct (file_read block_size rest) as [buf' rest'] eqn:Hread.
  unfold file_read in Hread.
  assert ((block_size <? 0)%Z = false) as Hpos by (apply Z.ltb_ge; lia).
  rewrite Hpos in Hread. apply read_upto_length in Hread as [Hb Hr].
  assert (Hstep : (k - j) * Z.to_nat block_size
                  = Z.to_nat block_size + (k - S j) * Z.to_nat block_size).
  { replace (k - j) with (S (k - S j)) by lia. simpl. lia. }
  assert (0 ≤ (k - S j) * Z.to_nat block_size) as Hnonneg
    by apply Nat.le_0_l.
  apply IH; try done; try lia.
  - intros i Hi. apply HR. lia.
  - intros ->. simpl in Hb. lia.
Qed.

(** A [read] that fails in the middle of the file is caught as well: the
    blocks hashed so far are dropped, the failure is printed and [None] is
    returned. *)
Theorem get_file_hash_read_failure md5_hexdigest F R fuel filepath block_size
    fs data k e :
  F (SysOpen filepath) = None →
  fs_node fs filepath = Some (File data) →
  (0 < block_size)%Z →
  (∀ i, i < k → R i = None) → R k = Some e →
  k * Z.to_nat block_size ≤ String.length data →
  k ≤ fuel →
  get_file_hash md5_hexdigest F R fuel filepath block_size fs
  = ([ErrHash filepath e], Ok None).
Proof.
  intros HF Hfile Hsize HR He Hlen Hfuel. unfold get_file_hash.
  rewrite HF, Hfile.
  destruct k as [|k]; [by rewrite He|]. rewrite HR by lia.
  destruct (file_read block_size data) as [buf rest] eqn:Hread.
  unfold file_read in Hread.
  assert ((block_size <? 0)%Z = false) as Hpos by (apply Z.ltb_ge; lia).
  rewrite Hpos in Hread. apply read_upto_length in Hread as [Hb Hr].
  rewrite Nat.mul_succ_l in Hlen.
  rewrite (hash_blocks_read_failure R block_size fuel (S k) 1 buf rest "" e);
    try done; try lia.
  - intros i Hi. apply HR. lia.
  - intros ->. simpl in Hb.
    assert (0 ≤ k * Z.to_nat block_size) as Hnonneg by apply Nat.le_0_l.
    lia.
Qed.

(** * A full backup without failures *)

(** ** The operations when nothing fails *)

Lemma mkdir_exist_ok_ok (p : path) (fs : filesystem) :
  (∀ data, fs_node fs p ≠ Some (File data)) →
  path_exists fs p = true ∨ isdir fs (dirname p) = true →
  ∃ fs',
    try_except (os_mkdir no_faults p) is_OSError
      (λ e, d <- os_path_isdir p ;; if d : bool then ret tt else raise e) fs
    = (fs', [], Ok tt).
Proof.
  intros Hfile Hp. unfold try_except, os_mkdir, no_faults.
  destruct (path_exists fs p) eqn:Hex.
  - simpl. unfold bind, os_path_isdir, isdir. unfold path_exists in Hex.
    destruct (fs_node fs p) as [[|data]|]; [by eexists| |done].
    by destruct (Hfile data).
  - destruct Hp as [?|Hd]; [done|]. unfold isdir in Hd.
    destruct (fs_node fs (dirname p)) as [[|]|]; [by eexists|done..].
Qed.

Lemma makedirs_upto_ok (name : path) (n : nat) (fs : filesystem) :
  (∀ k data, k ≤ n → fs_node fs (take k name) ≠ Some (File data)) →
  ∃ fs', makedirs_upto no_faults name n fs = (fs', [], Ok tt).
Proof.
  induction n as [|n IH]; intros Hfiles.
  - cbn [makedirs_upto]. rewrite (bind_pure (ret tt) _ fs tt eq_refl).
    apply mkdir_exist_ok_ok; [intros data; by apply (Hfiles 0)|by left].
  - cbn [makedirs_upto].
    assert (∃ fs1,
      (head_exists <- os_path_exists (take n name) ;;
       if head_exists : bool then ret tt
       else try_except (makedirs_upto no_faults name n) is_FileExistsError
              (λ _, ret tt)) fs = (fs1, [], Ok tt)
      ∧ grows_by_dirs name n fs fs1
      ∧ isdir fs1 (take n name) = true) as (fs1 & Hhead & Hgrow & Hdir).
    { rewrite (bind_pure (os_path_exists _) _ fs _ eq_refl).
      destruct (path_exists fs (take n name)) eqn:Hex.
      - exists fs. split; [done|]. split; [apply grows_by_dirs_refl|].
        unfold isdir. unfold path_exists in Hex.
        destruct (fs_node fs (take n name)) as [[|data]|] eqn:Hn; [done| |done].
        by destruct (Hfiles n data (Nat.le_succ_diag_r n)).
      - destruct IH as [fs1 Hm]; [intros k data Hk; apply Hfiles; lia|].
        exists fs1. unfold try_except. rewrite Hm. split; [done|].
        apply makedirs_upto_spec in Hm as (_ & _ & Hgrow & Hdir).
        split; [done|]. by apply Hdir. }
    rewrite (bind_ok _ _ _ _ _ _ Hhead).
    destruct (mkdir_exist_ok_ok (take (S n) name) fs1) as [fs' Hm].
    + intros data Hdata.
      destruct (decide (take (S n) name = [])) as [Hnil|Hne];
        [by rewrite Hnil in Hdata|].
      assert (fs1 !! take (S n) name = Some (File data)) as Hl.
      { unfold fs_node in Hdata. by destruct (take (S n) name). }
      apply grows_by_dirs_keeps_files in Hgrow. apply Hgrow in Hl.
      apply (Hfiles (S n) data (le_n _)). unfold fs_node.
      by destruct (take (S n) name).
    + destruct (decide (S n ≤ length name)) as [Hlen|Hlen].
      * right. unfold dirname. rewrite length_take, take_take.
        replace ((S n `min` length name - 1) `min` S n) with n by lia. done.
      * left. rewrite take_ge by lia. rewrite take_ge in Hdir by lia.
        by apply isdir_exists.
    + exists fs'. by rewrite Hm.
Qed.

Lemma shutil_copy2_ok (src dst : path) (fs : filesystem) data :
  src ≠ dst → isdir fs dst = false →
  fs_node fs src = Some (File data) → isdir fs (dirname dst) = true →
  shutil_copy2 no_faults src dst fs = (<[dst := File data]> fs, [], Ok tt).
Proof.
  intros Hne Hdst Hsrc Hparent. unfold shutil_copy2, no_faults.
  rewrite Hdst, bool_decide_eq_false_2 by done. simpl. rewrite Hsrc.
  unfold isdir in Hdst, Hparent.
  destruct (fs_node fs dst) as [[|]|]; [done|..];
    by destruct (fs_node fs (dirname dst)) as [[|]|].
Qed.

Lemma write_log_no_faults (log_file_path : path) (timestamp : string)
    (source_dir destination_dir : path) (full_backup dry_run : bool)
    (messages : list log_message) (fs : filesystem) :
  isdir fs log_file_path = false → isdir fs (dirname log_file_path) = true →
  ∃ fs',
    write_log no_faults log_file_path timestamp source_dir destination_dir
      full_backup dry_run messages fs
    = (fs', [PrintLogSaved log_file_path], Ok tt)
    ∧ fs' !! log_file_path
      = Some (File (String.concat ""
                      (log_header timestamp source_dir destination_dir
                         full_backup dry_run ++ log_lines messages))).
Proof.
  intros Hlog Hparent.
  assert (Hopen : open_w no_faults log_file_path fs
                  = (<[log_file_path := File ""]> fs, [], Ok tt)).
  { unfold open_w, no_faults. unfold isdir in Hlog, Hparent.
    destruct (fs_node fs log_file_path) as [[|]|]; [done|..];
      by destruct (fs_node fs (dirname log_file_path)) as [[|]|]. }
  unfold write_log, try_except. rewrite (bind_ok _ _ _ _ _ _ Hopen).
  set (texts := log_header timestamp source_dir destination_dir full_backup
                  dry_run ++ log_lines messages).
  destruct (write_all no_faults log_file_path 0 texts
              (<[log_file_path := File ""]> fs)) as [[fs2 o2] r2] eqn:Hw.
  apply (write_all_spec _ _ _ _ _ "") in Hw as Hspec;
    [|by rewrite lookup_insert_eq].
  destruct Hspec as (-> & Hfuel & _ & Hok & Hraise).
  destruct r2 as [[]|e|]; [|by destruct (Hraise e eq_refl) as (k & _ & ? & _)|
    done].
  rewrite (bind_ok _ _ _ _ _ _ Hw). unfold print. eexists. split; [done|].
  by rewrite (Hok eq_refl).
Qed.

(** ** The walk over the source tree *)

Lemma isdir_file (fs : filesystem) (p : path) data :
  p ≠ [] → fs !! p = Some (File data) → isdir fs p = false.
Proof.
  intros Hp Hfile. unfold isdir, fs_node. destruct p; [done|].
  by rewrite Hfile.
Qed.

Section full_backup.
Context (fs0 : filesystem) (source_dir backup_path : path).
Hypothesis Hwf : fs_wf fs0.
Hypothesis Hsource : isdir fs0 source_dir = true.
Hypothesis Hfresh : path_exists fs0 backup_path = false.
Hypothesis Houtside : ¬ source_dir `prefix_of` backup_path.

Lemma backup_path_not_nil : backup_path ≠ [].
Proof. intros Hnil. by rewrite Hnil in Hfresh. Qed.

Lemma source_dir_not_nil : source_dir ≠ [].
Proof. intros Hnil. apply Houtside. rewrite Hnil. apply prefix_nil. Qed.

Lemma source_path_not_nil s : source_dir ++ s ≠ [].
Proof. pose proof source_dir_not_nil. by destruct source_dir. Qed.

Lemma source_apart p :
  source_dir `prefix_of` p → ¬ backup_path `prefix_of` p.
Proof.
  intros Hs Hb.
  destruct (prefix_weak_total _ _ _ Hs Hb) as [?|[s Hbs]]; [done|].
  assert (isdir fs0 backup_path = true) as Hd.
  { destruct (decide (s = [])) as [->|Hne].
    - rewrite app_nil_r in Hbs. by rewrite <- Hbs.
    - apply (fs_wf_ancestor fs0 _ s); [done..|]. rewrite <- Hbs.
      apply isdir_lookup in Hsource; [|apply source_dir_not_nil].
      by rewrite Hsource. }
  apply isdir_exists in Hd. by rewrite Hd in Hfresh.
Qed.

Lemma source_ancestor_isdir t k :
  isdir fs0 (source_dir ++ t) = true →
  isdir fs0 (source_dir ++ take k t) = true.
Proof.
  intros Hd. destruct (decide (drop k t = [])) as [Hnil|Hne].
  - rewrite <- (take_drop k t), Hnil, app_nil_r in Hd. done.
  - apply (fs_wf_ancestor fs0 _ (drop k t)); [done..|].
    rewrite <- app_assoc, take_drop.
    apply isdir_lookup in Hd; [by rewrite Hd|].
    pose proof source_dir_not_nil. by destruct source_dir.
Qed.

Lemma mkdir_under_copying t fs fs' :
  isdir fs0 (source_dir ++ t) = true →
  copying fs0 source_dir backup_path fs →
  mkdir_under backup_path (backup_path ++ t) fs fs' →
  copying fs0 source_dir backup_path fs'.
Proof.
  intros Ht (Hwf1 & Hdir & Hsame & Hmirror) Hstep.
  apply mkdir_under_adds in Hstep as Hadd.
  destruct Hstep as (q & [s ->] & [s' Hq] & (Hnew & Hparent & ->) & _).
  split; [by apply (adds_under_wf backup_path fs)|]. split; [|split].
  - apply (extends_under_isdir backup_path fs); [|done].
    by apply adds_under_extends.
  - intros p Hp. rewrite lookup_insert_ne; [by apply Hsame|].
    intros <-. apply Hp. by apply prefix_app_r.
  - intros rel n Hrel Hn.
    destruct (decide (backup_path ++ rel = backup_path ++ s)) as [Heq|Hne].
    + rewrite Heq, lookup_insert_eq in Hn. injection Hn as <-.
      apply app_inv_head in Heq as ->.
      rewrite <- app_assoc in Hq. apply app_inv_head in Hq.
      assert (s = take (length s) t) as ->
        by (by rewrite Hq, take_app_length).
      apply isdir_lookup; [|by apply source_ancestor_isdir].
      pose proof source_dir_not_nil. by destruct source_dir.
    + rewrite lookup_insert_ne in Hn by done. by apply Hmirror.
Qed.

Lemma mkdir_under_rtc_copying t fs fs' :
  isdir fs0 (source_dir ++ t) = true →
  rtc (mkdir_under backup_path (backup_path ++ t)) fs fs' →
  copying fs0 source_dir backup_path fs →
  copying fs0 source_dir backup_path fs'
  ∧ ∀ p, is_Some (fs !! p) → is_Some (fs' !! p).
Proof.
  intros Ht Hsteps. induction Hsteps as [|fs1 fs2 fs3 Hstep _ IH]; [done|].
  intros Hc. destruct IH as [IH1 IH2]; [by apply (mkdir_under_copying t fs1)|].
  split; [done|]. intros p Hp. apply IH2.
  apply mkdir_under_adds, adds_under_extends in Hstep as (_ & _ & Hk).
  by apply Hk.
Qed.

Lemma makedirs_copying t fs :
  isdir fs0 (source_dir ++ t) = true →
  copying fs0 source_dir backup_path fs →
  ∃ fs',
    os_makedirs no_faults (backup_path ++ t) fs = (fs', [], Ok tt)
    ∧ copying fs0 source_dir backup_path fs'
    ∧ isdir fs' (backup_path ++ t) = true
    ∧ ∀ p, is_Some (fs !! p) → is_Some (fs' !! p).
Proof.
  intros Ht Hcopying. pose proof Hcopying as (Hwf1 & Hdir & Hsame & Hmirror).
  destruct (makedirs_upto_ok (backup_path ++ t) (length (backup_path ++ t)) fs)
    as [fs' Hm].
  { intros k data _ Hfile.
    destruct (decide (k ≤ length backup_path)) as [Hk|Hk].
    - rewrite take_app_le in Hfile by done.
      assert (isdir fs (take k backup_path) = true) as Hd.
      { destruct (decide (drop k backup_path = [])) as [Hnil|Hne].
        - rewrite <- (take_drop k backup_path), Hnil, app_nil_r in Hdir. done.
        - apply (fs_wf_ancestor fs _ (drop k backup_path)); [done..|].
          rewrite take_drop. apply isdir_lookup in Hdir; [by rewrite Hdir|].
          apply backup_path_not_nil. }
      unfold isdir in Hd. by rewrite Hfile in Hd.
    - rewrite take_app_ge in Hfile by lia.
      set (s := take (k - length backup_path) t) in *.
      assert (s ≠ []) as Hs.
      { intros Hnil. rewrite Hnil, app_nil_r in Hfile.
        unfold isdir in Hdir. by rewrite Hfile in Hdir. }
      assert (fs !! (backup_path ++ s) = Some (File data)) as Hl.
      { unfold fs_node in Hfile. by destruct (backup_path ++ s). }
      apply Hmirror in Hl; [|done].
      pose proof (source_ancestor_isdir t (k - length backup_path) Ht) as Hd.
      fold s in Hd. apply isdir_lookup in Hd; [by rewrite Hl in Hd|].
      pose proof source_dir_not_nil. by destruct source_dir. }
  exists fs'. split; [done|].
  apply os_makedirs_spec in Hm as Hspec. destruct Hspec as (_ & _ & _ & Hd).
  unfold os_makedirs in Hm. apply makedirs_upto_steps in Hm.
  apply (makes_prefixes_under backup_path t) in Hm; [|done..].
  apply (mkdir_under_rtc_copying t) in Hm as [Hc Hk]; [|done..].
  split; [done|]. split; [by apply Hd|done].
Qed.

(** One file: its directories are made and it is copied. *)
Lemma process_file_copies t f data l fs :
  isdir fs0 (source_dir ++ t) = true →
  fs0 !! (source_dir ++ t ++ [f]) = Some (File data) →
  copying fs0 source_dir backup_path fs →
  ∃ fs',
    process_file no_faults source_dir backup_path true None false
      (source_dir ++ t) f l fs
    = (fs', [PrintCopied (t ++ [f])],
       Ok (incr_to_copy (log_append (LogCopied (t ++ [f])) (incr_total l))))
    ∧ copying fs0 source_dir backup_path fs'
    ∧ fs' !! (backup_path ++ t ++ [f]) = Some (File data)
    ∧ ∀ p, is_Some (fs !! p) → is_Some (fs' !! p).
Proof.
  intros Ht Hfile Hcopying.
  destruct (makedirs_copying t fs Ht Hcopying)
    as (fs1 & Hm & (Hwf1 & Hdir1 & Hsame1 & Hmirror1) & Hparent & Hkeep).
  assert (Hrel : relpath ((source_dir ++ t) ++ [f]) source_dir = t ++ [f])
    by (by rewrite <- app_assoc, relpath_app).
  assert (Hdirname : dirname (backup_path ++ t ++ [f]) = backup_path ++ t)
    by (by rewrite app_assoc, dirname_snoc).
  assert (Hsrc : fs1 !! (source_dir ++ t ++ [f]) = Some (File data)).
  { rewrite Hsame1; [done|]. apply source_apart. by apply prefix_app_r. }
  assert (Hcopy : shutil_copy2 no_faults ((source_dir ++ t) ++ [f])
                    (backup_path ++ t ++ [f]) fs1
                  = (<[backup_path ++ t ++ [f] := File data]> fs1, [], Ok tt)).
  { apply shutil_copy2_ok.
    - rewrite <- app_assoc. intros Heq.
      apply (source_apart (source_dir ++ t ++ [f])); [by apply prefix_app_r|].
      rewrite Heq. by apply prefix_app_r.
    - destruct (isdir fs1 (backup_path ++ t ++ [f])) eqn:Hd; [|done].
      apply isdir_lookup in Hd;
        [|pose proof backup_path_not_nil; by destruct backup_path].
      apply Hmirror1 in Hd; [|by destruct t]. by rewrite Hfile in Hd.
    - rewrite <- app_assoc. unfold fs_node.
      pose proof source_dir_not_nil. by destruct source_dir.
    - by rewrite Hdirname. }
  exists (<[backup_path ++ t ++ [f] := File data]> fs1). split; [|split; [|split]].
  - unfold process_file. rewrite Hrel.
    assert (Hcheck : check_incremental no_faults true None
                       ((source_dir ++ t) ++ [f]) (t ++ [f]) (incr_total l) fs
                     = (fs, [], Ok (COPY, incr_total l))) by done.
    rewrite (bind_pure _ _ _ _ Hcheck).
    unfold copy_file. rewrite Hdirname, (bind_ok _ _ _ _ _ _ Hm).
    cbn [negb]. unfold try_except.
    rewrite (bind_ok _ _ _ _ _ _ Hcopy). by cbn.
  - split; [|split; [|split]].
    + apply fs_wf_insert; [done| |by rewrite Hdirname|].
      * pose proof backup_path_not_nil. by destruct backup_path.
      * right. destruct (isdir fs1 (backup_path ++ t ++ [f])) eqn:Hd; [|done].
        apply isdir_lookup in Hd;
          [|pose proof backup_path_not_nil; by destruct backup_path].
        apply Hmirror1 in Hd; [|by destruct t]. by rewrite Hfile in Hd.
    + apply isdir_lookup; [apply backup_path_not_nil|].
      rewrite lookup_insert_ne.
      * apply isdir_lookup; [apply backup_path_not_nil|done].
      * rewrite <- (app_nil_r backup_path) at 2. intros Heq.
        apply app_inv_head in Heq. by destruct t.
    + intros p Hp. rewrite lookup_insert_ne; [by apply Hsame1|].
      intros <-. apply Hp. by apply prefix_app_r.
    + intros rel n Hne Hn.
      destruct (decide (rel = t ++ [f])) as [->|Hneq].
      * rewrite lookup_insert_eq in Hn. by injection Hn as <-.
      * rewrite lookup_insert_ne in Hn; [by apply Hmirror1|].
        intros Heq. by apply app_inv_head in Heq.
  - by rewrite lookup_insert_eq.
  - intros p Hp. apply Hkeep in Hp.
    destruct (decide (p = backup_path ++ t ++ [f])) as [->|Hne].
    + by rewrite lookup_insert_eq.
    + by rewrite lookup_insert_ne.
Qed.

(** The files of one directory. *)
Lemma for_files_copies (t : path) (files : list string) (l : locals)
    (fs : filesystem) :
  isdir fs0 (source_dir ++ t) = true →
  (∀ f, f ∈ files →
        ∃ data, fs0 !! (source_dir ++ t ++ [f]) = Some (File data)) →
  copying fs0 source_dir backup_path fs →
  ∃ fs' o l',
    for_files
      (process_file no_faults source_dir backup_path true None false
         (source_dir ++ t))
      files l fs
    = (fs', o, Ok l')
    ∧ copying fs0 source_dir backup_path fs'
    ∧ (∀ p, is_Some (fs !! p) → is_Some (fs' !! p))
    ∧ (∀ f, f ∈ files →
            PrintCopied (t ++ [f]) ∈ o
            ∧ is_Some (fs' !! (backup_path ++ t ++ [f])))
    ∧ Forall copied_event o.
Proof.
  intros Ht. revert l fs.
  induction files as [|f rest IH]; intros l fs Hfiles Hcopying.
  - exists fs, [], l. split; [done|]. split; [done|]. split; [done|].
    split; [|done]. intros f Hf. by apply elem_of_nil in Hf.
  - destruct (Hfiles f) as [data Hdata]; [apply list_elem_of_here|].
    destruct (process_file_copies t f data l fs Ht Hdata Hcopying)
      as (fs1 & Hp & Hc1 & Hcopied & Hkeep1).
    destruct (IH (incr_to_copy (log_append (LogCopied (t ++ [f]))
                                  (incr_total l))) fs1)
      as (fs' & o & l' & Hrest & Hc' & Hkeep' & Hall & Honly); [|done|].
    { intros f' Hf'. apply Hfiles. by apply list_elem_of_further. }
    exists fs', ([PrintCopied (t ++ [f])] ++ o), l'.
    split; [|split; [done|split; [|split]]].
    + cbn [for_files]. rewrite (bind_ok _ _ _ _ _ _ Hp). by rewrite Hrest.
    + intros p Hp'. by apply Hkeep', Hkeep1.
    + intros f' [->|Hf']%elem_of_cons.
      * split; [apply list_elem_of_here|]. apply Hkeep'. by rewrite Hcopied.
      * destruct (Hall f' Hf') as [Hin Hsome].
        split; [by apply list_elem_of_further|done].
    + apply Forall_cons. split; [by eexists|done].
Qed.

Lemma in_directories q :
  source_dir `prefix_of` q → isdir fs0 q = true →
  q ∈ directories fs0 source_dir.
Proof.
  intros Hpre Hd. unfold directories.
  destruct (decide (q = source_dir)) as [->|Hne]; [set_solver|].
  apply elem_of_union_r, elem_of_dom. exists Dir.
  apply map_lookup_filter_Some. split; [|done].
  apply isdir_lookup; [|done]. intros ->.
  apply prefix_nil_inv in Hpre. by subst.
Qed.

(** The walk: every file below a directory still to visit gets copied. *)
Lemma os_walk_copies (fuel : nat) (stack : list path) (visited : gset path)
    (l : locals) (fs : filesystem) :
  copying fs0 source_dir backup_path fs →
  (∀ q, q ∈ stack → source_dir `prefix_of` q ∧ isdir fs0 q = true) →
  NoDup stack →
  (∀ q, q ∈ stack → q ∉ visited) →
  (∀ c, c ∈ stack ∨ c ∈ visited →
        c = source_dir ∨ ∃ parent d, c = parent ++ [d] ∧ parent ∈ visited) →
  size (directories fs0 source_dir ∖ visited) ≤ fuel →
  ∃ fs' o l',
    os_walk no_faults fuel stack
      (λ root files,
         for_files
           (process_file no_faults source_dir backup_path true None false
              root) files)
      l fs
    = (fs', o, Ok l')
    ∧ copying fs0 source_dir backup_path fs'
    ∧ (∀ p, is_Some (fs !! p) → is_Some (fs' !! p))
    ∧ (∀ rel data,
         fs0 !! (source_dir ++ rel) = Some (File data) →
         (∃ q, q ∈ stack ∧ q `prefix_of` source_dir ++ rel) →
         PrintCopied rel ∈ o ∧ is_Some (fs' !! (backup_path ++ rel)))
    ∧ Forall copied_event o.
Proof.
  revert stack visited l fs.
  induction fuel as [|fuel IH];
    intros stack visited l fs Hcopying Hstack Hnodup Hfresh' Htree Hsize.
  - destruct stack as [|top stack].
    { exists fs, [], l. split; [done|]. split; [done|]. split; [done|].
      split; [|done]. intros rel data _ (q & Hq & _).
      by apply elem_of_nil in Hq. }
    exfalso. destruct (Hstack top) as [Hpre Hd]; [apply list_elem_of_here|].
    assert (top ∈ directories fs0 source_dir ∖ visited) as Hin.
    { apply elem_of_difference. split; [by apply in_directories|].
      apply Hfresh'. apply list_elem_of_here. }
    assert (size (directories fs0 source_dir ∖ visited) ≠ 0) as Hpos.
    { apply size_non_empty_iff. intros Hempty. by rewrite Hempty in Hin. }
    lia.
  - destruct stack as [|top stack].
    { exists fs, [], l. split; [done|]. split; [done|]. split; [done|].
      split; [|done]. intros rel data _ (q & Hq & _).
      by apply elem_of_nil in Hq. }
    destruct (Hstack top) as [[t ->] Hd]; [apply list_elem_of_here|].
    pose proof Hcopying as (Hwf1 & Hdir1 & Hsame1 & Hmirror1).
    assert (Hhere : ∀ name,
              fs !! (source_dir ++ t ++ [name])
              = fs0 !! (source_dir ++ t ++ [name])).
    { intros name. apply Hsame1, source_apart. by apply prefix_app_r. }
    assert (Hscan : try_except
                      (es <- os_scandir no_faults (source_dir ++ t) ;;
                       ret (Some es))
                      is_OSError (λ _, ret None) fs
                    = (fs, [], Ok (Some (scan fs (source_dir ++ t))))).
    { unfold try_except, bind, os_scandir, no_faults.
      assert (fs_node fs (source_dir ++ t) = Some Dir) as ->; [|done].
      pose proof source_dir_not_nil as Hne.
      assert (source_dir ++ t ≠ []) as Hne' by (by destruct source_dir).
      assert (fs !! (source_dir ++ t) = Some Dir) as Hl.
      { rewrite Hsame1; [by apply isdir_lookup|].
        apply source_apart. by apply prefix_app_r. }
      unfold fs_node. by destruct (source_dir ++ t). }
    destruct (for_files_copies t (scan_nondirs (scan fs (source_dir ++ t))) l fs)
      as (fs1 & o1 & l1 & Hbody & Hc1 & Hkeep1 & Hfiles & Honly1);
      [done| |done|].
    { intros f Hf. rewrite scan_nondirs_filter in Hf.
      apply list_elem_of_filter in Hf as [Hnd Hin].
      apply elem_of_entries in Hin. rewrite <- app_assoc, Hhere in Hin.
      destruct Hin as [[|data] Hn]; [|by exists data].
      exfalso. rewrite <- app_assoc in Hnd.
      assert (isdir fs (source_dir ++ t ++ [f]) = true) as Hd'.
      { apply isdir_lookup; [by destruct source_dir, t|]. by rewrite Hhere. }
      by rewrite Hd' in Hnd. }
    set (top := source_dir ++ t) in *.
    set (children := map (λ d, top ++ [d]) (scan_dirs (scan fs top))).
    assert (Htop_new : top ∉ visited) by (apply Hfresh'; apply list_elem_of_here).
    assert (Htop_stack : (top ∉ stack) ∧ NoDup stack)
      by (by apply NoDup_cons in Hnodup).
    destruct Htop_stack as [Htop_stack Hnodup'].
    assert (Hchild : ∀ c, c ∈ children →
              ∃ d, c = top ++ [d] ∧ isdir fs0 c = true).
    { intros c (d & -> & Hin)%list_elem_of_fmap. exists d. split; [done|].
      rewrite scan_dirs_filter in Hin.
      apply list_elem_of_filter in Hin as [Hdir _].
      unfold top in *. rewrite <- app_assoc in Hdir |- *.
      apply isdir_lookup in Hdir; [|by destruct source_dir, t].
      apply isdir_lookup; [by destruct source_dir, t|]. by rewrite <- Hhere. }
    assert (Hchild_new : ∀ c, c ∈ children →
              (c ∉ stack) ∧ (c ∉ visited) ∧ c ≠ top).
    { intros c Hc. destruct (Hchild c Hc) as (d & -> & _).
      assert (Hparent : top ++ [d] ∈ top :: stack ∨ top ++ [d] ∈ visited → False).
      { intros Hin. destruct (Htree _ Hin) as [Heq|(parent & d' & Heq & Hv)].
        - unfold top in Heq. rewrite <- app_assoc in Heq.
          rewrite <- (app_nil_r source_dir) in Heq at 2.
          apply app_inv_head in Heq. by destruct t.
        - apply app_inj_tail in Heq as [<- _]. done. }
      split; [|split].
      - intros Hin. apply Hparent. left. by apply list_elem_of_further.
      - intros Hin. apply Hparent. by right.
      - intros Heq. apply (f_equal length) in Heq.
        rewrite length_app in Heq. simpl in Heq. lia. }
    destruct (IH (children ++ stack) (visited ∪ {[top]}) l1 fs1)
      as (fs' & o2 & l' & Hwalk & Hc' & Hkeep' & Hcover & Honly2); [done|..].
    { intros q [Hq|Hq]%elem_of_app.
      - destruct (Hchild q Hq) as (d & -> & Hdq). split; [|done].
        unfold top. rewrite <- app_assoc. by apply prefix_app_r.
      - apply Hstack. by apply list_elem_of_further. }
    { apply NoDup_app. split; [|split; [|done]].
      - unfold children. apply NoDup_fmap_2_strong; [|apply NoDup_scan_dirs].
        intros x y _ _ Heq. by apply app_inj_tail in Heq as [_ ?].
      - intros c Hc. by apply Hchild_new. }
    { intros q [Hq|Hq]%elem_of_app.
      - destruct (Hchild_new q Hq) as (_ & ? & ?). set_solver.
      - assert (q ∉ visited)
          by (apply Hfresh'; by apply list_elem_of_further).
        assert (q ≠ top) by (by intros ->). set_solver. }
    { intros c [[Hc|Hc]%elem_of_app|[Hc|Hc%elem_of_singleton]%elem_of_union].
      - destruct (Hchild c Hc) as (d & -> & _). right. exists top, d.
        split; [done|]. set_solver.
      - destruct (Htree c) as [?|(parent & d & -> & ?)];
          [left; by apply list_elem_of_further|by left|].
        right. exists parent, d. split; [done|]. set_solver.
      - destruct (Htree c) as [?|(parent & d & -> & ?)]; [by right|by left|].
        right. exists parent, d. split; [done|]. set_solver.
      - subst c. destruct (Htree top) as [?|(parent & d & Heq & ?)];
          [left; apply list_elem_of_here|by left|].
        right. exists parent, d. split; [done|]. set_solver. }
    { assert (top ∈ directories fs0 source_dir) as Hin
        by (apply in_directories; [by apply prefix_app_r|done]).
      assert (directories fs0 source_dir ∖ (visited ∪ {[top]})
              ⊂ directories fs0 source_dir ∖ visited) as Hsub.
      { split; [set_solver|]. intros Hsub. specialize (Hsub top). set_solver. }
      apply subset_size in Hsub. lia. }
    exists fs', (o1 ++ o2), l'. split; [|split; [done|split; [|split]]].
    4:{ by apply Forall_app. }
    + cbn [os_walk]. rewrite (bind_ok _ _ _ _ _ _ Hscan).
      rewrite (bind_ok _ _ _ _ _ _ Hbody). fold top. fold children.
      by rewrite Hwalk.
    + intros p Hp. by apply Hkeep', Hkeep1.
    + intros rel data Hfile (q & [->|Hq]%elem_of_cons & Hpre).
      * destruct Hpre as [s Hs]. unfold top in Hs.
        rewrite <- app_assoc in Hs. apply app_inv_head in Hs as ->.
        destruct s as [|d s'].
        { exfalso. rewrite app_nil_r in Hfile.
          apply isdir_lookup in Hd; [|apply source_path_not_nil].
          unfold top in Hd. by rewrite Hfile in Hd. }
        destruct (decide (s' = [])) as [->|Hne].
        -- destruct (Hfiles d) as [Hin Hsome].
           { rewrite scan_nondirs_filter. apply list_elem_of_filter. split.
             - unfold top. rewrite <- app_assoc.
               apply (isdir_file _ _ data); [apply source_path_not_nil|].
               by rewrite Hhere.
             - apply elem_of_entries. unfold top.
               rewrite <- app_assoc, Hhere, Hfile. by eexists. }
           split; [apply elem_of_app; by left|]. by apply Hkeep'.
        -- assert (top ++ [d] ∈ children) as Hc.
           { apply list_elem_of_fmap. exists d. split; [done|].
             rewrite scan_dirs_filter. apply list_elem_of_filter.
             assert (isdir fs0 (top ++ [d]) = true) as Hd0.
             { apply (fs_wf_ancestor fs0 _ s'); [done..|].
               unfold top. rewrite <- !app_assoc. simpl.
               by rewrite Hfile. }
             assert (fs !! (top ++ [d]) = Some Dir) as Hl.
             { unfold top in *. rewrite <- app_assoc in Hd0 |- *.
               rewrite Hhere. apply isdir_lookup; [by destruct source_dir, t|].
               done. }
             split.
             - apply isdir_lookup; [by destruct top|done].
             - apply elem_of_entries. by rewrite Hl. }
           destruct (Hcover (t ++ d :: s') data Hfile) as [Hin Hsome].
           { exists (top ++ [d]). split; [apply elem_of_app; by left|].
             exists s'. unfold top. by rewrite <- !app_assoc. }
           split; [apply elem_of_app; by right|done].
      * destruct (Hcover rel data Hfile) as [Hin Hsome].
        { exists q. split; [apply elem_of_app; by right|done]. }
        split; [apply elem_of_app; by right|done].
Qed.

End full_backup.

(** ** The whole full backup *)

Lemma copied_events_no_skip (o : list event) :
  Forall copied_event o → count_events is_skip_event o = 0.
Proof.
  unfold count_events. induction 1 as [|ev o [rel ->] _ IH]; [done|].
  by rewrite filter_cons, decide_False.
Qed.

Lemma full_backup_run (fuel : nat) (now : datetime)
    (source_dir destination_dir : path) (fs : filesystem) :
  let backup_path := destination_dir ++ [strftime now] in
  let log_file_path := backup_path ++ ["backup_log.txt"] in
  fs_wf fs →
  isdir fs source_dir = true → isdir fs destination_dir = true →
  path_exists fs backup_path = false →
  ¬ source_dir `prefix_of` backup_path →
  size (directories fs source_dir) ≤ fuel →
  ∃ fs2 fs' o_t o_w l,
    run_backup no_faults fuel now source_dir destination_dir true false fs
    = (fs',
       [PrintStarting true source_dir] ++ o_t ++ o_w
         ++ [PrintSummary (total_files l) (total_files l) 0 false],
       Ok tt)
    ∧ copying fs source_dir backup_path fs2
    ∧ Forall copied_event o_t
    ∧ (∀ rel data,
         fs !! (source_dir ++ rel) = Some (File data) →
         rel ≠ [] ∧ PrintCopied rel ∈ o_t
         ∧ fs2 !! (backup_path ++ rel) = Some (File data))
    ∧ write_log no_faults log_file_path (strftime now) source_dir
        destination_dir true false (log_messages l) fs2
      = (fs', o_w, Ok tt).
Proof.
  intros backup_path log_file_path Hwf Hs Hd Hfresh Hout Hfuel.
  assert (Hne : backup_path ≠ []) by (by destruct destination_dir).
  assert (Hnew : fs !! backup_path = None).
  { destruct (fs !! backup_path) as [n|] eqn:Hn; [|done].
    assert (path_exists fs backup_path = true) as Hex
      by (apply path_exists_lookup; [done|by eexists]).
    by rewrite Hex in Hfresh. }
  pose proof (os_makedirs_fresh no_faults destination_dir (strftime now) fs
                eq_refl Hd Hnew) as Hm.
  fold backup_path in Hm. set (fs1 := <[backup_path := Dir]> fs) in *.
  assert (Hc1 : copying fs source_dir backup_path fs1).
  { split; [|split; [|split]].
    - apply fs_wf_insert; [done..| |by left].
      unfold backup_path. by rewrite dirname_snoc.
    - apply isdir_lookup; [done|]. apply lookup_insert_eq.
    - intros p Hp. apply lookup_insert_ne. intros <-. by apply Hp.
    - intros rel n Hrel Hn. exfalso. unfold fs1 in Hn.
      rewrite lookup_insert_ne in Hn.
      + assert (isdir fs backup_path = true) as Hdir
          by (apply (fs_wf_ancestor fs _ rel); [done..|by rewrite Hn]).
        apply isdir_exists in Hdir. by rewrite Hdir in Hfresh.
      + rewrite <- (app_nil_r backup_path) at 1. intros Heq.
        by apply app_inv_head in Heq. }
  set (l0 := Locals [LogCreated backup_path] 0 0 0).
  destruct (os_walk_copies fs source_dir backup_path Hwf Hs Hfresh Hout fuel
              [source_dir] ∅ l0 fs1)
    as (fs2 & o_t & l & Hwalk & Hc2 & _ & Hcover & Honly).
  { done. }
  { intros q ->%list_elem_of_singleton. done. }
  { apply NoDup_singleton. }
  { intros q _. apply not_elem_of_empty. }
  { intros c [->%list_elem_of_singleton|Hc]; [by left|].
    by apply not_elem_of_empty in Hc. }
  { by rewrite difference_empty_L. }
  destruct (run_backup no_faults fuel now source_dir destination_dir true
              false fs) as [[fs' out] r] eqn:H.
  apply run_backup_inv in H as (fs1' & r1 & Hm' & H); [|done..].
  fold backup_path in Hm', H. rewrite Hm in Hm'. injection Hm' as <- <-.
  destruct H as (o_b & latest & l0' & fs2' & o_t' & r_t & Hr & Ht & H).
  apply resolve_baseline_spec in Hr as [_ [(_ & -> & [= -> ->])|(? & _)]];
    [|done].
  pose proof (eq_trans (eq_sym Hwalk) Ht) as Heq.
  injection Heq as <- <- <-.
  apply traverse_balanced in Ht as Hbalanced; [|done].
  destruct Hbalanced as [_ Hbalanced]. specialize (Hbalanced l eq_refl).
  destruct H as (o_w & Hw & -> & ->).
  assert (Htally : tallies l0 o_t l)
    by (apply (traverse_tallies no_faults fuel source_dir backup_path true None
                 false l0 fs1 fs2); unfold traverse; exact Hwalk).
  destruct Htally as [Hcopied Hskipped].
  rewrite copied_events_no_skip in Hskipped by done. simpl in Hskipped.
  unfold balanced in Hbalanced.
  assert (Hsame : files_to_copy l = total_files l) by lia.
  rewrite Hsame, Hskipped.
  exists fs2, fs', o_t, o_w, l. split; [done|]. split; [done|].
  split; [done|]. split; [|done].
  intros rel data Hfile.
  assert (rel ≠ []) as Hrel.
  { intros ->. rewrite app_nil_r in Hfile.
    apply isdir_lookup in Hs; [by rewrite Hfile in Hs|].
    intros ->. apply Hout, prefix_nil. }
  destruct (Hcover rel data Hfile) as [Hin [n Hn]].
  { exists source_dir. split; [apply list_elem_of_here|by apply prefix_app_r]. }
  split; [done|]. split; [done|].
  destruct Hc2 as (_ & _ & _ & Hmirror).
  pose proof (Hmirror rel n Hrel Hn) as Hn'. rewrite Hfile in Hn'.
  by injection Hn' as <-.
Qed.

(** A full backup that meets no failure, into a snapshot directory that
    does not lie in the source, copies every file of the source tree: each
    file is reported as copied and, unless it is [backup_log.txt] at the top
    of the source, the snapshot holds at the same relative path a file with
    the same content.  Apart from the log, the snapshot holds nothing that is
    not in the source; no file is skipped; the summary reports as many files
    copied as found; nothing outside the snapshot is changed.  The walk ends
    when the fuel is at least the number of directories. *)
Theorem full_backup_copies_every_file (fuel : nat) (now : datetime)
    (source_dir destination_dir : path) (fs : filesystem) :
  let backup_path := destination_dir ++ [strftime now] in
  fs_wf fs →
  isdir fs source_dir = true → isdir fs destination_dir = true →
  path_exists fs backup_path = false →
  ¬ source_dir `prefix_of` backup_path →
  size (directories fs source_dir) ≤ fuel →
  ∃ fs' out total,
    run_backup no_faults fuel now source_dir destination_dir true false fs
    = (fs', out, Ok tt)
    ∧ (∀ rel data,
         fs !! (source_dir ++ rel) = Some (File data) →
         PrintCopied rel ∈ out
         ∧ (rel ≠ ["backup_log.txt"] →
            fs' !! (backup_path ++ rel) = Some (File data)))
    ∧ (∀ rel n,
         rel ≠ [] → rel ≠ ["backup_log.txt"] →
         fs' !! (backup_path ++ rel) = Some n →
         fs !! (source_dir ++ rel) = Some n)
    ∧ (∀ ev, ev ∈ out → is_file_event ev = true → copied_event ev)
    ∧ PrintSummary total total 0 false ∈ out
    ∧ (∀ p, ¬ backup_path `prefix_of` p → fs' !! p = fs !! p).
Proof.
  intros backup_path Hwf Hs Hd Hfresh Hout Hfuel.
  destruct (full_backup_run fuel now source_dir destination_dir fs)
    as (fs2 & fs' & o_t & o_w & l & Hrun & Hc2 & Honly & Hcover & Hw);
    [done..|].
  fold backup_path in Hc2, Hcover, Hw.
  apply write_log_spec in Hw as (_ & Hframe & Ho_w).
  destruct Hc2 as (_ & _ & Hsame & Hmirror).
  assert (Hlog : ∀ rel, rel ≠ ["backup_log.txt"] →
                        backup_path ++ rel ≠ backup_path ++ ["backup_log.txt"]).
  { intros rel Hrel Heq. by apply app_inv_head in Heq. }
  eexists fs', _, (total_files l). split; [exact Hrun|].
  split; [|split; [|split; [|split]]].
  - intros rel data Hfile. destruct (Hcover rel data Hfile) as (_ & Hin & Hn).
    split.
    + rewrite !elem_of_app. auto.
    + intros Hrel. rewrite Hframe; [done|by apply Hlog].
  - intros rel n Hrel Hrel' Hn. rewrite Hframe in Hn by (by apply Hlog).
    by apply Hmirror.
  - intros ev Hin Hev. rewrite !elem_of_app in Hin.
    destruct Hin as [Hin|[Hin|[Hin|Hin]]].
    + apply list_elem_of_singleton in Hin. by subst.
    + rewrite Forall_forall in Honly. by apply Honly.
    + destruct Ho_w as [[-> _]|(e & -> & _)];
        apply list_elem_of_singleton in Hin; by subst.
    + apply list_elem_of_singleton in Hin. by subst.
  - rewrite !elem_of_app. do 3 right. apply list_elem_of_here.
  - intros p Hp. rewrite Hframe.
    + by apply Hsame.
    + intros ->. apply Hp. by apply prefix_app_r.
Qed.

(** A file [backup_log.txt] at the top of the source is reported as copied,
    on the console and in the log, but its copy does not survive the run:
    the log of the run is written to the same path of the snapshot, over the
    copy. *)
Theorem backup_log_replaces_a_copy (fuel : nat) (now : datetime)
    (source_dir destination_dir : path) (fs : filesystem) (data : string) :
  let backup_path := destination_dir ++ [strftime now] in
  let log_file_path := backup_path ++ ["backup_log.txt"] in
  fs_wf fs →
  isdir fs source_dir = true → isdir fs destination_dir = true →
  path_exists fs backup_path = false →
  ¬ source_dir `prefix_of` backup_path →
  size (directories fs source_dir) ≤ fuel →
  fs !! (source_dir ++ ["backup_log.txt"]) = Some (File data) →
  ∃ fs' out,
    run_backup no_faults fuel now source_dir destination_dir true false fs
    = (fs', out, Ok tt)
    ∧ PrintCopied ["backup_log.txt"] ∈ out
    ∧ LogCopied ["backup_log.txt"] ∈ log_of_events out
    ∧ PrintLogSaved log_file_path ∈ out
    ∧ fs' !! log_file_path
      = Some (File (String.concat ""
                      (log_header (strftime now) source_dir destination_dir
                         true false
                       ++ log_lines
                            (LogCreated backup_path :: log_of_events out)))).
Proof.
  intros backup_path log_file_path Hwf Hs Hd Hfresh Hout Hfuel Hfile.
  destruct (full_backup_run fuel now source_dir destination_dir fs)
    as (fs2 & fs' & o_t & o_w & l & Hrun & Hc2 & Honly & Hcover & Hw);
    [done..|].
  fold backup_path in Hc2, Hcover, Hw. fold log_file_path in Hw.
  destruct (Hcover _ _ Hfile) as (_ & Hin & Hn). fold log_file_path in Hn.
  destruct Hc2 as (_ & Hdir & _ & _).
  assert (Hne : log_file_path ≠ [])
    by (unfold log_file_path, backup_path; by destruct destination_dir).
  destruct (write_log_no_faults log_file_path (strftime now) source_dir
              destination_dir true false (log_messages l) fs2)
    as (fs'' & Hw' & _).
  { by apply (isdir_file _ _ data). }
  { unfold log_file_path. by rewrite dirname_snoc. }
  rewrite Hw in Hw'. injection Hw' as <- ->.
  assert (Hcopied : PrintCopied ["backup_log.txt"]
                    ∈ [PrintStarting true source_dir] ++ o_t
                      ++ [PrintLogSaved log_file_path]
                      ++ [PrintSummary (total_files l) (total_files l) 0 false])
    by (rewrite !elem_of_app; auto).
  assert (Hsaved : PrintLogSaved log_file_path
                   ∈ [PrintStarting true source_dir] ++ o_t
                     ++ [PrintLogSaved log_file_path]
                     ++ [PrintSummary (total_files l) (total_files l) 0 false]).
  { rewrite !elem_of_app. right. right. left. apply list_elem_of_here. }
  eexists fs', _. split; [exact Hrun|]. split; [done|]. split; [|split; [done|]].
  - apply list_elem_of_omap. by exists (PrintCopied ["backup_log.txt"]).
  - exact (run_backup_log_content no_faults fuel now source_dir destination_dir
             true false fs fs' _ (Ok tt) Hrun Hsaved).
Qed.

(** * More instances *)

(** ** A full backup of a tree *)

Lemma full_backup_copies_every_file_witness :
  ∃ fs' out total,
    run_backup no_faults 4 ten_files_now ["src"] ["dst"] true false
      tree_example
    = (fs', out, Ok tt)
    ∧ (∀ rel data,
         tree_example !! (["src"] ++ rel) = Some (File data) →
         PrintCopied rel ∈ out
         ∧ (rel ≠ ["backup_log.txt"] →
            fs' !! ((["dst"] ++ [strftime ten_files_now]) ++ rel)
            = Some (File data)))
    ∧ (∀ rel n,
         rel ≠ [] → rel ≠ ["backup_log.txt"] →
         fs' !! ((["dst"] ++ [strftime ten_files_now]) ++ rel) = Some n →
         tree_example !! (["src"] ++ rel) = Some n)
    ∧ (∀ ev, ev ∈ out → is_file_event ev = true → copied_event ev)
    ∧ PrintSummary total total 0 false ∈ out
    ∧ (∀ p, ¬ ["dst"] ++ [strftime ten_files_now] `prefix_of` p →
            fs' !! p = tree_example !! p).
Proof.
  apply (full_backup_copies_every_file 4 ten_files_now ["src"] ["dst"]
           tree_example).
  - apply fs_wf_b_correct. vm_compute. reflexivity.
  - vm_compute. reflexivity.
  - vm_compute. reflexivity.
  - vm_compute. reflexivity.
  - intros [k Hk]. discriminate Hk.
  - vm_compute. lia.
Defined.

Lemma backup_log_replaces_a_copy_witness :
  let backup_path := ["dst"] ++ [strftime ten_files_now] in
  let log_file_path := backup_path ++ ["backup_log.txt"] in
  ∃ fs' out,
    run_backup no_faults 2 ten_files_now ["src"] ["dst"] true false
      log_name_example
    = (fs', out, Ok tt)
    ∧ PrintCopied ["backup_log.txt"] ∈ out
    ∧ LogCopied ["backup_log.txt"] ∈ log_of_events out
    ∧ PrintLogSaved log_file_path ∈ out
    ∧ fs' !! log_file_path
      = Some (File (String.concat ""
                      (log_header (strftime ten_files_now) ["src"] ["dst"]
                         true false
                       ++ log_lines
                            (LogCreated backup_path :: log_of_events out)))).
Proof.
  apply (backup_log_replaces_a_copy 2 ten_files_now ["src"] ["dst"]
           log_name_example "the log of another tool").
  - apply fs_wf_b_correct. vm_compute. reflexivity.
  - vm_compute. reflexivity.
  - vm_compute. reflexivity.
  - vm_compute. reflexivity.
  - intros [k Hk]. discriminate Hk.
  - vm_compute. lia.
  - vm_compute. reflexivity.
Defined.

(** ** The frame and the summary of the run over the ten files *)

Lemma run_backup_touches_only_its_snapshot_witness :
  let run :=
    run_backup ten_files_faults 1 ten_files_now ["src"] ["dst"] true false
      ten_files in
  (∀ p, ¬ ["dst"] ++ [strftime ten_files_now] `prefix_of` p →
        run.1.1 !! p = ten_files !! p)
  ∧ (∀ p, ten_files !! p = Some Dir → run.1.1 !! p = Some Dir)
  ∧ (∀ p, is_Some (ten_files !! p) → is_Some (run.1.1 !! p)).
Proof.
  intros run.
  apply (run_backup_touches_only_its_snapshot ten_files_faults 1 ten_files_now
           ["src"] ["dst"] true false ten_files run.1.1 run.1.2 run.2).
  - apply fs_wf_b_correct. vm_compute. reflexivity.
  - apply run_triple.
Defined.

Lemma summary_counts_the_console_witness :
  let run :=
    run_backup ten_files_faults 1 ten_files_now ["src"] ["dst"] true false
      ten_files in
  PrintSummary 10 9 1 false ∈ run.1.2
  ∧ 9 = count_events is_copy_event run.1.2
  ∧ 1 = count_events is_skip_event run.1.2
  ∧ false = false.
Proof.
  intros run.
  assert (Hin : PrintSummary 10 9 1 false ∈ run.1.2)
    by (vm_compute; in_list).
  split; [exact Hin|].
  exact (summary_counts_the_console ten_files_faults 1 ten_files_now ["src"]
           ["dst"] true false ten_files run.1.1 run.1.2 run.2 10 9 1 false
           (run_triple run) Hin).
Defined.

Lemma dry_run_writes_only_the_log_witness :
  let run :=
    run_backup no_faults 3 ten_files_now ["src"] ["dst"] true true
      tree_example in
  run.2 = Ok tt
  ∧ ∀ p data,
      run.1.1 !! p = Some (File data) →
      p = ["dst"] ++ [strftime ten_files_now] ++ ["backup_log.txt"]
      ∨ tree_example !! p = Some (File data).
Proof.
  intros run. split; [vm_compute; reflexivity|].
  exact (dry_run_writes_only_the_log no_faults 3 ten_files_now ["src"] ["dst"]
           true tree_example run.1.1 run.1.2 run.2 (run_triple run)).
Defined.

(** ** The snapshot directory cannot be made *)

Lemma snapshot_creation_failure_ends_the_run_witness :
  run_backup destination_read_only 1 ten_files_now ["src"] ["dst"] false false
    ten_files
  = if is_OSError read_only then
      (ten_files,
       banner false
         ++ [PrintStarting false ["src"];
             ErrCreateDestination (["dst"] ++ [strftime ten_files_now])
               read_only],
       Ok tt)
    else
      (ten_files, banner false ++ [PrintStarting false ["src"]],
       Raise read_only).
Proof.
  apply (snapshot_creation_failure_ends_the_run destination_read_only 1
           ten_files_now ["src"] ["dst"] false false ten_files read_only).
  - vm_compute. reflexivity.
  - vm_compute. reflexivity.
  - vm_compute. reflexivity.
  - left. vm_compute. reflexivity.
Defined.

(** ** The source cannot be listed *)

Lemma unreadable_source_is_an_empty_backup_witness :
  let run :=
    run_backup source_unreadable 1 ten_files_now ["src"] ["dst"] true false
      ten_files in
  run.2 = Ok tt
  ∧ Forall (λ ev, is_file_event ev = false) run.1.2
  ∧ PrintSummary 0 0 0 false ∈ run.1.2.
Proof.
  intros run.
  apply (unreadable_source_is_an_empty_backup source_unreadable 1
           ten_files_now ["src"] ["dst"] true false ten_files
           (<[["dst"] ++ [strftime ten_files_now] := Dir]> ten_files)
           run.1.1 run.1.2 run.2 source_denied).
  - vm_compute. reflexivity.
  - reflexivity.
  - lia.
  - vm_compute. reflexivity.
  - vm_compute. reflexivity.
  - apply os_makedirs_fresh; vm_compute; reflexivity.
  - apply run_triple.
Defined.

(** ** Hashing a file *)


Lemma get_file_hash_zero_block_size_witness :
  get_file_hash length_digest no_faults never_fails 0
    ["src"; "todo.txt"] 0 notes_example
  = ([], Ok (Some (length_digest ""))).
Proof.
  apply (get_file_hash_zero_block_size length_digest no_faults never_fails 0
           ["src"; "todo.txt"] notes_example "a longer text").
  - reflexivity.
  - reflexivity.
  - vm_compute. reflexivity.
Defined.

Lemma get_file_hash_read_failure_witness :
  get_file_hash length_digest no_faults third_read_fails 13
    ["src"; "todo.txt"] 4 notes_example
  = ([ErrHash ["src"; "todo.txt"] stat_fails], Ok None).
Proof.
  apply (get_file_hash_read_failure length_digest no_faults third_read_fails
           13 ["src"; "todo.txt"] 4 notes_example "a longer text" 2
           stat_fails).
  - reflexivity.
  - vm_compute. reflexivity.
  - lia.
  - intros i Hi. destruct i as [|[|i]]; [reflexivity..|lia].
  - reflexivity.
  - vm_compute. lia.
  - lia.
Defined.

(** * The order of the snapshot names *)












(** * The exceptions that leave a run *)




